(** * NSET tokenizer (src/main.c, entropy.h): shallow embedding and properties

    The C program is embedded function by function.  Integers are [Z]; every
    narrowing store (uint32_t offset, uint16_t length, 3-bit depth, uint8_t
    record length) is written with its wrap-around.  Bytes are [Z] in
    [0, 255]; the source buffer is a [list Z].  The program never calls
    setlocale, so the <ctype.h> predicates are those of the "C" locale. *)
From Stdlib Require Import ZArith List Bool Lia String Ascii.

Import ListNotations.

Open Scope Z_scope.

(* ================================================================== *)
(** ** Bytes, <ctype.h> and C strings                               *)
(* ================================================================== *)

Definition byte_of_ascii (a : ascii) : Z := Z.of_N (N_of_ascii a).

Definition bytes_of_string (s : string) : list Z :=
  map byte_of_ascii (list_ascii_of_string s).

(** [code[i]]: the buffer is only ever read inside [0, size). *)
Definition byte_at (code : list Z) (i : Z) : Z :=
  if i <? 0 then 0 else nth (Z.to_nat i) code 0.

(** The bytes [code[off], ..., code[off+len-1]]. *)
Definition span (code : list Z) (off len : Z) : list Z :=
  map (fun k => byte_at code (off + Z.of_nat k)) (seq 0 (Z.to_nat len)).

Definition isupper (c : Z) : bool := (65 <=? c) && (c <=? 90).

Definition islower (c : Z) : bool := (97 <=? c) && (c <=? 122).

Definition isdigit (c : Z) : bool := (48 <=? c) && (c <=? 57).

Definition isspace (c : Z) : bool := ((9 <=? c) && (c <=? 13)) || (c =? 32).

Definition ispunct (c : Z) : bool :=
  ((33 <=? c) && (c <=? 47)) || ((58 <=? c) && (c <=? 64)) ||
  ((91 <=? c) && (c <=? 96)) || ((123 <=? c) && (c <=? 126)).

Definition tolower (c : Z) : Z := if isupper c then c + 32 else c.

(** A char buffer read as a NUL-terminated string. *)
Fixpoint cstr (l : list Z) : list Z :=
  match l with
  | [] => []
  | x :: r => if x =? 0 then [] else x :: cstr r
  end.

(** [strcmp] on NUL-terminated strings given without their terminator:
    the sign of the first differing unsigned byte. *)
Fixpoint strcmp (a b : list Z) : Z :=
  match a, b with
  | [], [] => 0
  | [], y :: _ => 0 - y
  | x :: _, [] => x
  | x :: a', y :: b' => if x =? y then strcmp a' b' else x - y
  end.

(* ================================================================== *)
(** ** Locked vocabulary                                            *)
(* ================================================================== *)

Definition LOCKED_VOCAB : list string :=
  [ "auto"; "break"; "case"; "char"; "const"; "continue"; "default"; "do";
    "double"; "else"; "enum"; "extern"; "float"; "for"; "goto"; "if"; "int";
    "long"; "register"; "return"; "short"; "signed"; "sizeof"; "static"; "struct";
    "switch"; "typedef"; "union"; "unsigned"; "void"; "volatile"; "while";
    "define"; "include"; "ifdef"; "ifndef"; "endif";
    "printf"; "malloc"; "free"; "size_t"; "uint32_t"; "uint8_t"; "uint16_t";
    "NULL"; "true"; "false"; "bool"; "file"; "path"; "buffer"; "length";
    "count"; "offset"; "data"; "node"; "tree"; "parser"; "cursor"; "root" ]%string.

(** [vocab_cmp key elt = strcmp(key, *elt)]. *)
Definition vocab_cmp (key : list Z) (elt : string) : Z :=
  strcmp key (bytes_of_string elt).

(** libc's [bsearch]: the halving search of glibc, musl and the BSDs, which
    all probe the middle element [(l + u) / 2] of the remaining range
    [l, u).  It is run as it is on the table above, sorted or not.  The
    range shrinks at every probe, so [u - l] steps of fuel are never
    exhausted before the range is empty. *)
Fixpoint bsearch_loop (fuel : nat) (key : list Z) (base : list string)
    (l u : nat) : option nat :=
  match fuel with
  | O => None
  | S f =>
      if (l <? u)%nat then
        let idx := ((l + u) / 2)%nat in
        let c := vocab_cmp key (nth idx base EmptyString) in
        if c <? 0 then bsearch_loop f key base l idx
        else if 0 <? c then bsearch_loop f key base (idx + 1)%nat u
        else Some idx
      else None
  end.

Definition bsearch (key : list Z) (base : list string) : option nat :=
  bsearch_loop (List.length base) key base 0%nat (List.length base).

Definition is_word_locked (str : list Z) (off len : Z) : bool :=
  if len >=? 64 then false
  else
    let buffer := map tolower (span str off len) in
    let key := cstr buffer in
    match bsearch key LOCKED_VOCAB with Some _ => true | None => false end.

(* ================================================================== *)
(** ** Hash and casing                                              *)
(* ================================================================== *)

Definition U32 : Z := 4294967296.

Definition U16 : Z := 65536.

Definition murmur_step (h b : Z) : Z :=
  (Z.lxor h (tolower b) * 16777619) mod U32.

Definition murmur_hash (key : list Z) (off len : Z) : Z :=
  fold_left murmur_step (span key off len) 2166136261.

Definition count_upper (l : list Z) : Z :=
  fold_left (fun caps c => if isupper c then caps + 1 else caps) l 0.

Definition get_casing (s : list Z) (off len : Z) : Z :=
  let caps := count_upper (span s off len) in
  if caps =? 0 then 0
  else if caps =? len then 2
  else if (caps =? 1) && isupper (byte_at s off) then 1
  else 3.

(* ================================================================== *)
(** ** Bigram model (entropy.h)                                     *)
(* ================================================================== *)

(** [uint32_t counts[256][256]; uint32_t totals[256]]. *)
Record EntropyModel := mkModel {
  counts : Z -> Z -> Z;
  totals : Z -> Z
}.

Definition model_zero : EntropyModel :=
  {| counts := fun _ _ => 0; totals := fun _ => 0 |}.

(** [m->counts[cur][next]++; m->totals[cur]++;] *)
Definition train_pair (m : EntropyModel) (cur next : Z) : EntropyModel :=
  {| counts := fun a b =>
       if (a =? cur) && (b =? next) then (counts m a b + 1) mod U32
       else counts m a b;
     totals := fun a =>
       if a =? cur then (totals m a + 1) mod U32 else totals m a |}.

Fixpoint train_loop (n : nat) (text : list Z) (pos : Z) (m : EntropyModel)
    : EntropyModel :=
  match n with
  | O => m
  | S n' =>
      train_loop n' text (pos + 1)
        (train_pair m (byte_at text pos) (byte_at text (pos + 1)))
  end.

Definition model_train_sequence (m : EntropyModel) (text : list Z)
    (off len : Z) : EntropyModel :=
  if len <? 2 then m else train_loop (Z.to_nat (len - 1)) text off m.

(* ================================================================== *)
(** ** Registry (persistent memory)                                 *)
(* ================================================================== *)

Definition SEEN_TABLE_SIZE : Z := 4194304.

(** One record of nset_vocab.bin: id, length byte, text bytes. *)
Definition VocabRecord : Type := (Z * Z * list Z)%type.

(** [seen_hashes] is the calloc'ed array, a total function on its indices;
    [vocab_file] is [None] for a NULL handle, otherwise the records
    appended so far. *)
Record Registry := mkRegistry {
  seen_hashes : Z -> Z;
  vocab_file : option (list VocabRecord)
}.

Definition set_slot (tbl : Z -> Z) (idx v : Z) : Z -> Z :=
  fun j => if j =? idx then v else tbl j.

(** The probe loop of [has_seen_id]; [None] when [fuel] probes did not
    leave the loop. *)
Fixpoint has_seen_loop (fuel : nat) (tbl : Z -> Z) (id idx : Z) : option bool :=
  match fuel with
  | O => None
  | S f =>
      if tbl idx =? 0 then Some false
      else if tbl idx =? id then Some true
      else has_seen_loop f tbl id ((idx + 1) mod SEEN_TABLE_SIZE)
  end.

(** [while (seen_hashes[idx] != 0) idx = (idx + 1) % SEEN_TABLE_SIZE;] *)
Fixpoint free_slot_loop (fuel : nat) (tbl : Z -> Z) (idx : Z) : option Z :=
  match fuel with
  | O => None
  | S f =>
      if tbl idx =? 0 then Some idx
      else free_slot_loop f tbl ((idx + 1) mod SEEN_TABLE_SIZE)
  end.

(** A probe sequence revisits its first slot after [SEEN_TABLE_SIZE]
    steps, so a loop that is still running then runs for ever
    ([has_seen_complete], [free_slot_complete] below): [None] is the call
    that does not return. *)
Definition probe_fuel : nat := Z.to_nat SEEN_TABLE_SIZE.

Definition has_seen_id (tbl : Z -> Z) (id : Z) : option bool :=
  has_seen_loop probe_fuel tbl id (id mod SEEN_TABLE_SIZE).

Definition free_slot (tbl : Z -> Z) (id : Z) : option Z :=
  free_slot_loop probe_fuel tbl (id mod SEEN_TABLE_SIZE).

Definition clamp_len (len : Z) : Z := if len >? 255 then 255 else len mod 256.

Definition register_token (id : Z) (text : list Z) (off len : Z)
    (r : Registry) : option Registry :=
  match has_seen_id (seen_hashes r) id with
  | None => None
  | Some true => Some r
  | Some false =>
      match free_slot (seen_hashes r) id with
      | None => None
      | Some idx =>
          let tbl := set_slot (seen_hashes r) idx id in
          match vocab_file r with
          | Some log =>
              let l := clamp_len len in
              Some {| seen_hashes := tbl;
                      vocab_file := Some (log ++ [(id, l, span text off l)]) |}
          | None => Some {| seen_hashes := tbl; vocab_file := None |}
          end
      end
  end.

Definition init_registry : Z -> Z := fun _ => 0.

(** [load_registry]: every record of the existing file is inserted by
    probing, without a membership test. *)
Fixpoint load_registry (recs : list VocabRecord) (tbl : Z -> Z) : option (Z -> Z) :=
  match recs with
  | [] => Some tbl
  | (id, _, _) :: rest =>
      match free_slot tbl id with
      | None => None
      | Some idx => load_registry rest (set_slot tbl idx id)
      end
  end.

(* ================================================================== *)
(** ** Tokens, arena and the program state                          *)
(* ================================================================== *)

Record Meta := mkMeta {
  type : Z;            (* 3 bits *)
  casing : Z;          (* 2 bits *)
  pre_space : bool;
  pre_break : bool;
  has_joiner : bool;
  depth : Z;           (* 3 bits *)
  has_semi : bool;
  has_comma : bool;
  has_paren : bool;
  has_star : bool;
  has_close : bool
}.

Record NSET_Token := mkToken {
  root_id : Z;         (* uint32_t *)
  offset : Z;          (* uint32_t *)
  length : Z;          (* uint16_t *)
  meta : Meta
}.

(** [count] is the length of [tokens]. *)
Record Arena := mkArena {
  tokens : list NSET_Token;
  capacity : Z
}.

Record World := mkWorld {
  arena : Arena;
  registry : Registry;
  global_model : EntropyModel
}.

Definition count (a : Arena) : Z := Z.of_nat (List.length (tokens a)).

Definition set_meta (f : Meta -> Meta) (t : NSET_Token) : NSET_Token :=
  mkToken (root_id t) (offset t) (length t) (f (meta t)).

Definition with_has_joiner (m : Meta) : Meta :=
  mkMeta (type m) (casing m) (pre_space m) (pre_break m) true (depth m)
         (has_semi m) (has_comma m) (has_paren m) (has_star m) (has_close m).

Definition with_has_semi (m : Meta) : Meta :=
  mkMeta (type m) (casing m) (pre_space m) (pre_break m) (has_joiner m) (depth m)
         true (has_comma m) (has_paren m) (has_star m) (has_close m).

Definition with_has_comma (m : Meta) : Meta :=
  mkMeta (type m) (casing m) (pre_space m) (pre_break m) (has_joiner m) (depth m)
         (has_semi m) true (has_paren m) (has_star m) (has_close m).

Definition with_has_paren (m : Meta) : Meta :=
  mkMeta (type m) (casing m) (pre_space m) (pre_break m) (has_joiner m) (depth m)
         (has_semi m) (has_comma m) true (has_star m) (has_close m).

Definition with_has_star (m : Meta) : Meta :=
  mkMeta (type m) (casing m) (pre_space m) (pre_break m) (has_joiner m) (depth m)
         (has_semi m) (has_comma m) (has_paren m) true (has_close m).

Definition with_has_close (m : Meta) : Meta :=
  mkMeta (type m) (casing m) (pre_space m) (pre_break m) (has_joiner m) (depth m)
         (has_semi m) (has_comma m) (has_paren m) (has_star m) true.

(** The outcome of a piece of the program: it returns, or it does not (a
    registry probe loop that never leaves, a store outside the arena) and
    [Hang] holds the state it had reached. *)
Inductive outcome (A : Type) : Type :=
| Done (a : A) (w : World)
| Hang (w : World).
Arguments Done {A} a w.
Arguments Hang {A} w.

Definition M (A : Type) : Type := World -> outcome A.

Definition ret {A} (a : A) : M A := fun w => Done a w.

Definition bind {A B} (m : M A) (k : A -> M B) : M B :=
  fun w => match m w with
           | Done a w' => k a w'
           | Hang w' => Hang w'
           end.

Notation "x <- c1 ;; c2" := (bind c1 (fun x => c2))
  (at level 61, c1 at next level, right associativity).

Notation "c1 ;; c2" := (bind c1 (fun _ => c2))
  (at level 61, right associativity).

(** The state in which an outcome leaves the program. *)
Definition final {A} (o : outcome A) : World :=
  match o with Done _ w => w | Hang w => w end.

(* ================================================================== *)
(** ** arena_push and the symbol eater                              *)
(* ================================================================== *)

(** [while (next_pos < total_size && isspace(code[next_pos])) next_pos++;]
    The scan stops at [total_size] at the latest; for sources below 4 GiB
    the uint32_t counter does not wrap, and [total_size - next_pos] steps
    are enough. *)
Fixpoint skip_space (fuel : nat) (code : list Z) (total_size next_pos : Z) : Z :=
  match fuel with
  | O => next_pos
  | S f =>
      if (next_pos <? total_size) && isspace (byte_at code next_pos)
      then skip_space f code total_size (next_pos + 1)
      else next_pos
  end.

Definition absorb (next_char : Z) (t : NSET_Token) : NSET_Token :=
  if next_char =? 59 then set_meta with_has_semi t
  else if next_char =? 44 then set_meta with_has_comma t
  else if next_char =? 40 then set_meta with_has_paren t
  else if next_char =? 41 then set_meta with_has_close t
  else if next_char =? 42 then set_meta with_has_star t
  else t.

Definition arena_push (t : NSET_Token) (code : list Z) (total_size : Z) : M unit :=
  fun w =>
    let a := arena w in
    if count a >=? capacity a then Done tt w
    else
      let next_pos0 := (offset t + length t) mod U32 in
      let next_pos :=
        skip_space (Z.to_nat (total_size - next_pos0)) code total_size next_pos0 in
      let t' := if next_pos <? total_size
                then absorb (byte_at code next_pos) t else t in
      match register_token (root_id t) code (offset t) (length t) (registry w) with
      | None => Hang w
      | Some r =>
          Done tt (mkWorld (mkArena (tokens a ++ [t']) (capacity a)) r
                           (global_model w))
      end.

Fixpoint update_last {A} (f : A -> A) (l : list A) : list A :=
  match l with
  | [] => []
  | [x] => [f x]
  | x :: r => x :: update_last f r
  end.

(** [arena->tokens[arena->count - 1].meta.has_joiner = 1;]  With an empty
    arena the store lands before the array (undefined behaviour): the run
    stops there. *)
Definition mark_joiner : M unit :=
  fun w =>
    match tokens (arena w) with
    | [] => Hang w
    | _ =>
        Done tt (mkWorld (mkArena (update_last (set_meta with_has_joiner)
                                               (tokens (arena w)))
                                  (capacity (arena w)))
                         (registry w) (global_model w))
    end.

Definition train (text : list Z) (off len : Z) : M unit :=
  fun w =>
    Done tt (mkWorld (arena w) (registry w)
                     (model_train_sequence (global_model w) text off len)).

Definition get_model : M EntropyModel := fun w => Done (global_model w) w.

(* ================================================================== *)
(** ** Identifier processor                                         *)
(* ================================================================== *)

Section Tokenizer.

(** [float_gt5 count total] stands for the single-precision test
    [-log2f((count + 0.1f) / (total + 1.0f)) > 5.0f]; the rest of
    [calculate_surprise] and its comparison with [entropy_threshold] is
    written out. *)
Variable float_gt5 : Z -> Z -> bool.

Definition surprise_exceeds (m : EntropyModel) (cur next : Z) : bool :=
  if totals m cur <? 5 then false
  else float_gt5 (counts m cur next) (totals m cur).

(** The token of the locked path: [{0}] with root_id, offset, length,
    depth and pre_space assigned. *)
Definition locked_token (src : list Z) (off len d : Z) (sp : bool) : NSET_Token :=
  mkToken (murmur_hash src off len) (off mod U32) (len mod U16)
    (mkMeta 0 0 sp false false (d mod 8) false false false false false).

(** The token built at each of the three push sites of the splitter, for
    the fragment [start, stop) of the identifier. *)
Definition fragment_token (src : list Z) (off start stop d : Z) (sp : bool)
    (tokens_emitted : Z) : NSET_Token :=
  mkToken (murmur_hash src (off + start) (stop - start))
    ((off + start) mod U32) ((stop - start) mod U16)
    (mkMeta 0 (get_casing src (off + start) (stop - start))
       (if tokens_emitted =? 0 then sp else false)
       false false (d mod 8) false false false false false).

(** Which branch of the soft-split test set [split = true]. *)
Inductive split_kind := NoSplit | CamelSplit | EntropySplit.

Definition soft_split (m : EntropyModel) (src : list Z) (off len start i : Z)
    : split_kind :=
  let cur := byte_at src (off + i) in
  let next := byte_at src (off + i + 1) in
  if islower cur && isupper next then CamelSplit
  else if surprise_exceeds m cur next then
    let left_len := (i + 1) - start in
    let right_len := len - (i + 1) in
    if is_word_locked src (off + start) left_len then EntropySplit
    else if (left_len >=? 4) && (right_len >=? 3) then EntropySplit
    else NoSplit
  else NoSplit.

(** The [for] loop of the splitter with [n] iterations left; it returns
    the final [start]. *)
Fixpoint split_loop (n : nat) (src : list Z) (off len d : Z) (sp : bool)
    (file_size : Z) (i start tokens_emitted : Z) : M (Z * Z) :=
  match n with
  | O => ret (start, tokens_emitted)
  | S n' =>
      let cur := byte_at src (off + i) in
      if cur =? 95 then
        te <- (if i >? start then
                 arena_push (fragment_token src off start i d sp tokens_emitted)
                            src file_size ;;
                 ret (tokens_emitted + 1)
               else ret tokens_emitted) ;;
        (if te >? 0 then mark_joiner else ret tt) ;;
        split_loop n' src off len d sp file_size (i + 1) (i + 1) te
      else if i <? len - 1 then
        m <- get_model ;;
        match soft_split m src off len start i with
        | NoSplit =>
            split_loop n' src off len d sp file_size (i + 1) start tokens_emitted
        | _ =>
            arena_push (fragment_token src off start (i + 1) d sp tokens_emitted)
                       src file_size ;;
            split_loop n' src off len d sp file_size (i + 1) (i + 1)
                       (tokens_emitted + 1)
        end
      else split_loop n' src off len d sp file_size (i + 1) start tokens_emitted
  end.

Definition process_identifier (src : list Z) (off len d : Z) (sp : bool)
    (file_size : Z) : M unit :=
  if is_word_locked src off len then
    arena_push (locked_token src off len d sp) src file_size ;;
    train src off len
  else
    train src off len ;;
    r <- split_loop (Z.to_nat len) src off len d sp file_size 0 0 0 ;;
    let '(start, tokens_emitted) := r in
    if start <? len then
      arena_push (fragment_token src off start len d sp tokens_emitted)
                 src file_size
    else ret tt.

(* ================================================================== *)
(** ** Main loop                                                    *)
(* ================================================================== *)

(** A leaf handed over by the cursor walk, with the value of [depth] at
    that moment. *)
Record Leaf := mkLeaf {
  start_byte : Z;
  end_byte : Z;
  node_type : string;
  leaf_depth : Z
}.

(** The parse tree as the cursor exposes it. *)
#[local] Unset Elimination Schemes.
Inductive TSNode := Node (ty : string) (s e : Z) (children : list TSNode).
#[local] Set Elimination Schemes.

(** The walk of [main]: [depth++] on every descent, [depth--] on every
    ascent, leaves (nodes without children) in source order. *)
Fixpoint leaves_of (d : Z) (n : TSNode) : list Leaf :=
  match n with
  | Node ty s e cs =>
      match cs with
      | [] => [mkLeaf s e ty d]
      | _ => flat_map (leaves_of (d + 1)) cs
      end
  end.

(** [strstr(type, pat) != NULL] *)
Definition strstr (s pat : string) : bool :=
  match index 0 pat s with Some _ => true | None => false end.

(** [strncmp(type, "preproc", 7) == 0] *)
Definition has_prefix (p s : string) : bool := prefix p s.

Definition already_eaten (first_char : Z) (prev : Meta) : bool :=
  ((first_char =? 59) && has_semi prev) ||
  ((first_char =? 44) && has_comma prev) ||
  ((first_char =? 40) && has_paren prev) ||
  ((first_char =? 41) && has_close prev) ||
  ((first_char =? 42) && has_star prev).

(** The fragment pushed inside the blob loop. *)
Definition blob_token (code : list Z) (start sub_start sub_len d : Z) : NSET_Token :=
  mkToken (murmur_hash code (start + sub_start) sub_len)
    ((start + sub_start) mod U32) (sub_len mod U16)
    (mkMeta 1 0 false false false (d mod 8) false false false false false).

(** The fragment pushed after the blob loop. *)
Definition blob_tail_token (code : list Z) (start sub_start len : Z) : NSET_Token :=
  mkToken (murmur_hash code (start + sub_start) (len - sub_start))
    ((start + sub_start) mod U32) ((len - sub_start) mod U16)
    (mkMeta 1 0 false false false 0 false false false false false).

Fixpoint blob_loop (n : nat) (code : list Z) (st_size start d : Z)
    (i sub_start : Z) : M Z :=
  match n with
  | O => ret sub_start
  | S n' =>
      let c := byte_at code ((start + i) mod U32) in
      if isspace c || ispunct c then
        (if i >? sub_start then
           arena_push (blob_token code start sub_start (i - sub_start) d)
                      code st_size
         else ret tt) ;;
        blob_loop n' code st_size start d (i + 1) (i + 1)
      else blob_loop n' code st_size start d (i + 1) sub_start
  end.

Definition default_token (code : list Z) (start len d : Z) (sp br : bool) : NSET_Token :=
  mkToken (murmur_hash code start len) start len
    (mkMeta (if isdigit (byte_at code start) then 2 else 0) 0 sp br false
            (d mod 8) false false false false false).

Inductive leaf_class := IdentifierLeaf | BlobLeaf | DefaultLeaf.

Definition classify (code : list Z) (type : string) (start len : Z) : leaf_class :=
  let is_preproc := has_prefix "preproc" type in
  let is_macro_blob := (len >? 32) && negb (is_word_locked code start len) in
  if strstr type "identifier" then IdentifierLeaf
  else if (type =? "comment")%string || (type =? "string_literal")%string
          || is_preproc || is_macro_blob then BlobLeaf
  else DefaultLeaf.

(** [int offset] receives the uint32_t [start]. *)
Definition to_int (x : Z) : Z := if x <? 2147483648 then x else x - U32.

Definition last_meta (a : Arena) : option Meta :=
  match rev (tokens a) with
  | [] => None
  | prev :: _ => Some (meta prev)
  end.

(** Whether the leaf is dropped by the symbol eater. *)
Definition eaten (code : list Z) (start : Z) (a : Arena) : bool :=
  match last_meta a with
  | None => false
  | Some prev => already_eaten (byte_at code start) prev
  end.

(** The body of the main loop for one leaf. *)
Definition process_leaf (code : list Z) (st_size : Z) (lf : Leaf) : M unit :=
  let start := start_byte lf in
  let len := (end_byte lf - start) mod U16 in
  let d := leaf_depth lf in
  let pre_space := (start >? 0) && isspace (byte_at code (start - 1))
                   && negb (byte_at code (start - 1) =? 10) in
  let pre_break := (start >? 0) && (byte_at code (start - 1) =? 10) in
  if len >? 0 then
    fun w =>
      if eaten code start (arena w) then Done tt w
      else
        match classify code (node_type lf) start len with
        | IdentifierLeaf =>
            process_identifier code (to_int start) len (Z.rem d 7) pre_space
                               st_size w
        | BlobLeaf =>
            (sub_start <- blob_loop (Z.to_nat len) code st_size start
                                    (Z.rem d 7) 0 0 ;;
             if sub_start <? len then
               arena_push (blob_tail_token code start sub_start len) code st_size
             else ret tt) w
        | DefaultLeaf =>
            arena_push (default_token code start len (Z.rem d 7) pre_space pre_break)
                       code st_size w
        end
  else ret tt.

Fixpoint run_leaves (code : list Z) (st_size : Z) (ls : list Leaf) : M unit :=
  match ls with
  | [] => ret tt
  | lf :: rest => process_leaf code st_size lf ;; run_leaves code st_size rest
  end.

(** Pre-training: 20 passes over the locked vocabulary. *)
Definition train_vocab (m : EntropyModel) : EntropyModel :=
  fold_left (fun m w => let b := bytes_of_string w in
                        model_train_sequence m b 0 (Z.of_nat (List.length b)))
            LOCKED_VOCAB m.

Fixpoint pretrain (n : nat) (m : EntropyModel) : EntropyModel :=
  match n with
  | O => m
  | S n' => pretrain n' (train_vocab m)
  end.

(** The state in which [main] enters its loop: registry loaded from the
    records of an existing nset_vocab.bin and reopened for append, model
    pre-trained, arena empty with capacity [st_size]. *)
Definition boot (existing : list VocabRecord) (st_size : Z) : option World :=
  match load_registry existing init_registry with
  | None => None
  | Some tbl =>
      Some (mkWorld (mkArena [] st_size) (mkRegistry tbl (Some existing))
                    (pretrain 20 model_zero))
  end.

(** A run of the tokenizer on [code] with parse tree [root]. *)
Definition tokenize (existing : list VocabRecord) (code : list Z) (root : TSNode)
    : option (outcome unit) :=
  let st_size := Z.of_nat (List.length code) in
  match boot existing st_size with
  | None => None
  | Some w => Some (run_leaves code st_size (leaves_of 0 root) w)
  end.

End Tokenizer.

(* ================================================================== *)
(** ** Vocabulary of the statements: registry                       *)
(* ================================================================== *)

Definition in_table (idx : Z) : Prop := 0 <= idx < SEEN_TABLE_SIZE.

Definition has_empty_slot (tbl : Z -> Z) : Prop :=
  exists j, in_table j /\ tbl j = 0.

(** The slot reached after [k] probes from [idx]. *)
Definition slot (idx : Z) (k : nat) : Z := (idx + Z.of_nat k) mod SEEN_TABLE_SIZE.

(** Both loops probe [idx], [idx + 1], ... modulo the table size and leave
    at the first slot where [exit] answers. *)
Fixpoint probe_loop {R : Type} (exit : Z -> option R) (fuel : nat) (idx : Z)
    : option R :=
  match fuel with
  | O => None
  | S f =>
      match exit idx with
      | Some r => Some r
      | None => probe_loop exit f ((idx + 1) mod SEEN_TABLE_SIZE)
      end
  end.

Definition seen_exit (tbl : Z -> Z) (id idx : Z) : option bool :=
  if tbl idx =? 0 then Some false
  else if tbl idx =? id then Some true else None.

Definition free_exit (tbl : Z -> Z) (idx : Z) : option Z :=
  if tbl idx =? 0 then Some idx else None.

(** A sequence of [register_token] calls, up to the first one that does
    not return. *)
Fixpoint register_all (calls : list (Z * list Z * Z * Z)) (r : Registry) : Registry :=
  match calls with
  | [] => r
  | (id, text, off, len) :: rest =>
      match register_token id text off len r with
      | Some r' => register_all rest r'
      | None => r
      end
  end.

Definition record_id (rec : VocabRecord) : Z := fst (fst rec).

Definition nonzero_ids (l : list VocabRecord) : list Z :=
  filter (fun id => negb (id =? 0)) (map record_id l).

(* ================================================================== *)
(** ** Vocabulary of the statements: what a run appends             *)
(* ================================================================== *)

(** A token without the bits that are written after it is built:
    [has_joiner] and the five absorption bits. *)
Definition erase (t : NSET_Token) : NSET_Token :=
  mkToken (root_id t) (offset t) (length t)
    (mkMeta (type (meta t)) (casing (meta t)) (pre_space (meta t))
            (pre_break (meta t)) false (depth (meta t))
            false false false false false).

(** From [w] to [w'] the arena kept its tokens, up to those bits, and
    received the tokens [l]. *)
Definition emits (w w' : World) (l : list NSET_Token) : Prop :=
  map erase (tokens (arena w')) = map erase (tokens (arena w)) ++ l.

(** The tokens appended between [w] and [w']. *)
Definition appended (w w' : World) : list NSET_Token :=
  skipn (List.length (tokens (arena w))) (tokens (arena w')).

(** The tokens that were there before, as [w'] has them. *)
Definition kept (w w' : World) : list NSET_Token :=
  firstn (List.length (tokens (arena w))) (tokens (arena w')).

(** [pushes P R m]: from any state, [m] appends only tokens that satisfy
    [P], leaves the older ones as they were up to the late bits, and
    returns, when it does, a value that satisfies [R]. *)
Definition pushes {A} (P : NSET_Token -> Prop) (R : A -> Prop) (m : M A) : Prop :=
  forall w, exists l,
    emits w (final (m w)) l /\ Forall P l /\
    (forall a w', m w = Done a w' -> R a).

(* ================================================================== *)
(** ** Vocabulary of the statements: tokens of each path            *)
(* ================================================================== *)

(** A lowercase letter at [p] followed by an uppercase letter. *)
Definition camel_at (src : list Z) (p : Z) : bool :=
  islower (byte_at src p) && isupper (byte_at src (p + 1)).

(** A token of the splitter: the fragment [start, stop) of the identifier,
    free of underscores and of lower-upper pairs, with the reason it ends
    where it does. *)
Definition fragment_ok (src : list Z) (off len d : Z) (sp : bool)
    (t : NSET_Token) : Prop :=
  exists start stop te,
    0 <= start < stop /\ stop <= len /\
    t = fragment_token src off start stop d sp te /\
    (forall j, start <= j < stop -> byte_at src (off + j) <> 95) /\
    (forall j, start <= j -> j + 1 < stop -> camel_at src (off + j) = false) /\
    (stop = len \/ byte_at src (off + stop) = 95 \/
     camel_at src (off + (stop - 1)) = true \/
     is_word_locked src (off + start) (stop - start) = true \/
     (4 <= stop - start /\ 3 <= len - stop)).

(** Loop invariant of the splitter: the open fragment [start, i). *)
Definition scanned (src : list Z) (off len start i : Z) : Prop :=
  0 <= start <= i /\
  forall j, start <= j < i ->
    byte_at src (off + j) <> 95 /\
    (j + 1 < len -> camel_at src (off + j) = false).

(** The tokens of [process_identifier]: the locked token, or fragments. *)
Definition identifier_token_ok (src : list Z) (off len d : Z) (sp : bool)
    (t : NSET_Token) : Prop :=
  (is_word_locked src off len = true /\ t = locked_token src off len d sp) \/
  (is_word_locked src off len = false /\ fragment_ok src off len d sp t).

(** Whether byte [j] of a blob leaf separates fragments. *)
Definition blob_sep (code : list Z) (start j : Z) : bool :=
  isspace (byte_at code ((start + j) mod U32))
  || ispunct (byte_at code ((start + j) mod U32)).

(** A token of the blob splitter: the fragment [s, e) of the leaf, free of
    separators, built inside the loop or after it. *)
Definition blob_fragment_ok (code : list Z) (start len d : Z)
    (t : NSET_Token) : Prop :=
  exists s e,
    0 <= s < e /\ e <= len /\
    (t = blob_token code start s (e - s) d \/
     (e = len /\ t = blob_tail_token code start s len)) /\
    (forall j, s <= j < e -> blob_sep code start j = false).

Definition blob_open (code : list Z) (start sub_start i : Z) : Prop :=
  0 <= sub_start <= i /\
  forall j, sub_start <= j < i -> blob_sep code start j = false.

Definition leaf_len (lf : Leaf) : Z := (end_byte lf - start_byte lf) mod U16.

Definition leaf_pre_space (code : list Z) (lf : Leaf) : bool :=
  (start_byte lf >? 0) && isspace (byte_at code (start_byte lf - 1))
  && negb (byte_at code (start_byte lf - 1) =? 10).

Definition leaf_pre_break (code : list Z) (lf : Leaf) : bool :=
  (start_byte lf >? 0) && (byte_at code (start_byte lf - 1) =? 10).

Definition leaf_class_of (code : list Z) (lf : Leaf) : leaf_class :=
  classify code (node_type lf) (start_byte lf) (leaf_len lf).

(** The tokens a leaf can append, by the path it takes. *)
Definition leaf_token_ok (code : list Z) (lf : Leaf) (t : NSET_Token) : Prop :=
  match leaf_class_of code lf with
  | IdentifierLeaf =>
      identifier_token_ok code (to_int (start_byte lf)) (leaf_len lf)
        (Z.rem (leaf_depth lf) 7) (leaf_pre_space code lf) t
  | BlobLeaf =>
      blob_fragment_ok code (start_byte lf) (leaf_len lf)
        (Z.rem (leaf_depth lf) 7) t
  | DefaultLeaf =>
      t = default_token code (start_byte lf) (leaf_len lf)
            (Z.rem (leaf_depth lf) 7) (leaf_pre_space code lf)
            (leaf_pre_break code lf)
  end.

(* ================================================================== *)
(** ** Vocabulary of the statements: byte spans and locked words    *)
(* ================================================================== *)

Definition token_span (code : list Z) (t : NSET_Token) : list Z :=
  span code (offset t) (length t).

Definition has_underscore (l : list Z) : bool := existsb (Z.eqb 95) l.

(** Some adjacent pair is a lowercase letter followed by an uppercase one. *)
Fixpoint has_lower_upper (l : list Z) : bool :=
  match l with
  | a :: (b :: _) as r => (islower a && isupper b) || has_lower_upper r
  | _ => false
  end.

Definition nonzero_bytes (l : list Z) : bool := forallb (fun b => negb (b =? 0)) l.

(** Whether the search finds a table entry when it is given that entry. *)
Definition found_by_search (w : string) : bool :=
  match bsearch (bytes_of_string w) LOCKED_VOCAB with
  | Some _ => true
  | None => false
  end.

(** A leaf of a source below 2 GiB, as the parser reports it. *)
Definition leaf_ok (st_size : Z) (lf : Leaf) : Prop :=
  0 <= start_byte lf <= end_byte lf /\ end_byte lf <= st_size /\
  st_size < 2147483648.

(** The text of the leaf holds no NUL byte. *)
Definition leaf_no_nul (code : list Z) (lf : Leaf) : Prop :=
  forall j, 0 <= j < leaf_len lf -> byte_at code (start_byte lf + j) <> 0.

(** [t] is the token of a default-path leaf of [ls]; it covers the leaf. *)
Definition default_token_of (code : list Z) (ls : list Leaf) (t : NSET_Token)
    : Prop :=
  exists lf, In lf ls /\ leaf_class_of code lf = DefaultLeaf /\
             offset t = start_byte lf /\ length t = leaf_len lf.

(** A leaf that is not cut at case changes: a default-path leaf, a blob
    leaf, or an identifier that is a locked word. *)
Definition uncut_leaf (code : list Z) (lf : Leaf) : Prop :=
  leaf_class_of code lf <> IdentifierLeaf \/
  is_word_locked code (start_byte lf) (leaf_len lf) = true.

Definition inside_leaf (lf : Leaf) (t : NSET_Token) : Prop :=
  start_byte lf <= offset t /\
  offset t + length t <= start_byte lf + leaf_len lf.

(** [t] lies inside a leaf of [ls] that is not cut at case changes. *)
Definition uncut_token_of (code : list Z) (ls : list Leaf) (t : NSET_Token)
    : Prop :=
  exists lf, In lf ls /\ uncut_leaf code lf /\ inside_leaf lf t.

(* ================================================================== *)
(** ** Vocabulary of the statements: symbol eater and entropy guard *)
(* ================================================================== *)

(** The byte [c] matches an absorption bit set in [m]. *)
Definition absorbed_char (m : Meta) (c : Z) : Prop :=
  (c = 59 /\ has_semi m = true) \/ (c = 44 /\ has_comma m = true) \/
  (c = 40 /\ has_paren m = true) \/ (c = 41 /\ has_close m = true) \/
  (c = 42 /\ has_star m = true).

Definition absorption_bits (m : Meta) : list bool :=
  [has_semi m; has_comma m; has_paren m; has_close m; has_star m].

(** The guard of the entropy branch at the fragment [start .. i]. *)
Definition guard_open (src : list Z) (off len start i : Z) : bool :=
  is_word_locked src (off + start) (i + 1 - start)
  || ((i + 1 - start >=? 4) && (len - (i + 1) >=? 3)).

(** The guard is closed at every fragment of the identifier. *)
Definition entropy_blind (src : list Z) (off len : Z) : bool :=
  forallb (fun s =>
    forallb (fun k => negb (guard_open src off len (Z.of_nat s) (Z.of_nat (s + k))))
            (seq 0 (Z.to_nat len - s)))
    (seq 0 (Z.to_nat len)).

(* ================================================================== *)
(** ** Vocabulary of the statements: the bigram model               *)
(* ================================================================== *)

(** The number of positions [k < n] at which [hit (pos + k)] holds. *)
Definition hits (hit : Z -> bool) (pos : Z) (n : nat) : Z :=
  Z.of_nat (List.length (filter (fun k => hit (pos + Z.of_nat k)) (seq 0 n))).

(** How often the byte [a] is directly followed by the byte [b] inside
    [text[off .. off+len)]. *)
Definition pair_count (text : list Z) (off len a b : Z) : Z :=
  hits (fun p => (byte_at text p =? a) && (byte_at text (p + 1) =? b))
       off (Z.to_nat (len - 1)).

(** How often the byte [a] stands in [text[off .. off+len-1)], the
    positions that have a successor. *)
Definition lead_count (text : list Z) (off len a : Z) : Z :=
  hits (fun p => byte_at text p =? a) off (Z.to_nat (len - 1)).

(** The sum of the row [counts[a][0 .. 255]]. *)
Definition row_sum (m : EntropyModel) (a : Z) : Z :=
  fold_right Z.add 0 (map (fun b => counts m a (Z.of_nat b)) (seq 0 256)).

(** Every entry is a uint32_t. *)
Definition model_in_range (m : EntropyModel) : Prop :=
  (forall a b, 0 <= counts m a b < U32) /\ (forall a, 0 <= totals m a < U32).

(** [totals[a]] is the sum of row [a], as far as 32 bits tell. *)
Definition totals_match_rows (m : EntropyModel) : Prop :=
  forall a, totals m a mod U32 = row_sum m a mod U32.

Definition is_byte (b : Z) : Prop := 0 <= b < 256.

(** The model holds uint32_t entries whose rows sum up to the totals. *)
Definition model_consistent (m : EntropyModel) : Prop :=
  model_in_range m /\ totals_match_rows m.

(* ================================================================== *)
(** ** Vocabulary of the statements: table and log                  *)
(* ================================================================== *)

(** A table that was filled by probing only: every id it stores is found
    by [has_seen_id]. *)
Definition probe_closed (tbl : Z -> Z) : Prop :=
  forall j, in_table j -> tbl j <> 0 -> has_seen_id tbl (tbl j) = Some true.

(** The registry with its log open: the lookup finds the non-zero ids of
    the log, and no other. *)
Definition registry_agrees (r : Registry) (log : list VocabRecord) : Prop :=
  vocab_file r = Some log /\ probe_closed (seen_hashes r) /\
  forall x, x <> 0 ->
    (has_seen_id (seen_hashes r) x = Some true <-> In x (map record_id log)).

(** The slots in use are among those of [l]. *)
Definition used_within (tbl : Z -> Z) (l : list Z) : Prop :=
  forall j, in_table j -> tbl j <> 0 -> In j l.

Definition call_id (c : Z * list Z * Z * Z) : Z := fst (fst (fst c)).

(** The registry with which a run starts on the log [log]. *)
Definition registry_of (tbl : Z -> Z) (log : list VocabRecord) : Registry :=
  mkRegistry tbl (Some log).

(* ================================================================== *)
(** ** Vocabulary of the statements: what a run keeps               *)
(* ================================================================== *)

(** [keeps I m]: [m] leaves the state property [I] true, whether it
    returns or not. *)
Definition keeps {A} (I : World -> Prop) (m : M A) : Prop :=
  forall w, I w -> I (final (m w)).

(** The arena has not outgrown its array of [C] tokens. *)
Definition arena_fits (C : Z) (w : World) : Prop :=
  capacity (arena w) = C /\ count (arena w) <= C.

(** [p] is the position at which the white-space scan of [arena_push]
    stops when it starts at [pos]. *)
Definition scan_stops (code : list Z) (total_size pos p : Z) : Prop :=
  pos <= p /\
  (forall q, pos <= q < p -> q < total_size /\ isspace (byte_at code q) = true) /\
  (p < total_size -> isspace (byte_at code p) = false).

(** The five absorption bits of a byte. *)
Definition absorbed_bits (c : Z) : list bool :=
  [c =? 59; c =? 44; c =? 40; c =? 41; c =? 42].

(** The absorption bits of [t] tell the first byte after the token that
    is not white space. *)
Definition tells_next_byte (code : list Z) (total_size : Z) (t : NSET_Token)
    : Prop :=
  exists p,
    scan_stops code total_size ((offset t + length t) mod U32) p /\
    absorption_bits (meta t)
    = (if p <? total_size then absorbed_bits (byte_at code p)
       else [false; false; false; false; false]).

(** Log and arena of a run that started on the log [existing]: the log
    has grown by [new], without a non-zero id twice or one of [existing]
    again, table and log are in step, and the non-zero id of every token
    has its record. *)
Definition vocabulary_ok (existing : list VocabRecord) (w : World) : Prop :=
  exists new,
    registry_agrees (registry w) (existing ++ new) /\
    NoDup (nonzero_ids new) /\
    (forall id, In id (nonzero_ids new) -> ~ In id (map record_id existing)) /\
    (forall t, In t (tokens (arena w)) -> root_id t <> 0 ->
               In (root_id t) (map record_id (existing ++ new))).

(* ================================================================== *)
(** ** Vocabulary of the statements: runs that return               *)
(* ================================================================== *)

(** [returns P Q m]: from a state that satisfies [P], [m] returns, with a
    value and in a state that satisfy [Q]. *)
Definition returns {A} (P : World -> Prop) (Q : A -> World -> Prop) (m : M A)
    : Prop :=
  forall w, P w -> exists a w', m w = Done a w' /\ Q a w'.

(** The array of the arena has [C] places, and the table has more empty
    slots than the arena has places left. *)
Definition has_room (C : Z) (w : World) : Prop :=
  capacity (arena w) = C /\
  exists l, used_within (seen_hashes (registry w)) l /\
            Z.of_nat (List.length l) + (C - count (arena w)) < SEEN_TABLE_SIZE.

(** [has_room], and a last token to mark when the splitter has pushed
    one. *)
Definition splitter_room (C te : Z) (w : World) : Prop :=
  has_room C w /\ (0 < te -> 0 < C -> tokens (arena w) <> []).

(** [triple P m Q]: when [m] starts in a state that satisfies [P] and
    returns, the value and the state satisfy [Q]. *)
Definition triple {A} (P : World -> Prop) (m : M A) (Q : A -> World -> Prop)
    : Prop :=
  forall w a w', P w -> m w = Done a w' -> Q a w'.

(** Every token marked with has_joiner is directly followed by an
    underscore. *)
Definition joiners_ok (code : list Z) (w : World) : Prop :=
  forall t, In t (tokens (arena w)) -> has_joiner (meta t) = true ->
            byte_at code (offset t + length t) = 95.

(** The state of the main loop before the byte [pos], with
    [tokens_emitted = te] inside the splitter and 0 outside: the arena has
    a place for each byte of [pos, hi), the marked tokens are followed by
    an underscore, and the last token, when the splitter has pushed one,
    is marked or ends at [pos]. *)
Definition joiner_state (code : list Z) (hi pos te : Z) (w : World) : Prop :=
  count (arena w) + (hi - pos) <= capacity (arena w) /\
  joiners_ok code w /\
  (0 < te -> exists l t, tokens (arena w) = l ++ [t] /\
                         (has_joiner (meta t) = true \/
                          offset t + length t = pos)).

(* ================================================================== *)
(** ** Vocabulary of the statements: tokens and their text          *)
(* ================================================================== *)

(** An identifier leaf that the splitter cuts: not a locked word. *)
Definition cut_identifier (code : list Z) (lf : Leaf) : bool :=
  match leaf_class_of code lf with
  | IdentifierLeaf => negb (is_word_locked code (start_byte lf) (leaf_len lf))
  | _ => false
  end.

(** What the fields of a token of the leaf [lf] say about its text. *)
Definition describes_its_text (code : list Z) (lf : Leaf) (t : NSET_Token)
    : Prop :=
  root_id t = murmur_hash code (offset t) (length t) /\
  0 < length t /\ inside_leaf lf t /\
  casing (meta t)
  = (if cut_identifier code lf then get_casing code (offset t) (length t) else 0) /\
  type (meta t)
  = match leaf_class_of code lf with
    | IdentifierLeaf => 0
    | BlobLeaf => 1
    | DefaultLeaf => if isdigit (byte_at code (offset t)) then 2 else 0
    end /\
  pre_space (meta t) && pre_break (meta t) = false.

(** The tokens of [l] follow one another in the source without overlap:
    each is non-empty, the first starts at [lo] or later, each next one
    starts where the one before ends or later, and the last ends by
    [hi]. *)
Fixpoint in_order (lo : Z) (l : list NSET_Token) (hi : Z) : Prop :=
  match l with
  | [] => lo <= hi
  | t :: r => lo <= offset t /\ 0 < length t /\
              in_order (offset t + length t) r hi
  end.

(** Every byte of [lo, hi) that lies before, between or after the tokens
    of [l] is a separator. *)
Fixpoint gaps (sep : Z -> bool) (code : list Z) (lo : Z) (l : list NSET_Token)
    (hi : Z) : Prop :=
  match l with
  | [] => forall q, lo <= q < hi -> sep (byte_at code q) = true
  | t :: r => (forall q, lo <= q < offset t -> sep (byte_at code q) = true) /\
              gaps sep code (offset t + length t) r hi
  end.

(** [lays sep code lo hi pos m]: the tokens that [m] appends are in order
    inside [lo, hi); when [m] returns [a] they end by [pos a], and if the
    arena had a place for each byte of [lo, hi), they leave only separators
    uncovered in [lo, pos a). *)
Definition lays {A} (sep : Z -> bool) (code : list Z) (lo hi : Z) (pos : A -> Z)
    (m : M A) : Prop :=
  forall w, exists l,
    emits w (final (m w)) l /\
    capacity (arena (final (m w))) = capacity (arena w) /\
    in_order lo l hi /\
    forall a w', m w = Done a w' ->
      pos a <= hi /\ in_order lo l (pos a) /\
      (count (arena w) + (hi - lo) <= capacity (arena w) ->
       gaps sep code lo l (pos a)).

(** The leaves follow one another in the source, from [lo] on. *)
Fixpoint leaves_in_order (lo : Z) (ls : list Leaf) : Prop :=
  match ls with
  | [] => True
  | lf :: r => lo <= start_byte lf /\ leaves_in_order (end_byte lf) r
  end.

Definition is_underscore (c : Z) : bool := c =? 95.

Definition is_blob_separator (c : Z) : bool := isspace c || ispunct c.

Definition no_pre_space (t : NSET_Token) : Prop := pre_space (meta t) = false.

(** [marks_first te pos m]: with [tokens_emitted = te] before and [pos a]
    after, [m] appends tokens of which only the first can carry
    pre_space, and none when a token was emitted before. *)
Definition marks_first {A} (te : Z) (pos : A -> Z) (m : M A) : Prop :=
  forall w, exists l,
    emits w (final (m w)) l /\ Forall no_pre_space (tl l) /\
    (0 < te -> Forall no_pre_space l) /\
    forall a w', m w = Done a w' -> te <= pos a /\ (pos a = 0 -> l = []).

Definition node_end (n : TSNode) : Z := match n with Node _ _ e _ => e end.

(** A node of a parse tree over [lo, hi): its span lies in [lo, hi) and
    its children lie inside its span, one after the other. *)
Fixpoint tree_in (lo hi : Z) (n : TSNode) : Prop :=
  match n with
  | Node _ s e cs =>
      lo <= s /\ s <= e /\ e <= hi /\
      (fix siblings (lo : Z) (cs : list TSNode) : Prop :=
         match cs with
         | [] => True
         | c :: r => tree_in lo e c /\ siblings (node_end c) r
         end) s cs
  end.

(** The leaves lie one after the other between [lo] and [hi]. *)
Fixpoint leaves_between (lo : Z) (ls : list Leaf) (hi : Z) : Prop :=
  match ls with
  | [] => lo <= hi
  | lf :: r => lo <= start_byte lf <= end_byte lf /\
               leaves_between (end_byte lf) r hi
  end.

(* ================================================================== *)
(** ** Inputs of the concrete runs                                  *)
(* ================================================================== *)

Definition full_table : Z -> Z := fun _ => 1.

Definition empty_registry : Registry := mkRegistry init_registry (Some []).

(** The float test read in exact arithmetic,
    [(count + 0.1) / (total + 1) < 1/32], for the runs below. *)
Definition exact_gt5 (count total : Z) : bool := 320 * count + 22 <? 10 * total.

(** [main] at the entry of its loop when there is no nset_vocab.bin yet. *)
Definition start_world (st_size : Z) : World :=
  mkWorld (mkArena [] st_size) empty_registry (pretrain 20 model_zero).

(** The arena at the end of a run on a fresh registry. *)
Definition run_tokens (float_gt5 : Z -> Z -> bool) (code : list Z)
    (root : TSNode) : list NSET_Token :=
  match tokenize float_gt5 [] code root with
  | Some o => tokens (arena (final o))
  | None => []
  end.

Definition span_of (t : NSET_Token) : Z * Z := (offset t, length t).

(* Underscores: a declaration of [my_var] with the type [size_t]. *)
Definition code_size_t : list Z := bytes_of_string "size_t my_var;".

Definition tree_size_t : TSNode :=
  Node "translation_unit" 0 14
    [Node "declaration" 0 14
       [Node "primitive_type" 0 6 []; Node "identifier" 7 13 [];
        Node ";" 13 14 []]].

Definition leaves_size_t : list Leaf :=
  [mkLeaf 0 6 "primitive_type" 2; mkLeaf 7 13 "identifier" 2; mkLeaf 13 14 ";" 2].

(* Lower-upper pairs: a comment, a locked word in mixed case, and the
   assignment of a hexadecimal literal to an identifier in camel case. *)
Definition code_comment : list Z := bytes_of_string "// fooBar".

Definition tree_comment : TSNode :=
  Node "translation_unit" 0 9 [Node "comment" 0 9 []].

Definition code_double : list Z := bytes_of_string "doUble;".

Definition tree_double : TSNode :=
  Node "translation_unit" 0 7
    [Node "expression_statement" 0 7
       [Node "identifier" 0 6 []; Node ";" 6 7 []]].

Definition code_my_name : list Z := bytes_of_string "myName = 0xFF;".

Definition tree_my_name : TSNode :=
  Node "translation_unit" 0 14
    [Node "expression_statement" 0 14
       [Node "assignment_expression" 0 13
          [Node "identifier" 0 6 []; Node "=" 7 8 [];
           Node "number_literal" 9 13 []];
        Node ";" 13 14 []]].

Definition leaves_my_name : list Leaf :=
  [mkLeaf 0 6 "identifier" 3; mkLeaf 7 8 "=" 3; mkLeaf 9 13 "number_literal" 3;
   mkLeaf 13 14 ";" 2].

(* An identifier that the entropy test cuts. *)
Definition code_contextswitch : list Z := bytes_of_string "contextswitch".

(* Symbol eater: a two-byte operator after an identifier, and two closing
   parentheses in a row. *)
Definition code_star : list Z := bytes_of_string "x *= 2;".

Definition tree_star : TSNode :=
  Node "translation_unit" 0 7
    [Node "expression_statement" 0 7
       [Node "assignment_expression" 0 6
          [Node "identifier" 0 1 []; Node "*=" 2 4 []; Node "number_literal" 5 6 []];
        Node ";" 6 7 []]].

Definition code_calls : list Z := bytes_of_string "f(g(a));".

Definition tree_calls : TSNode :=
  Node "translation_unit" 0 8
    [Node "expression_statement" 0 8
       [Node "call_expression" 0 7
          [Node "identifier" 0 1 [];
           Node "argument_list" 1 7
             [Node "(" 1 2 [];
              Node "call_expression" 2 6
                [Node "identifier" 2 3 [];
                 Node "argument_list" 3 6
                   [Node "(" 3 4 []; Node "identifier" 4 5 []; Node ")" 5 6 []]];
              Node ")" 6 7 []]];
        Node ";" 7 8 []]].

(** After the identifier [x]: its token has [has_star]. *)
Definition world_after_x : World :=
  final (run_leaves exact_gt5 code_star 7 (firstn 1 (leaves_of 0 tree_star))
                    (start_world 7)).

(** After the inner [)]: the last token is still [a], with [has_close]. *)
Definition world_after_a : World :=
  final (run_leaves exact_gt5 code_calls 8 (firstn 6 (leaves_of 0 tree_calls))
                    (start_world 8)).

(* Leaves that follow a newline. *)
Definition code_newline_ident : list Z := 10 :: bytes_of_string "foo_bar".

Definition leaf_newline_ident : Leaf := mkLeaf 1 8 "identifier" 1.

Definition code_newline_blob : list Z :=
  10 :: bytes_of_string "// c" ++ 10 :: bytes_of_string "7".

(* Vocabulary entries given to the segmenter. *)
(** Whether a table entry, given as it is written, is locked. *)
Definition locked_as_written (w : string) : bool :=
  is_word_locked (bytes_of_string w) 0 (Z.of_nat (List.length (bytes_of_string w))).

Definition casing_of (t : NSET_Token) : Z * Z * Z :=
  (offset t, length t, casing (meta t)).

Definition code_NULL : list Z := bytes_of_string "NULL".

Definition code_size_t_word : list Z := bytes_of_string "size_t".

Definition code_BUFFER : list Z := bytes_of_string "BUFFER".

(* Depth: an assignment at depth 7, and a comment with two fragments. *)
Definition code_if : list Z := bytes_of_string "void f(){if(a){x=7;}}".

(** The assignment [x=7] lies seven levels below the root. *)
Definition tree_if : TSNode :=
  Node "translation_unit" 0 21
    [Node "function_definition" 0 21
       [Node "primitive_type" 0 4 [];
        Node "function_declarator" 5 8
          [Node "identifier" 5 6 [];
           Node "parameter_list" 6 8 [Node "(" 6 7 []; Node ")" 7 8 []]];
        Node "compound_statement" 8 21
          [Node "{" 8 9 [];
           Node "if_statement" 9 20
             [Node "if" 9 11 [];
              Node "parenthesized_expression" 11 14
                [Node "(" 11 12 []; Node "identifier" 12 13 []; Node ")" 13 14 []];
              Node "compound_statement" 14 20
                [Node "{" 14 15 [];
                 Node "expression_statement" 15 19
                   [Node "assignment_expression" 15 18
                      [Node "identifier" 15 16 []; Node "=" 16 17 [];
                       Node "number_literal" 17 18 []];
                    Node ";" 18 19 []];
                 Node "}" 19 20 []]];
           Node "}" 20 21 []]]].

Definition code_comment_xy : list Z := bytes_of_string "// x y".

Definition tree_comment_xy : TSNode :=
  Node "translation_unit" 0 6 [Node "comment" 0 6 []].

Definition type_depth_of (t : NSET_Token) : Z * Z * Z * Z :=
  (offset t, length t, type (meta t), depth (meta t)).

(* The scenarios of the specification. *)
Definition code_int_x : list Z := bytes_of_string "int x;".

Definition tree_int_x : TSNode :=
  Node "translation_unit" 0 6
    [Node "declaration" 0 6
       [Node "primitive_type" 0 3 []; Node "identifier" 4 5 []; Node ";" 5 6 []]].

Definition code_my_var_name : list Z := bytes_of_string "my_var_name".

Definition tree_my_var_name : TSNode :=
  Node "translation_unit" 0 11 [Node "identifier" 0 11 []].

Definition code_func_arg : list Z := bytes_of_string "func(arg);".

Definition tree_func_arg : TSNode :=
  Node "translation_unit" 0 10
    [Node "expression_statement" 0 10
       [Node "call_expression" 0 9
          [Node "identifier" 0 4 [];
           Node "argument_list" 4 9
             [Node "(" 4 5 []; Node "identifier" 5 8 []; Node ")" 8 9 []]];
        Node ";" 9 10 []]].

(** Span, has_joiner, has_semi, has_paren, has_close of a token. *)
Definition flags_of (t : NSET_Token) : Z * Z * list bool :=
  (offset t, length t,
   [has_joiner (meta t); has_semi (meta t); has_paren (meta t); has_close (meta t)]).

(* A comment that holds twice a word whose hash is 0. *)
Definition code_zero_hash : list Z := bytes_of_string "// ppkttia ppkttia".

Definition tree_zero_hash : TSNode :=
  Node "translation_unit" 0 18 [Node "comment" 0 18 []].

(** The log at the end of a run on a fresh registry. *)
Definition run_log (float_gt5 : Z -> Z -> bool) (code : list Z) (root : TSNode)
    : option (list VocabRecord) :=
  match tokenize float_gt5 [] code root with
  | Some o => vocab_file (registry (final o))
  | None => None
  end.

(* A file that is read a second time: [x+x] with the record of [+]
   in nset_vocab.bin. *)
Definition code_x_plus_x : list Z := bytes_of_string "x+x".

Definition tree_x_plus_x : TSNode :=
  Node "binary_expression" 0 3
    [Node "identifier" 0 1 []; Node "+" 1 2 []; Node "identifier" 2 3 []].

Definition vocab_plus : list VocabRecord :=
  [(murmur_hash code_x_plus_x 1 1, 1, [43])].

(** The vocabulary file at the end of a run that loaded [existing]. *)
Definition run_log_from (float_gt5 : Z -> Z -> bool)
    (existing : list VocabRecord) (code : list Z) (root : TSNode)
    : option (list VocabRecord) :=
  match tokenize float_gt5 existing code root with
  | Some o => vocab_file (registry (final o))
  | None => None
  end.

(** The ids of the tokens at the end of such a run. *)
Definition run_ids_from (float_gt5 : Z -> Z -> bool)
    (existing : list VocabRecord) (code : list Z) (root : TSNode) : list Z :=
  match tokenize float_gt5 existing code root with
  | Some o => map root_id (tokens (arena (final o)))
  | None => []
  end.

(* A locked word followed by a NUL byte and an underscore. *)
Definition code_do_nul : list Z := bytes_of_string "do" ++ [0; 95; 120].


(* ================================================================== *)
(** ** Registry: the probe loops                                    *)
(* ================================================================== *)

Lemma slot_in_table idx k : in_table (slot idx k).
Proof. unfold in_table, slot. apply Z.mod_pos_bound. reflexivity. Qed.

Lemma home_in_table id : in_table (id mod SEEN_TABLE_SIZE).
Proof. unfold in_table. apply Z.mod_pos_bound. reflexivity. Qed.

Lemma slot_0 idx : in_table idx -> slot idx 0 = idx.
Proof.
  unfold in_table, slot. intros H. rewrite Z.add_0_r. now apply Z.mod_small.
Qed.

Lemma slot_S idx k : slot ((idx + 1) mod SEEN_TABLE_SIZE) k = slot idx (S k).
Proof.
  unfold slot. rewrite Zplus_mod_idemp_l. f_equal. lia.
Qed.

(** Every slot is reached within [SEEN_TABLE_SIZE] probes. *)
Lemma slot_covers idx j :
  in_table idx -> in_table j ->
  exists k, (k < probe_fuel)%nat /\ slot idx k = j.
Proof.
  unfold in_table, probe_fuel, slot. intros Hi Hj.
  exists (Z.to_nat ((j - idx) mod SEEN_TABLE_SIZE)).
  assert (Hb : 0 <= (j - idx) mod SEEN_TABLE_SIZE < SEEN_TABLE_SIZE)
    by (apply Z.mod_pos_bound; reflexivity).
  split; [lia|].
  rewrite Z2Nat.id by lia.
  rewrite Zplus_mod_idemp_r.
  replace (idx + (j - idx)) with j by lia.
  now apply Z.mod_small.
Qed.

(** The fuel of the probe loops is the number of slots. *)
Lemma probe_fuel_size : Z.of_nat probe_fuel = SEEN_TABLE_SIZE.
Proof. unfold probe_fuel. apply Z2Nat.id. unfold SEEN_TABLE_SIZE. lia. Qed.

#[global] Opaque probe_fuel.

Arguments has_seen_id : simpl never.

Arguments free_slot : simpl never.

Section Probe.

Context {R : Type} (exit : Z -> option R).

Lemma probe_none n : forall idx, in_table idx ->
  (probe_loop exit n idx = None <-> forall k, (k < n)%nat -> exit (slot idx k) = None).
Proof.
  induction n as [|n IH]; intros idx Hi; simpl.
  - split; [intros _ k Hk; lia | reflexivity].
  - destruct (exit idx) as [r|] eqn:E.
    + split; [discriminate|]. intros H.
      specialize (H 0%nat ltac:(lia)). rewrite slot_0 in H by assumption.
      congruence.
    + rewrite IH by apply home_in_table. split; intros H k Hk.
      * destruct k as [|k]; [now rewrite slot_0|].
        rewrite <- slot_S. apply H. lia.
      * rewrite slot_S. apply H. lia.
Qed.

Lemma probe_some n : forall idx r, in_table idx ->
  (probe_loop exit n idx = Some r <->
   exists k, (k < n)%nat /\ exit (slot idx k) = Some r /\
             forall k', (k' < k)%nat -> exit (slot idx k') = None).
Proof.
  induction n as [|n IH]; intros idx r Hi; simpl.
  - split; [discriminate | intros (k & Hk & _); lia].
  - destruct (exit idx) as [r0|] eqn:E.
    + split.
      * intros H. exists 0%nat. rewrite slot_0 by assumption.
        repeat split; [lia | congruence | intros; lia].
      * intros (k & Hk & Hr & Hbefore). destruct k as [|k].
        -- rewrite slot_0 in Hr by assumption. congruence.
        -- specialize (Hbefore 0%nat ltac:(lia)).
           rewrite slot_0 in Hbefore by assumption. congruence.
    + rewrite IH by apply home_in_table. split.
      * intros (k & Hk & Hr & Hbefore). exists (S k).
        repeat split; [lia | now rewrite <- slot_S |].
        intros k' Hk'. destruct k' as [|k']; [now rewrite slot_0|].
        rewrite <- slot_S. apply Hbefore. lia.
      * intros (k & Hk & Hr & Hbefore). destruct k as [|k].
        -- rewrite slot_0 in Hr by assumption. congruence.
        -- exists k. repeat split; [lia | now rewrite slot_S |].
           intros k' Hk'. rewrite slot_S. apply Hbefore. lia.
Qed.

(** A loop still running after [SEEN_TABLE_SIZE] probes never leaves. *)
Lemma probe_complete idx :
  in_table idx -> probe_loop exit probe_fuel idx = None ->
  forall fuel, probe_loop exit fuel idx = None.
Proof.
  intros Hi H fuel. apply probe_none; [assumption|]. intros k _.
  destruct (slot_covers idx (slot idx k) Hi (slot_in_table idx k)) as (k0 & Hk0 & E).
  rewrite <- E. revert k0 Hk0 E. intros k0 Hk0 _.
  now apply (proj1 (probe_none probe_fuel idx Hi) H).
Qed.

Lemma probe_terminates idx j :
  in_table idx -> in_table j -> exit j <> None ->
  exists r, probe_loop exit probe_fuel idx = Some r.
Proof.
  intros Hi Hj Hex.
  destruct (probe_loop exit probe_fuel idx) as [r|] eqn:E; [now exists r|].
  exfalso. apply Hex.
  destruct (slot_covers idx j Hi Hj) as (k & Hk & <-).
  now apply (proj1 (probe_none probe_fuel idx Hi) E).
Qed.

Lemma probe_diverges idx :
  in_table idx -> (forall j, in_table j -> exit j = None) ->
  forall fuel, probe_loop exit fuel idx = None.
Proof.
  intros Hi H fuel. apply probe_none; [assumption|].
  intros k _. apply H, slot_in_table.
Qed.

End Probe.

Lemma has_seen_loop_probe tbl id fuel : forall idx,
  has_seen_loop fuel tbl id idx = probe_loop (seen_exit tbl id) fuel idx.
Proof.
  induction fuel as [|f IH]; intros idx; simpl; [reflexivity|].
  unfold seen_exit at 1.
  destruct (tbl idx =? 0); [reflexivity|].
  destruct (tbl idx =? id); [reflexivity | apply IH].
Qed.

Lemma free_slot_loop_probe tbl fuel : forall idx,
  free_slot_loop fuel tbl idx = probe_loop (free_exit tbl) fuel idx.
Proof.
  induction fuel as [|f IH]; intros idx; simpl; [reflexivity|].
  unfold free_exit at 1.
  destruct (tbl idx =? 0); [reflexivity | apply IH].
Qed.

Lemma has_seen_complete tbl id :
  has_seen_id tbl id = None ->
  forall fuel, has_seen_loop fuel tbl id (id mod SEEN_TABLE_SIZE) = None.
Proof.
  unfold has_seen_id. rewrite has_seen_loop_probe. intros H fuel.
  rewrite has_seen_loop_probe.
  now apply probe_complete; [apply home_in_table|].
Qed.

Lemma free_slot_complete tbl id :
  free_slot tbl id = None ->
  forall fuel, free_slot_loop fuel tbl (id mod SEEN_TABLE_SIZE) = None.
Proof.
  unfold free_slot. rewrite free_slot_loop_probe. intros H fuel.
  rewrite free_slot_loop_probe.
  now apply probe_complete; [apply home_in_table|].
Qed.

Lemma has_seen_terminates tbl id :
  has_empty_slot tbl -> exists b, has_seen_id tbl id = Some b.
Proof.
  intros (j & Hj & E). unfold has_seen_id. rewrite has_seen_loop_probe.
  apply (probe_terminates _ _ j); [apply home_in_table | assumption |].
  unfold seen_exit. rewrite E. discriminate.
Qed.

Lemma free_slot_terminates tbl id :
  has_empty_slot tbl ->
  exists idx, free_slot tbl id = Some idx /\ in_table idx /\ tbl idx = 0.
Proof.
  intros (j & Hj & E). unfold free_slot. rewrite free_slot_loop_probe.
  destruct (probe_terminates (free_exit tbl) (id mod SEEN_TABLE_SIZE) j)
    as (idx & Hidx); [apply home_in_table | assumption | |].
  - unfold free_exit. rewrite E. discriminate.
  - exists idx. split; [assumption|].
    apply probe_some in Hidx; [|apply home_in_table].
    destruct Hidx as (k & _ & Hk & _). unfold free_exit in Hk.
    destruct (tbl (slot (id mod SEEN_TABLE_SIZE) k) =? 0) eqn:E0; [|discriminate].
    injection Hk as <-. split; [apply slot_in_table | now apply Z.eqb_eq].
Qed.

Lemma has_seen_diverges tbl id :
  ~ has_empty_slot tbl -> (forall j, in_table j -> tbl j <> id) ->
  forall fuel, has_seen_loop fuel tbl id (id mod SEEN_TABLE_SIZE) = None.
Proof.
  intros Hfull Habsent fuel. rewrite has_seen_loop_probe.
  apply probe_diverges; [apply home_in_table|].
  intros j Hj. unfold seen_exit.
  destruct (tbl j =? 0) eqn:E0.
  - exfalso. apply Hfull. exists j. split; [assumption | now apply Z.eqb_eq].
  - destruct (tbl j =? id) eqn:E1; [|reflexivity].
    exfalso. apply (Habsent j Hj). now apply Z.eqb_eq.
Qed.

Lemma free_slot_diverges tbl :
  ~ has_empty_slot tbl ->
  forall idx fuel, in_table idx -> free_slot_loop fuel tbl idx = None.
Proof.
  intros Hfull idx fuel Hi. rewrite free_slot_loop_probe.
  apply probe_diverges; [assumption|].
  intros j Hj. unfold free_exit.
  destruct (tbl j =? 0) eqn:E0; [|reflexivity].
  exfalso. apply Hfull. exists j. split; [assumption | now apply Z.eqb_eq].
Qed.

(** What the two loops found when they return. *)
Lemma has_seen_id_spec tbl id b :
  has_seen_id tbl id = Some b <->
  exists k, (k < probe_fuel)%nat /\
    seen_exit tbl id (slot (id mod SEEN_TABLE_SIZE) k) = Some b /\
    forall k', (k' < k)%nat ->
      seen_exit tbl id (slot (id mod SEEN_TABLE_SIZE) k') = None.
Proof.
  unfold has_seen_id. rewrite has_seen_loop_probe.
  apply probe_some, home_in_table.
Qed.

Lemma free_slot_spec tbl id idx :
  free_slot tbl id = Some idx <->
  exists k, (k < probe_fuel)%nat /\
    free_exit tbl (slot (id mod SEEN_TABLE_SIZE) k) = Some idx /\
    forall k', (k' < k)%nat ->
      free_exit tbl (slot (id mod SEEN_TABLE_SIZE) k') = None.
Proof.
  unfold free_slot. rewrite free_slot_loop_probe.
  apply probe_some, home_in_table.
Qed.

Lemma seen_exit_none tbl id j :
  seen_exit tbl id j = None <-> tbl j <> 0 /\ tbl j <> id.
Proof.
  unfold seen_exit.
  destruct (Z.eqb_spec (tbl j) 0); [split; [discriminate | tauto]|].
  destruct (Z.eqb_spec (tbl j) id); [split; [discriminate | tauto]|].
  tauto.
Qed.

Lemma seen_exit_false tbl id j : seen_exit tbl id j = Some false <-> tbl j = 0.
Proof.
  unfold seen_exit.
  destruct (Z.eqb_spec (tbl j) 0); [tauto|].
  destruct (Z.eqb_spec (tbl j) id); split; congruence.
Qed.

Lemma seen_exit_true tbl id j :
  seen_exit tbl id j = Some true <-> tbl j <> 0 /\ tbl j = id.
Proof.
  unfold seen_exit.
  destruct (Z.eqb_spec (tbl j) 0); [split; [discriminate | tauto]|].
  destruct (Z.eqb_spec (tbl j) id); [tauto|].
  split; [discriminate | tauto].
Qed.

(** The id 0 is the empty-slot sentinel: no table holds it. *)
Lemma has_seen_zero tbl : has_seen_id tbl 0 <> Some true.
Proof.
  intros H. apply has_seen_id_spec in H. destruct H as (k & _ & H & _).
  apply seen_exit_true in H. lia.
Qed.

(** After a miss the insertion loop stops at the slot where the lookup
    stopped. *)
Lemma free_slot_after_miss tbl id :
  has_seen_id tbl id = Some false ->
  exists idx, free_slot tbl id = Some idx /\ in_table idx /\ tbl idx = 0 /\
    (id <> 0 -> has_seen_id (set_slot tbl idx id) id = Some true).
Proof.
  intros H. apply has_seen_id_spec in H. destruct H as (k & Hk & Hz & Hbefore).
  apply seen_exit_false in Hz.
  set (home := id mod SEEN_TABLE_SIZE) in *.
  exists (slot home k). split; [|split; [apply slot_in_table | split; [assumption|]]].
  - apply free_slot_spec. exists k. fold home. split; [assumption|]. split.
    + unfold free_exit. now rewrite Hz.
    + intros k' Hk'. specialize (Hbefore k' Hk'). apply seen_exit_none in Hbefore.
      unfold free_exit. destruct (Z.eqb_spec (tbl (slot home k')) 0); [lia | reflexivity].
  - intros Hid. apply has_seen_id_spec. exists k. fold home. split; [assumption|]. split.
    + apply seen_exit_true. unfold set_slot. rewrite Z.eqb_refl. tauto.
    + intros k' Hk'. specialize (Hbefore k' Hk'). apply seen_exit_none in Hbefore.
      apply seen_exit_none. unfold set_slot.
      destruct (Z.eqb_spec (slot home k') (slot home k)) as [E|]; [|assumption].
      rewrite E in Hbefore. lia.
Qed.

(** Filling an empty slot does not hide an id that is already found. *)
Lemma has_seen_persists tbl id idx v :
  has_seen_id tbl id = Some true -> tbl idx = 0 ->
  has_seen_id (set_slot tbl idx v) id = Some true.
Proof.
  intros H Hz. apply has_seen_id_spec in H. destruct H as (k & Hk & Ht & Hbefore).
  apply seen_exit_true in Ht.
  apply has_seen_id_spec. exists k. split; [assumption|].
  set (home := id mod SEEN_TABLE_SIZE) in *. split.
  - apply seen_exit_true. unfold set_slot.
    destruct (Z.eqb_spec (slot home k) idx) as [E|]; [|assumption].
    rewrite E in Ht. lia.
  - intros k' Hk'. specialize (Hbefore k' Hk'). apply seen_exit_none in Hbefore.
    apply seen_exit_none. unfold set_slot.
    destruct (Z.eqb_spec (slot home k') idx) as [E|]; [|assumption].
    rewrite E in Hbefore. lia.
Qed.

Lemma clamp_len_min len : 0 <= len -> clamp_len len = Z.min len 255.
Proof.
  intros H. unfold clamp_len. destruct (Z.gtb_spec len 255); [lia|].
  rewrite Z.mod_small; lia.
Qed.

(** [register_token] on a non-zero id, log open, table not full: a no-op
    on an id that [has_seen_id] finds, otherwise the id is stored and one
    record is appended. *)
Lemma register_token_nonzero (r : Registry) (log : list VocabRecord)
    (id : Z) (text : list Z) (off len : Z) :
  vocab_file r = Some log -> has_empty_slot (seen_hashes r) ->
  id <> 0 -> 0 <= len ->
  (has_seen_id (seen_hashes r) id = Some true /\
   register_token id text off len r = Some r) \/
  (has_seen_id (seen_hashes r) id = Some false /\
   exists r', register_token id text off len r = Some r' /\
     has_seen_id (seen_hashes r') id = Some true /\
     vocab_file r' =
       Some (log ++ [(id, Z.min len 255, span text off (Z.min len 255))]) /\
     forall id', has_seen_id (seen_hashes r) id' = Some true ->
                 has_seen_id (seen_hashes r') id' = Some true).
Proof.
  intros Hlog Hslot Hid Hlen. unfold register_token.
  destruct (has_seen_terminates _ id Hslot) as ([|] & Hb); rewrite Hb.
  - left. split; reflexivity.
  - right. split; [reflexivity|].
    destruct (free_slot_after_miss _ _ Hb) as (idx & Hfree & _ & Hz & Hin).
    rewrite Hfree, Hlog. eexists. split; [reflexivity|]. simpl.
    split; [now apply Hin|]. split; [now rewrite clamp_len_min|].
    intros id' H'. now apply has_seen_persists.
Qed.

Lemma register_token_step r log id text off len r' :
  vocab_file r = Some log -> register_token id text off len r = Some r' ->
  (r' = r /\ has_seen_id (seen_hashes r) id = Some true) \/
  (has_seen_id (seen_hashes r) id = Some false /\
   vocab_file r' = Some (log ++ [(id, clamp_len len, span text off (clamp_len len))]) /\
   (id <> 0 -> has_seen_id (seen_hashes r') id = Some true) /\
   forall id', has_seen_id (seen_hashes r) id' = Some true ->
               has_seen_id (seen_hashes r') id' = Some true).
Proof.
  intros Hlog. unfold register_token.
  destruct (has_seen_id (seen_hashes r) id) as [[|]|] eqn:Hb; [| |discriminate].
  - intros [= <-]. left. split; reflexivity.
  - destruct (free_slot_after_miss _ _ Hb) as (idx & Hfree & _ & Hz & Hin).
    rewrite Hfree, Hlog. intros [= <-]. right. simpl.
    repeat split; [assumption|]. intros id' H'. now apply has_seen_persists.
Qed.

Lemma nonzero_ids_cons id l rest :
  nonzero_ids ((id, l, rest) :: nil) = (if id =? 0 then [] else [id]).
Proof. unfold nonzero_ids. simpl. unfold record_id. simpl. now destruct (id =? 0). Qed.

Lemma nonzero_ids_app a b : nonzero_ids (a ++ b) = nonzero_ids a ++ nonzero_ids b.
Proof. unfold nonzero_ids. now rewrite map_app, filter_app. Qed.

(** Within one run no non-zero id is appended twice, and none that the
    table already held. *)
Lemma register_all_no_duplicates calls : forall r log,
  vocab_file r = Some log ->
  exists new, vocab_file (register_all calls r) = Some (log ++ new) /\
    NoDup (nonzero_ids new) /\
    (forall id, In id (nonzero_ids new) ->
       has_seen_id (seen_hashes r) id <> Some true /\
       has_seen_id (seen_hashes (register_all calls r)) id = Some true) /\
    (forall id, has_seen_id (seen_hashes r) id = Some true ->
       has_seen_id (seen_hashes (register_all calls r)) id = Some true).
Proof.
  assert (Hstop : forall r log, vocab_file r = Some log ->
    exists new, vocab_file r = Some (log ++ new) /\ NoDup (nonzero_ids new) /\
      (forall id, In id (nonzero_ids new) ->
         has_seen_id (seen_hashes r) id <> Some true /\
         has_seen_id (seen_hashes r) id = Some true) /\
      (forall id, has_seen_id (seen_hashes r) id = Some true ->
         has_seen_id (seen_hashes r) id = Some true)).
  { intros r log Hlog. exists []. rewrite app_nil_r.
    split; [assumption|]. split; [constructor|].
    split; [intros id []| auto]. }
  induction calls as [|[[[id text] off] len] rest IH]; intros r log Hlog; simpl.
  - now apply Hstop.
  - destruct (register_token id text off len r) as [r'|] eqn:Hreg;
      [|now apply Hstop].
    destruct (register_token_step _ _ _ _ _ _ _ Hlog Hreg)
      as [[-> Hseen] | (Hmiss & Hlog' & Hnow & Hkeep)].
    + apply IH, Hlog.
    + destruct (IH r' _ Hlog') as (new & Hnew & Hnd & Hfresh & Hkeep').
      exists ([(id, clamp_len len, span text off (clamp_len len))] ++ new).
      rewrite Hnew, <- app_assoc. split; [reflexivity|].
      rewrite nonzero_ids_app, nonzero_ids_cons.
      assert (Hold : forall id', In id' (nonzero_ids new) ->
                has_seen_id (seen_hashes r) id' <> Some true /\
                has_seen_id (seen_hashes (register_all rest r')) id' = Some true).
      { intros id' Hin. destruct (Hfresh id' Hin) as [Hf Ht].
        split; [|exact Ht]. intros H. apply Hf. apply Hkeep. exact H. }
      assert (Hall : forall id', has_seen_id (seen_hashes r) id' = Some true ->
                has_seen_id (seen_hashes (register_all rest r')) id' = Some true).
      { intros id' H. apply Hkeep'. apply Hkeep. exact H. }
      destruct (Z.eqb_spec id 0) as [E0|N0].
      * rewrite app_nil_l. split; [exact Hnd|]. split; [exact Hold | exact Hall].
      * change ([id] ++ nonzero_ids new) with (id :: nonzero_ids new).
        split; [|split].
        -- constructor; [|exact Hnd]. intros Hin.
           destruct (Hfresh id Hin) as [Hf _]. apply Hf. apply Hnow. exact N0.
        -- intros id' [<- | Hin]; [|exact (Hold id' Hin)].
           split; [rewrite Hmiss; discriminate|].
           apply Hkeep'. apply Hnow. exact N0.
        -- exact Hall.
Qed.

Lemma register_token_returns id text off len r :
  has_empty_slot (seen_hashes r) ->
  exists r', register_token id text off len r = Some r'.
Proof.
  intros Hslot. unfold register_token.
  destruct (has_seen_terminates _ id Hslot) as ([|] & ->); [eauto|].
  destruct (free_slot_terminates _ id Hslot) as (idx & -> & _).
  destruct (vocab_file r); eauto.
Qed.

(* ================================================================== *)
(** ** Registry: termination of the probe loops and the id 0        *)
(* ================================================================== *)

(** C10.  With an empty slot in the table, the lookup loop of
    [has_seen_id] and the insertion loop of [register_token] leave for
    every id, and so [register_token] returns.  Nothing in the code counts
    probes: on a table without an empty slot the insertion loop never
    leaves, whatever the id, and the lookup never leaves for an id the
    table does not hold, the id 0 among them. *)
Theorem probe_loops_need_empty_slot (tbl : Z -> Z) :
  (has_empty_slot tbl ->
     forall id,
       (exists b, has_seen_id tbl id = Some b) /\
       (exists idx, free_slot tbl id = Some idx /\ in_table idx /\ tbl idx = 0) /\
       (forall log text off len,
          exists r', register_token id text off len (mkRegistry tbl log) = Some r')) /\
  (~ has_empty_slot tbl ->
     (forall id fuel, free_slot_loop fuel tbl (id mod SEEN_TABLE_SIZE) = None) /\
     (forall id, (forall j, in_table j -> tbl j <> id) ->
        (forall fuel, has_seen_loop fuel tbl id (id mod SEEN_TABLE_SIZE) = None) /\
        (forall log text off len,
           register_token id text off len (mkRegistry tbl log) = None)) /\
     (forall fuel, has_seen_loop fuel tbl 0 (0 mod SEEN_TABLE_SIZE) = None)).
Proof.
  split.
  - intros Hslot id.
    pose proof (has_seen_terminates tbl id Hslot) as Hseen.
    pose proof (free_slot_terminates tbl id Hslot) as Hfree.
    split; [assumption|]. split; [assumption|].
    intros log text off len. now apply register_token_returns.
  - intros Hfull.
    assert (Habs : forall id, (forall j, in_table j -> tbl j <> id) ->
              forall fuel, has_seen_loop fuel tbl id (id mod SEEN_TABLE_SIZE) = None)
      by (intros id Hid fuel; now apply has_seen_diverges).
    split; [|split].
    + intros id fuel. apply free_slot_diverges; [assumption | apply home_in_table].
    + intros id Hid. split; [now apply Habs|].
      intros log text off len. unfold register_token, has_seen_id. simpl.
      now rewrite Habs.
    + apply Habs. intros j Hj E. apply Hfull. now exists j.
Qed.

(** The table after calloc, and a table whose slots all hold 1: there the
    insertion loop never leaves, and the lookup of 7, which the table does
    not hold, never leaves either. *)
Lemma probe_loops_need_empty_slot_witness :
  (has_empty_slot init_registry /\
   exists b, has_seen_id init_registry 7 = Some b) /\
  (~ has_empty_slot full_table /\
   free_slot_loop 1000 full_table (7 mod SEEN_TABLE_SIZE) = None) /\
  ((forall j, in_table j -> full_table j <> 7) /\
   has_seen_loop 1000 full_table 7 (7 mod SEEN_TABLE_SIZE) = None).
Proof.
  assert (Hfull : ~ has_empty_slot full_table)
    by (intros (j & _ & E); unfold full_table in E; discriminate).
  assert (Habs : forall j, in_table j -> full_table j <> 7)
    by (intros j _; unfold full_table; discriminate).
  split; [|split].
  - assert (H : has_empty_slot init_registry)
      by (exists 0; split; [unfold in_table, SEEN_TABLE_SIZE; lia | reflexivity]).
    split; [exact H|].
    exact (proj1 (proj1 (probe_loops_need_empty_slot init_registry) H 7)).
  - split; [exact Hfull|].
    exact (proj1 (proj2 (probe_loops_need_empty_slot full_table) Hfull) 7 1000%nat).
  - split; [exact Habs|].
    exact (proj1 (proj1 (proj2 (proj2 (probe_loops_need_empty_slot full_table)
                                      Hfull)) 7 Habs) 1000%nat).
Defined.

(** A table without an empty slot does not keep every lookup from
    returning: in the table whose slots all hold 1 the lookup of 1 leaves
    at its first probe with [true], and [register_token] on 1 returns
    without entering the insertion loop. *)
Lemma stored_id_is_found_in_full_table :
  ~ has_empty_slot full_table /\
  has_seen_id full_table 1 = Some true /\
  register_token 1 (bytes_of_string "ab") 0 2 (mkRegistry full_table (Some []))
  = Some (mkRegistry full_table (Some [])).
Proof.
  split; [intros (j & _ & E); unfold full_table in E; discriminate|].
  split; vm_compute; reflexivity.
Qed.

(** C4.  Registering the id 0 is never a no-op and never stores the id:
    0 is the empty-slot value, so [has_seen_id] answers false before and
    after, the table is left as it was, and every call appends one more
    record with id 0. *)
Theorem register_token_zero_id_appends_again (r : Registry)
    (log : list VocabRecord) (text : list Z) (off len : Z) :
  vocab_file r = Some log -> has_empty_slot (seen_hashes r) ->
  exists r',
    register_token 0 text off len r = Some r' /\
    vocab_file r' = Some (log ++ [(0, clamp_len len, span text off (clamp_len len))]) /\
    (forall j, seen_hashes r' j = seen_hashes r j) /\
    has_seen_id (seen_hashes r') 0 = Some false.
Proof.
  intros Hlog Hslot.
  destruct (has_seen_terminates _ 0 Hslot) as (b & Hb).
  destruct b; [now apply has_seen_zero in Hb|].
  destruct (free_slot_after_miss _ _ Hb) as (idx & Hfree & _ & Hz & _).
  unfold register_token. rewrite Hb, Hfree, Hlog.
  eexists. split; [reflexivity|]. simpl. split; [reflexivity|].
  assert (Hsame : forall j, set_slot (seen_hashes r) idx 0 j = seen_hashes r j).
  { intros j. unfold set_slot. destruct (Z.eqb_spec j idx); congruence. }
  split; [assumption|].
  apply has_seen_id_spec in Hb. destruct Hb as (k & Hk & Hzero & Hbefore).
  apply has_seen_id_spec. exists k. split; [assumption|].
  unfold seen_exit in *. split.
  - now rewrite Hsame.
  - intros k' Hk'. rewrite Hsame. now apply Hbefore.
Qed.

(** Two calls with id 0 on the empty registry: two records. *)
Lemma register_token_zero_id_witness :
  exists r1 r2,
    register_token 0 (bytes_of_string "ab") 0 2 empty_registry = Some r1 /\
    register_token 0 (bytes_of_string "ab") 0 2 r1 = Some r2 /\
    vocab_file r2 = Some [(0, 2, [97; 98]); (0, 2, [97; 98])].
Proof.
  assert (H0 : has_empty_slot init_registry)
    by (exists 0; split; [unfold in_table, SEEN_TABLE_SIZE; lia | reflexivity]).
  destruct (register_token_zero_id_appends_again empty_registry []
              (bytes_of_string "ab") 0 2 eq_refl H0)
    as (r1 & Hr1 & Hlog1 & Htbl1 & _).
  assert (H1 : has_empty_slot (seen_hashes r1))
    by (exists 0; split; [unfold in_table, SEEN_TABLE_SIZE; lia | now rewrite Htbl1]).
  destruct (register_token_zero_id_appends_again r1 _
              (bytes_of_string "ab") 0 2 Hlog1 H1)
    as (r2 & Hr2 & Hlog2 & _).
  exists r1, r2. split; [assumption|]. split; [assumption|].
  exact Hlog2.
Defined.

(** The hash of [ppkttia] is 0: a run over a comment that holds the word
    twice appends two records with id 0. *)
Example run_appends_id_0_twice :
  murmur_hash (bytes_of_string "ppkttia") 0 7 = 0 /\
  forall float_gt5 : Z -> Z -> bool,
    run_log float_gt5 code_zero_hash tree_zero_hash
    = Some [(0, 7, bytes_of_string "ppkttia"); (0, 7, bytes_of_string "ppkttia")].
Proof. split; [|intros float_gt5]; vm_compute; reflexivity. Qed.

(* ================================================================== *)
(** ** What a piece of the program appends to the arena             *)
(* ================================================================== *)

Lemma emits_refl w : emits w w [].
Proof. unfold emits. now rewrite app_nil_r. Qed.

Lemma emits_trans w1 w2 w3 l1 l2 :
  emits w1 w2 l1 -> emits w2 w3 l2 -> emits w1 w3 (l1 ++ l2).
Proof. unfold emits. intros H1 H2. now rewrite H2, H1, app_assoc. Qed.

Lemma emits_appended w w' l :
  emits w w' l -> map erase (appended w w') = l.
Proof.
  unfold emits, appended. intros H.
  rewrite <- skipn_map, H.
  rewrite <- (length_map erase (tokens (arena w))).
  rewrite skipn_app, skipn_all, Nat.sub_diag. reflexivity.
Qed.

Lemma emits_kept w w' l :
  emits w w' l -> map erase (kept w w') = map erase (tokens (arena w)).
Proof.
  unfold emits, kept. intros H.
  rewrite <- firstn_map, H.
  rewrite <- (length_map erase (tokens (arena w))).
  rewrite firstn_app, firstn_all, Nat.sub_diag, firstn_O. apply app_nil_r.
Qed.

(** The arena of [w'] is what it kept followed by what was appended. *)
Lemma kept_appended w w' : tokens (arena w') = kept w w' ++ appended w w'.
Proof. unfold kept, appended. now rewrite firstn_skipn. Qed.

Lemma emits_Forall (P : NSET_Token -> Prop) w w' l :
  emits w w' l -> Forall P l -> Forall (fun t => P (erase t)) (appended w w').
Proof.
  intros H HP. apply emits_appended in H. rewrite <- H in HP.
  apply (proj1 (Forall_map erase P (appended w w'))). exact HP.
Qed.

(** The fuel of the whitespace scan is enough: more of it changes
    nothing. *)
Lemma skip_space_fuel code total_size fuel : forall next_pos,
  (Z.to_nat (total_size - next_pos) <= fuel)%nat ->
  skip_space fuel code total_size next_pos
  = skip_space (Z.to_nat (total_size - next_pos)) code total_size next_pos.
Proof.
  induction fuel as [|f IH]; intros p H.
  - replace (Z.to_nat (total_size - p)) with 0%nat by lia. reflexivity.
  - cbn [skip_space].
    destruct (Z.ltb_spec p total_size) as [Hlt|Hge]; cbn [andb].
    + replace (Z.to_nat (total_size - p))
        with (S (Z.to_nat (total_size - (p + 1)))) by lia.
      cbn [skip_space].
      destruct (Z.ltb_spec p total_size); [|lia]. cbn [andb].
      destruct (isspace (byte_at code p)); [apply IH; lia | reflexivity].
    + replace (Z.to_nat (total_size - p)) with 0%nat by lia. reflexivity.
Qed.

Lemma erase_absorb c t : erase (absorb c t) = erase t.
Proof.
  unfold absorb.
  repeat match goal with |- context [if ?b then _ else _] => destruct b end;
    reflexivity.
Qed.

Lemma map_erase_update_last l :
  map erase (update_last (set_meta with_has_joiner) l) = map erase l.
Proof.
  induction l as [|x [|y r] IH]; [reflexivity | reflexivity |].
  change (update_last (set_meta with_has_joiner) (x :: y :: r))
    with (x :: update_last (set_meta with_has_joiner) (y :: r)).
  rewrite !(map_cons erase x). now rewrite IH.
Qed.

Lemma pushes_ret {A} P (R : A -> Prop) a : R a -> pushes P R (ret a).
Proof.
  intros H w. exists []. split; [apply emits_refl|]. split; [constructor|].
  unfold ret. intros a' w' [= <- _]. exact H.
Qed.

Lemma pushes_bind {A B} P (R1 : A -> Prop) (R2 : B -> Prop) (m : M A) (k : A -> M B) :
  pushes P R1 m -> (forall a, R1 a -> pushes P R2 (k a)) ->
  pushes P R2 (bind m k).
Proof.
  intros Hm Hk w. destruct (Hm w) as (l1 & He1 & HP1 & HR1).
  unfold bind. destruct (m w) as [a w1|w1] eqn:E.
  - destruct (Hk a (HR1 a w1 eq_refl) w1) as (l2 & He2 & HP2 & HR2).
    exists (l1 ++ l2). split; [exact (emits_trans _ _ _ _ _ He1 He2)|].
    split; [now apply Forall_app | exact HR2].
  - exists l1. split; [exact He1|]. split; [exact HP1 | discriminate].
Qed.

Lemma pushes_weaken {A} (P P' : NSET_Token -> Prop) (R R' : A -> Prop) m :
  (forall t, P t -> P' t) -> (forall a, R a -> R' a) ->
  pushes P R m -> pushes P' R' m.
Proof.
  intros HP HR H w. destruct (H w) as (l & He & Hl & Hr).
  exists l. split; [exact He|].
  split; [|intros a w' E; apply HR; exact (Hr a w' E)].
  revert Hl. apply Forall_impl, HP.
Qed.

Lemma pushes_arena_push P t code total_size :
  P (erase t) -> pushes P (fun _ => True) (arena_push t code total_size).
Proof.
  intros HP w. unfold arena_push.
  destruct (count (arena w) >=? capacity (arena w)).
  - exists []. split; [apply emits_refl|]. split; [constructor | trivial].
  - destruct (register_token _ _ _ _ _) as [r|].
    + exists [erase t]. split; [|split; [now constructor | trivial]].
      unfold emits, final, arena, tokens. rewrite map_app. f_equal. simpl.
      f_equal. destruct (_ <? _); [apply erase_absorb | reflexivity].
    + exists []. split; [apply emits_refl|]. split; [constructor | trivial].
Qed.

Lemma pushes_mark_joiner P : pushes P (fun _ => True) mark_joiner.
Proof.
  intros w. exists []. split; [|split; [constructor | trivial]].
  unfold emits, mark_joiner.
  destruct (tokens (arena w)) as [|t r] eqn:E.
  - simpl. rewrite E. reflexivity.
  - unfold final, arena, tokens.
    rewrite map_erase_update_last. now rewrite app_nil_r.
Qed.

Lemma pushes_train P text off len : pushes P (fun _ => True) (train text off len).
Proof.
  intros w. exists []. split; [|split; [constructor | trivial]].
  unfold emits, train, final, arena, tokens. now rewrite app_nil_r.
Qed.

Lemma pushes_get_model P : pushes P (fun _ => True) get_model.
Proof.
  intros w. exists []. split; [apply emits_refl|]. split; [constructor | trivial].
Qed.

(** What [pushes] says about the arena after a run from [w]. *)
Lemma pushes_appended {A} (P : NSET_Token -> Prop) (R : A -> Prop) (m : M A) w :
  pushes P R m ->
  Forall (fun t => P (erase t)) (appended w (final (m w))) /\
  map erase (kept w (final (m w))) = map erase (tokens (arena w)).
Proof.
  intros H. destruct (H w) as (l & He & HP & _). split.
  - exact (emits_Forall P _ _ _ He HP).
  - exact (emits_kept _ _ _ He).
Qed.

(** Reduce a property of all appended tokens to one token [t] that
    satisfies, once erased, the predicate of the [pushes] fact [H]. *)
Ltac appended_token H t Ht :=
  match goal with
  | |- Forall _ (appended ?w (final (?m ?w))) =>
      generalize (proj1 (pushes_appended _ _ m w H));
      apply Forall_impl; intros t Ht
  end.

(* ================================================================== *)
(** ** The tokens of each path                                      *)
(* ================================================================== *)

Section Emission.

Variable float_gt5 : Z -> Z -> bool.

Lemma scanned_empty src off len i : 0 <= i -> scanned src off len i i.
Proof. intros H. split; [lia | intros j Hj; lia]. Qed.

Lemma scanned_step src off len start i :
  scanned src off len start i ->
  byte_at src (off + i) <> 95 ->
  (i + 1 < len -> camel_at src (off + i) = false) ->
  scanned src off len start (i + 1).
Proof.
  intros [Hb Hs] H1 H2. split; [lia|]. intros j Hj.
  destruct (Z.eq_dec j i) as [->|]; [now split | apply Hs; lia].
Qed.

Lemma soft_split_camel m src off len start i :
  soft_split float_gt5 m src off len start i = CamelSplit ->
  camel_at src (off + i) = true.
Proof.
  unfold soft_split, camel_at.
  destruct (islower _ && isupper _); [reflexivity|].
  destruct (surprise_exceeds _ _ _ _); [|discriminate].
  destruct (is_word_locked _ _ _); [discriminate|].
  destruct (_ && _); discriminate.
Qed.

Lemma soft_split_none m src off len start i :
  soft_split float_gt5 m src off len start i = NoSplit ->
  camel_at src (off + i) = false.
Proof.
  unfold soft_split, camel_at.
  destruct (islower _ && isupper _); [discriminate | reflexivity].
Qed.

(** The guard of an entropy-driven split. *)
Lemma soft_split_entropy m src off len start i :
  soft_split float_gt5 m src off len start i = EntropySplit ->
  camel_at src (off + i) = false /\
  surprise_exceeds float_gt5 m (byte_at src (off + i)) (byte_at src (off + i + 1)) = true /\
  (is_word_locked src (off + start) (i + 1 - start) = true \/
   (4 <= i + 1 - start /\ 3 <= len - (i + 1))).
Proof.
  unfold soft_split, camel_at.
  destruct (islower _ && isupper _); [discriminate|].
  destruct (surprise_exceeds _ _ _ _); [|discriminate].
  destruct (is_word_locked _ _ _); [now auto|].
  destruct (Z.geb_spec (i + 1 - start) 4); simpl; [|discriminate].
  destruct (Z.geb_spec (len - (i + 1)) 3); simpl; [|discriminate].
  intros _. split; [reflexivity|]. split; [reflexivity|]. right. lia.
Qed.

Lemma erase_fragment_token src off start stop d sp te :
  erase (fragment_token src off start stop d sp te)
  = fragment_token src off start stop d sp te.
Proof. reflexivity. Qed.

Lemma split_loop_pushes src off len d sp file_size n :
  forall i start te,
    i + Z.of_nat n = Z.max 0 len ->
    scanned src off len start i ->
    pushes (fragment_ok src off len d sp)
           (fun r => scanned src off len (fst r) (Z.max 0 len))
           (split_loop float_gt5 n src off len d sp file_size i start te).
Proof.
  induction n as [|n IH]; intros i start te Hn Hsc.
  - apply pushes_ret. simpl. replace (Z.max 0 len) with i by lia. exact Hsc.
  - assert (Hi : 0 <= i < len) by (destruct Hsc; lia).
    assert (Hn' : i + 1 + Z.of_nat n = Z.max 0 len) by lia.
    cbn [split_loop].
    destruct (Z.eqb_spec (byte_at src (off + i)) 95) as [Hu|Hu].
    + (* underscore *)
      apply pushes_bind with (R1 := fun _ => True).
      * destruct (Z.gtb_spec i start) as [Hgt|Hle]; [|now apply pushes_ret].
        apply pushes_bind with (R1 := fun _ => True); [|intros; now apply pushes_ret].
        apply pushes_arena_push. rewrite erase_fragment_token.
        exists start, i, te. destruct Hsc as [Hb Hs].
        split; [lia|]. split; [lia|]. split; [reflexivity|].
        split; [intros j Hj; now apply Hs|].
        split; [intros j Hj1 Hj2; apply Hs; lia|]. right. left. exact Hu.
      * intros te' _. apply pushes_bind with (R1 := fun _ => True).
        -- destruct (te' >? 0); [apply pushes_mark_joiner | now apply pushes_ret].
        -- intros _ _. apply IH; [exact Hn' | apply scanned_empty; lia].
    + destruct (Z.ltb_spec i (len - 1)) as [Hlt|Hge].
      * apply pushes_bind with (R1 := fun _ => True); [apply pushes_get_model|].
        intros m _.
        assert (Hpush :
          (camel_at src (off + i) = true \/
           is_word_locked src (off + start) (i + 1 - start) = true \/
           (4 <= i + 1 - start /\ 3 <= len - (i + 1))) ->
          pushes (fragment_ok src off len d sp)
            (fun r => scanned src off len (fst r) (Z.max 0 len))
            (arena_push (fragment_token src off start (i + 1) d sp te) src file_size ;;
             split_loop float_gt5 n src off len d sp file_size (i + 1) (i + 1) (te + 1))).
        { intros Hwhy. apply pushes_bind with (R1 := fun _ => True).
          - apply pushes_arena_push. rewrite erase_fragment_token.
            exists start, (i + 1), te. destruct Hsc as [Hb Hs].
            split; [lia|]. split; [lia|]. split; [reflexivity|].
            split; [|split].
            + intros j Hj. destruct (Z.eq_dec j i) as [->|]; [exact Hu | apply Hs; lia].
            + intros j Hj1 Hj2. apply Hs; lia.
            + replace (i + 1 - 1) with i by lia. right. right. tauto.
          - intros _ _. apply IH; [exact Hn' | apply scanned_empty; lia]. }
        destruct (soft_split float_gt5 m src off len start i) eqn:Es.
        -- apply IH; [exact Hn'|]. apply scanned_step; [exact Hsc | exact Hu|].
           intros _. exact (soft_split_none _ _ _ _ _ _ Es).
        -- apply Hpush. left.
           exact (soft_split_camel _ _ _ _ _ _ Es).
        -- apply Hpush. right.
           exact (proj2 (proj2 (soft_split_entropy _ _ _ _ _ _ Es))).
      * apply IH; [exact Hn'|]. apply scanned_step; [exact Hsc | exact Hu | lia].
Qed.

Lemma process_identifier_pushes src off len d sp file_size :
  pushes (identifier_token_ok src off len d sp) (fun _ => True)
         (process_identifier float_gt5 src off len d sp file_size).
Proof.
  unfold process_identifier, identifier_token_ok.
  destruct (is_word_locked src off len) eqn:El.
  - apply pushes_bind with (R1 := fun _ => True); [|intros; apply pushes_train].
    apply pushes_arena_push. left. split; reflexivity.
  - apply pushes_weaken with (P := fragment_ok src off len d sp) (R := fun _ => True);
      [intros t Ht; right; now split | trivial |].
    apply pushes_bind with (R1 := fun _ => True); [apply pushes_train|].
    intros _ _.
    apply pushes_bind
      with (R1 := fun r => scanned src off len (fst r) (Z.max 0 len)).
    + apply split_loop_pushes; [|apply scanned_empty]; lia.
    + intros [start te] [Hb Hs]. simpl in Hb, Hs.
      destruct (Z.ltb_spec start len) as [Hlt|Hge]; [|now apply pushes_ret].
      apply pushes_arena_push. rewrite erase_fragment_token.
      exists start, len, te.
      split; [lia|]. split; [lia|]. split; [reflexivity|].
      split; [intros j Hj; apply Hs; lia|].
      split; [intros j Hj1 Hj2; apply Hs; lia|]. now left.
Qed.

Lemma blob_loop_pushes code st_size start len d n :
  forall i sub_start,
    i + Z.of_nat n = Z.max 0 len ->
    blob_open code start sub_start i ->
    pushes (blob_fragment_ok code start len d)
           (fun r => blob_open code start r (Z.max 0 len))
           (blob_loop n code st_size start d i sub_start).
Proof.
  induction n as [|n IH]; intros i sub_start Hn Hop.
  - apply pushes_ret. replace (Z.max 0 len) with i by lia. exact Hop.
  - assert (Hi : 0 <= i < len) by (destruct Hop; lia).
    assert (Hn' : i + 1 + Z.of_nat n = Z.max 0 len) by lia.
    cbn [blob_loop]. fold (blob_sep code start i).
    destruct (blob_sep code start i) eqn:Es.
    + apply pushes_bind with (R1 := fun _ => True).
      * destruct (Z.gtb_spec i sub_start) as [Hgt|Hle]; [|now apply pushes_ret].
        apply pushes_arena_push. change (erase ?t) with t.
        exists sub_start, i. destruct Hop as [Hb Hs].
        split; [lia|]. split; [lia|]. split; [now left | exact Hs].
      * intros _ _. apply IH; [exact Hn'|]. split; [lia | intros j Hj; lia].
    + apply IH; [exact Hn'|]. destruct Hop as [Hb Hs]. split; [lia|].
      intros j Hj. destruct (Z.eq_dec j i) as [->|]; [exact Es | apply Hs; lia].
Qed.

Lemma process_leaf_pushes code st_size lf :
  pushes (leaf_token_ok code lf) (fun _ => True)
         (process_leaf float_gt5 code st_size lf).
Proof.
  unfold process_leaf, leaf_token_ok, leaf_class_of.
  fold (leaf_len lf). fold (leaf_pre_space code lf). fold (leaf_pre_break code lf).
  destruct (leaf_len lf >? 0); [|now apply pushes_ret].
  intros w. destruct (eaten code (start_byte lf) (arena w)).
  { exists []. split; [apply emits_refl|]. split; [constructor | trivial]. }
  destruct (classify code (node_type lf) (start_byte lf) (leaf_len lf));
    refine ((_ : pushes _ (fun _ : unit => True) _) w).
  - apply process_identifier_pushes.
  - apply pushes_bind
      with (R1 := fun r => blob_open code (start_byte lf) r (Z.max 0 (leaf_len lf))).
    + apply blob_loop_pushes; [lia|]. split; [lia | intros j Hj; lia].
    + intros sub_start [Hb Hs].
      destruct (Z.ltb_spec sub_start (leaf_len lf)) as [Hlt|Hge];
        [|now apply pushes_ret].
      apply pushes_arena_push. change (erase ?t) with t.
      exists sub_start, (leaf_len lf).
      split; [lia|]. split; [lia|]. split; [now right|].
      intros j Hj. apply Hs. lia.
  - apply pushes_arena_push.
    unfold default_token, erase. simpl. reflexivity.
Qed.

Lemma run_leaves_pushes code st_size ls :
  pushes (fun t => exists lf, In lf ls /\ leaf_token_ok code lf t)
         (fun _ => True) (run_leaves float_gt5 code st_size ls).
Proof.
  induction ls as [|lf ls IH]; [now apply pushes_ret|].
  cbn [run_leaves]. apply pushes_bind with (R1 := fun _ => True).
  - generalize (process_leaf_pushes code st_size lf).
    apply pushes_weaken; [|trivial].
    intros t Ht. exists lf. split; [now left | exact Ht].
  - intros _ _. revert IH. apply pushes_weaken; [|trivial].
    intros t (lf' & Hin & Ht). exists lf'. split; [now right | exact Ht].
Qed.

End Emission.

(* ================================================================== *)
(** ** Byte spans of tokens                                         *)
(* ================================================================== *)

Lemma span_no_underscore code o n :
  (forall j, 0 <= j < n -> byte_at code (o + j) <> 95) ->
  has_underscore (span code o n) = false.
Proof.
  intros H. unfold has_underscore, span.
  destruct (existsb _ _) eqn:E; [|reflexivity].
  apply existsb_exists in E. destruct E as (x & Hin & Hx).
  apply in_map_iff in Hin. destruct Hin as (k & <- & Hk).
  apply in_seq in Hk. apply Z.eqb_eq in Hx.
  exfalso. apply (H (Z.of_nat k)); [lia | now symmetry].
Qed.

Lemma span_underscore code o n j :
  0 <= j < n -> byte_at code (o + j) = 95 ->
  has_underscore (span code o n) = true.
Proof.
  intros Hj E. unfold has_underscore, span. apply existsb_exists.
  exists 95. split; [|reflexivity]. apply in_map_iff.
  exists (Z.to_nat j). rewrite Z2Nat.id by lia. split; [exact E|].
  apply in_seq. lia.
Qed.

Lemma map_seq_no_lower_upper (f : nat -> Z) m : forall a,
  (forall k, (a <= k)%nat -> (S k < a + m)%nat ->
     islower (f k) && isupper (f (S k)) = false) ->
  has_lower_upper (map f (seq a m)) = false.
Proof.
  induction m as [|m IH]; intros a H; [reflexivity|].
  destruct m as [|m]; [reflexivity|].
  change (seq a (S (S m))) with (a :: seq (S a) (S m)).
  change (seq (S a) (S m)) with (S a :: seq (S (S a)) m) at 1.
  cbn [map has_lower_upper].
  rewrite (H a) by lia. cbn [orb].
  change (f (S a) :: map f (seq (S (S a)) m)) with (map f (seq (S a) (S m))).
  apply IH. intros k Hk1 Hk2. apply H; lia.
Qed.

Lemma span_no_lower_upper code o n :
  (forall j, 0 <= j -> j + 1 < n -> camel_at code (o + j) = false) ->
  has_lower_upper (span code o n) = false.
Proof.
  intros H. unfold span. apply map_seq_no_lower_upper.
  intros k _ Hk. specialize (H (Z.of_nat k) ltac:(lia) ltac:(lia)).
  unfold camel_at in H.
  replace (o + Z.of_nat (S k)) with (o + Z.of_nat k + 1) by lia. exact H.
Qed.

(** The fields of a fragment token when nothing wraps. *)
Lemma fragment_token_fields src off start stop d sp te len :
  0 <= off -> len < U16 -> off + len <= U32 ->
  0 <= start < stop -> stop <= len ->
  offset (fragment_token src off start stop d sp te) = off + start /\
  length (fragment_token src off start stop d sp te) = stop - start.
Proof.
  intros. unfold fragment_token; simpl.
  rewrite !Z.mod_small; [split; reflexivity | |]; unfold U16, U32 in *; lia.
Qed.

Lemma blob_token_fields code start s e d len :
  0 <= start -> len < U16 -> start + len <= U32 ->
  0 <= s < e -> e <= len ->
  offset (blob_token code start s (e - s) d) = start + s /\
  length (blob_token code start s (e - s) d) = e - s /\
  offset (blob_tail_token code start s len) = start + s /\
  length (blob_tail_token code start s len) = len - s.
Proof.
  intros. unfold blob_token, blob_tail_token; simpl.
  rewrite !Z.mod_small; [repeat split; reflexivity | | |];
    unfold U16, U32 in *; lia.
Qed.

(* ================================================================== *)
(** ** What [is_word_locked] accepts                                *)
(* ================================================================== *)

(** The fuel of the search is enough: more of it changes nothing. *)
Lemma bsearch_fuel key base fuel : forall fuel' l u,
  (u - l <= fuel)%nat -> (u - l <= fuel')%nat ->
  bsearch_loop fuel key base l u = bsearch_loop fuel' key base l u.
Proof.
  induction fuel as [|f IH]; intros [|f'] l u H H'; try reflexivity.
  - cbn [bsearch_loop]. destruct (Nat.ltb_spec l u); [lia | reflexivity].
  - cbn [bsearch_loop]. destruct (Nat.ltb_spec l u); [lia | reflexivity].
  - cbn [bsearch_loop]. destruct (Nat.ltb_spec l u) as [Hlu|]; [|reflexivity].
    assert (Hmid : ((l + u) / 2 < u)%nat)
      by (apply Nat.Div0.div_lt_upper_bound; lia).
    assert (Hmid' : (l <= (l + u) / 2)%nat)
      by (apply Nat.div_le_lower_bound; lia).
    cbv zeta.
    destruct (_ <? 0); [apply IH; lia|].
    destruct (0 <? _); [apply IH; lia | reflexivity].
Qed.

Lemma bsearch_loop_some fuel key base : forall l u idx,
  bsearch_loop fuel key base l u = Some idx ->
  (idx < u)%nat /\ vocab_cmp key (nth idx base EmptyString) = 0.
Proof.
  induction fuel as [|f IH]; intros l u idx H; [discriminate|].
  cbn [bsearch_loop] in H.
  destruct (Nat.ltb_spec l u) as [Hlu|]; [|discriminate].
  assert (Hmid : ((l + u) / 2 < u)%nat)
    by (apply Nat.Div0.div_lt_upper_bound; lia).
  set (mid := ((l + u) / 2)%nat) in *. cbv zeta in H.
  destruct (Z.ltb_spec (vocab_cmp key (nth mid base EmptyString)) 0).
  - apply IH in H. lia.
  - destruct (Z.ltb_spec 0 (vocab_cmp key (nth mid base EmptyString))).
    + apply IH in H. exact H.
    + injection H as <-. split; [exact Hmid | lia].
Qed.

Lemma strcmp_zero a : forall b,
  nonzero_bytes a = true -> nonzero_bytes b = true -> strcmp a b = 0 -> a = b.
Proof.
  induction a as [|x a IH]; intros [|y b] Ha Hb; simpl in *; intros H.
  - reflexivity.
  - apply andb_prop in Hb. destruct Hb as [Hy _].
    destruct (Z.eqb_spec y 0); [discriminate | lia].
  - apply andb_prop in Ha. destruct Ha as [Hx _].
    destruct (Z.eqb_spec x 0); [discriminate | lia].
  - apply andb_prop in Ha. destruct Ha as [_ Ha].
    apply andb_prop in Hb. destruct Hb as [_ Hb].
    destruct (Z.eqb_spec x y) as [->|]; [|lia].
    f_equal. now apply IH.
Qed.

Lemma cstr_nonzero l : nonzero_bytes (cstr l) = true.
Proof.
  induction l as [|x l IH]; simpl; [reflexivity|].
  destruct (Z.eqb_spec x 0); [reflexivity|]. simpl.
  destruct (Z.eqb_spec x 0); [contradiction | exact IH].
Qed.

Lemma cstr_id l : nonzero_bytes l = true -> cstr l = l.
Proof.
  induction l as [|x l IH]; simpl; [reflexivity|].
  intros H. apply andb_prop in H. destruct H as [Hx Hl].
  destruct (x =? 0); [discriminate|]. now rewrite IH.
Qed.

(** No entry of the table contains a NUL, and the entries that the search
    finds contain no underscore. *)
Lemma found_words_have_no_underscore :
  forallb (fun w => nonzero_bytes (bytes_of_string w) &&
                    (negb (found_by_search w)
                     || negb (has_underscore (bytes_of_string w))))
          LOCKED_VOCAB = true.
Proof. vm_compute. reflexivity. Qed.

Lemma tolower_underscore b : (tolower b =? 95) = (b =? 95).
Proof.
  unfold tolower, isupper.
  destruct (Z.leb_spec 65 b), (Z.leb_spec b 90); simpl;
    destruct (Z.eqb_spec b 95), (Z.eqb_spec (b + 32) 95); try reflexivity; lia.
Qed.

Lemma tolower_nonzero b : (tolower b =? 0) = (b =? 0).
Proof.
  unfold tolower, isupper.
  destruct (Z.leb_spec 65 b), (Z.leb_spec b 90); simpl;
    destruct (Z.eqb_spec b 0), (Z.eqb_spec (b + 32) 0); try reflexivity; lia.
Qed.

Lemma has_underscore_tolower l : has_underscore (map tolower l) = has_underscore l.
Proof.
  unfold has_underscore. induction l as [|x l IH]; [reflexivity|].
  cbn [map existsb]. rewrite IH. f_equal.
  rewrite !(Z.eqb_sym 95). apply tolower_underscore.
Qed.

Lemma nonzero_bytes_tolower l : nonzero_bytes (map tolower l) = nonzero_bytes l.
Proof.
  unfold nonzero_bytes. induction l as [|x l IH]; [reflexivity|].
  cbn [map forallb]. now rewrite IH, tolower_nonzero.
Qed.

Lemma span_nonzero code o n :
  (forall j, 0 <= j < n -> byte_at code (o + j) <> 0) ->
  nonzero_bytes (span code o n) = true.
Proof.
  intros H. unfold nonzero_bytes, span. apply forallb_forall.
  intros x Hin. apply in_map_iff in Hin. destruct Hin as (k & <- & Hk).
  apply in_seq in Hk. apply negb_true_iff. apply Z.eqb_neq. apply H. lia.
Qed.

Lemma bsearch_some key base idx :
  bsearch key base = Some idx ->
  (idx < List.length base)%nat /\ vocab_cmp key (nth idx base EmptyString) = 0.
Proof. unfold bsearch. apply bsearch_loop_some. Qed.

Lemma is_word_locked_bsearch src off len :
  is_word_locked src off len = true ->
  len < 64 /\
  exists idx, bsearch (cstr (map tolower (span src off len))) LOCKED_VOCAB = Some idx.
Proof.
  unfold is_word_locked.
  destruct (Z.geb_spec len 64); [discriminate|].
  destruct (bsearch _ LOCKED_VOCAB) as [idx|]; [|discriminate].
  intros _. split; [assumption | now exists idx].
Qed.

Lemma vocab_entry_nonzero w :
  In w LOCKED_VOCAB -> nonzero_bytes (bytes_of_string w) = true.
Proof.
  intros Hin. pose proof found_words_have_no_underscore as Hv.
  rewrite forallb_forall in Hv. specialize (Hv w Hin).
  apply andb_prop in Hv. exact (proj1 Hv).
Qed.

Lemma vocab_found_no_underscore w :
  In w LOCKED_VOCAB -> found_by_search w = true ->
  has_underscore (bytes_of_string w) = false.
Proof.
  intros Hin Hf. pose proof found_words_have_no_underscore as Hv.
  rewrite forallb_forall in Hv. specialize (Hv w Hin).
  apply andb_prop in Hv. destruct Hv as [_ Hv]. rewrite Hf in Hv.
  apply negb_true_iff. exact Hv.
Qed.

(** A locked word is, once lowercased and cut at its first NUL, an entry
    of the table that the search finds. *)
Lemma locked_word_is_found src off len :
  is_word_locked src off len = true ->
  len < 64 /\
  exists w, In w LOCKED_VOCAB /\ found_by_search w = true /\
            cstr (map tolower (span src off len)) = bytes_of_string w.
Proof.
  intros H. apply is_word_locked_bsearch in H. destruct H as (Hlen & idx & E).
  split; [exact Hlen|].
  destruct (bsearch_some _ _ _ E) as [Hidx Hcmp].
  remember (nth idx LOCKED_VOCAB EmptyString) as w eqn:Ew.
  assert (Hin : In w LOCKED_VOCAB) by (subst w; apply nth_In; exact Hidx).
  assert (Hkey : cstr (map tolower (span src off len)) = bytes_of_string w).
  { apply strcmp_zero;
      [apply cstr_nonzero | apply vocab_entry_nonzero; exact Hin | exact Hcmp]. }
  exists w. split; [exact Hin|]. split; [|exact Hkey].
  unfold found_by_search. rewrite <- Hkey. rewrite E. reflexivity.
Qed.

Lemma locked_no_underscore src off len :
  is_word_locked src off len = true ->
  (forall j, 0 <= j < len -> byte_at src (off + j) <> 0) ->
  has_underscore (span src off len) = false.
Proof.
  intros Hl Hnz. apply locked_word_is_found in Hl.
  destruct Hl as (_ & w & Hin & Hfound & Hkey).
  rewrite cstr_id in Hkey
    by (rewrite nonzero_bytes_tolower; now apply span_nonzero).
  rewrite <- has_underscore_tolower, Hkey.
  exact (vocab_found_no_underscore w Hin Hfound).
Qed.

(* ================================================================== *)
(** ** Properties of the emitted tokens                             *)
(* ================================================================== *)

Lemma leaf_ok_bounds st_size lf :
  leaf_ok st_size lf ->
  0 <= leaf_len lf < U16 /\ 0 <= start_byte lf /\
  start_byte lf + leaf_len lf < U32 /\
  to_int (start_byte lf) = start_byte lf.
Proof.
  unfold leaf_ok, leaf_len, to_int, U16, U32. intros (H1 & H2 & H3).
  assert (Hm : 0 <= (end_byte lf - start_byte lf) mod 65536 < 65536)
    by (apply Z.mod_pos_bound; lia).
  assert (Hle : (end_byte lf - start_byte lf) mod 65536 <= end_byte lf - start_byte lf)
    by (apply Z.mod_le; lia).
  split; [exact Hm|]. split; [lia|]. split; [lia|].
  destruct (Z.ltb_spec (start_byte lf) 2147483648); [reflexivity | lia].
Qed.

Lemma erase_fields t :
  offset (erase t) = offset t /\ length (erase t) = length t /\
  pre_break (meta (erase t)) = pre_break (meta t).
Proof. repeat split. Qed.

Lemma token_span_eq code t o n :
  offset t = o -> length t = n -> token_span code t = span code o n.
Proof. unfold token_span. now intros -> ->. Qed.

Lemma ispunct_underscore c : ispunct c = false -> c <> 95.
Proof. intros H ->. discriminate H. Qed.

(** Where the token of a leaf lies and, off the default path, that it
    holds no underscore. *)
Lemma leaf_token_underscore code st_size lf t :
  leaf_ok st_size lf ->
  (leaf_class_of code lf = IdentifierLeaf -> leaf_no_nul code lf) ->
  leaf_token_ok code lf (erase t) ->
  (leaf_class_of code lf = DefaultLeaf /\
   offset t = start_byte lf /\ length t = leaf_len lf) \/
  has_underscore (token_span code t) = false.
Proof.
  intros Hok Hnul Ht.
  destruct (leaf_ok_bounds _ _ Hok) as (Hlen & Hstart & Hend & Hint).
  unfold leaf_token_ok in Ht. rewrite Hint in Ht.
  destruct (leaf_class_of code lf).
  - right.
    destruct Ht as [[Hl Ht] | [Hl (start & stop & te & Hb1 & Hb2 & Ht & Hu & _)]].
    + assert (Ho : offset t = start_byte lf /\ length t = leaf_len lf).
      { destruct (erase_fields t) as (<- & <- & _). rewrite Ht.
        cbn [offset length locked_token].
        rewrite !Z.mod_small by lia. now split. }
      destruct Ho as [Ho Hn]. rewrite (token_span_eq _ _ _ _ Ho Hn).
      apply locked_no_underscore; [exact Hl | exact (Hnul eq_refl)].
    + destruct (fragment_token_fields code (start_byte lf) start stop
                  (Z.rem (leaf_depth lf) 7) (leaf_pre_space code lf) te
                  (leaf_len lf)) as [Ho Hn]; try lia.
      rewrite <- Ht in Ho, Hn. simpl in Ho, Hn.
      rewrite (token_span_eq _ _ _ _ Ho Hn).
      apply span_no_underscore. intros j Hj.
      replace (start_byte lf + start + j) with (start_byte lf + (start + j)) by lia.
      apply Hu. lia.
  - right. destruct Ht as (s & e & Hb1 & Hb2 & Ht & Hsep).
    destruct (blob_token_fields code (start_byte lf) s e
                (Z.rem (leaf_depth lf) 7) (leaf_len lf))
      as (Ho1 & Hn1 & Ho2 & Hn2); try lia.
    assert (Ho : offset t = start_byte lf + s /\ length t = e - s).
    { destruct (erase_fields t) as (Eo & En & _). rewrite <- Eo, <- En.
      destruct Ht as [Ht | [Ee Ht]]; rewrite Ht;
        [split; assumption | subst e; split; assumption]. }
    destruct Ho as [Ho Hn]. rewrite (token_span_eq _ _ _ _ Ho Hn).
    apply span_no_underscore. intros j Hj.
    specialize (Hsep (s + j) ltac:(lia)). unfold blob_sep in Hsep.
    apply orb_false_elim in Hsep. destruct Hsep as [_ Hp].
    apply ispunct_underscore in Hp.
    rewrite Z.mod_small in Hp by (unfold U32 in *; lia).
    replace (start_byte lf + s + j) with (start_byte lf + (s + j)) by lia.
    exact Hp.
  - left. split; [reflexivity|].
    destruct (erase_fields t) as (<- & <- & _). rewrite Ht. now split.
Qed.

(** C2, as the code has it.  In a run over the leaves [ls], every
    appended token either is the token of a default-path leaf, which
    covers the leaf whatever it holds, or has no '_' in its byte span.
    (The leaves lie in a source below 2 GiB, and an identifier leaf holds
    no NUL byte.) *)
Theorem tokens_off_default_path_have_no_underscore
    (float_gt5 : Z -> Z -> bool) (code : list Z) (st_size : Z)
    (ls : list Leaf) (w : World) :
  Forall (leaf_ok st_size) ls ->
  Forall (fun lf => leaf_class_of code lf = IdentifierLeaf -> leaf_no_nul code lf)
         ls ->
  Forall (fun t => default_token_of code ls t \/
                   has_underscore (token_span code t) = false)
         (appended w (final (run_leaves float_gt5 code st_size ls w))).
Proof.
  intros Hok Hnul. rewrite Forall_forall in Hok, Hnul.
  appended_token (run_leaves_pushes float_gt5 code st_size ls) t Ht.
  destruct Ht as (lf & Hin & Ht).
  destruct (leaf_token_underscore code st_size lf t (Hok lf Hin) (Hnul lf Hin) Ht)
    as [(Hclass & Ho & Hn) | H]; [left | right; exact H].
  exists lf. repeat split; assumption.
Qed.

(** Where the token of a leaf lies and, for an identifier that is cut,
    that it holds no lower-upper pair. *)
Lemma leaf_token_lower_upper code st_size lf t :
  leaf_ok st_size lf ->
  leaf_token_ok code lf (erase t) ->
  (uncut_leaf code lf /\ inside_leaf lf t) \/
  has_lower_upper (token_span code t) = false.
Proof.
  intros Hok Ht.
  destruct (leaf_ok_bounds _ _ Hok) as (Hlen & Hstart & Hend & Hint).
  unfold leaf_token_ok in Ht. rewrite Hint in Ht.
  unfold uncut_leaf, inside_leaf.
  destruct (leaf_class_of code lf).
  - destruct Ht as [[Hl Ht] | [_ (start & stop & te & Hb1 & Hb2 & Ht & _ & Hc & _)]].
    + left. split; [right; exact Hl|].
      destruct (erase_fields t) as (<- & <- & _). rewrite Ht.
      cbn [offset length locked_token].
      rewrite !Z.mod_small by lia. lia.
    + right.
      destruct (fragment_token_fields code (start_byte lf) start stop
                  (Z.rem (leaf_depth lf) 7) (leaf_pre_space code lf) te
                  (leaf_len lf)) as [Ho Hn]; try lia.
      rewrite <- Ht in Ho, Hn. simpl in Ho, Hn.
      rewrite (token_span_eq _ _ _ _ Ho Hn).
      apply span_no_lower_upper. intros j Hj1 Hj2.
      replace (start_byte lf + start + j) with (start_byte lf + (start + j)) by lia.
      apply Hc; lia.
  - left. split; [left; discriminate|].
    destruct Ht as (s & e & Hb1 & Hb2 & Ht & _).
    destruct (blob_token_fields code (start_byte lf) s e
                (Z.rem (leaf_depth lf) 7) (leaf_len lf))
      as (Ho1 & Hn1 & Ho2 & Hn2); try lia.
    destruct (erase_fields t) as (<- & <- & _).
    destruct Ht as [Ht | [Ee Ht]]; rewrite Ht; lia.
  - left. split; [left; discriminate|].
    destruct (erase_fields t) as (<- & <- & _). rewrite Ht.
    cbn [offset length default_token]. lia.
Qed.

(** C6, as the code has it.  In a run over the leaves [ls], every
    appended token either lies inside a leaf that is not cut at case
    changes (a default-path leaf, a blob leaf, an identifier that is a
    locked word) or has no lowercase letter directly followed by an
    uppercase letter in its byte span.  (The leaves lie in a source below
    2 GiB.) *)
Theorem tokens_of_cut_identifiers_have_no_lower_upper
    (float_gt5 : Z -> Z -> bool) (code : list Z) (st_size : Z)
    (ls : list Leaf) (w : World) :
  Forall (leaf_ok st_size) ls ->
  Forall (fun t => uncut_token_of code ls t \/
                   has_lower_upper (token_span code t) = false)
         (appended w (final (run_leaves float_gt5 code st_size ls w))).
Proof.
  intros Hok. rewrite Forall_forall in Hok.
  appended_token (run_leaves_pushes float_gt5 code st_size ls) t Ht.
  destruct Ht as (lf & Hin & Ht).
  destruct (leaf_token_lower_upper code st_size lf t (Hok lf Hin) Ht)
    as [[Hu Hi] | H]; [left | right; exact H].
  exists lf. split; [exact Hin|]. split; [exact Hu | exact Hi].
Qed.

(** C7.  The entropy branch of the soft-split test accepts a split only
    when the left fragment is a locked word or it has at least 4 bytes
    and at least 3 bytes remain to its right.  On the tokens: whenever a
    token of the segmenter ends inside the identifier, and neither an
    underscore follows it nor a lower-upper pair straddles its end, the
    token is a locked word or has at least 4 bytes with at least 3 bytes
    after it. *)
Theorem entropy_split_respects_guard (float_gt5 : Z -> Z -> bool)
    (src : list Z) (off len d : Z) (sp : bool) (file_size : Z) :
  0 <= off -> 0 <= len < U16 -> off + len < U32 ->
  (forall m start i,
     soft_split float_gt5 m src off len start i = EntropySplit ->
     is_word_locked src (off + start) (i + 1 - start) = true \/
     (4 <= i + 1 - start /\ 3 <= len - (i + 1))) /\
  (forall w,
     Forall (fun t =>
               let stop := offset t + length t - off in
               stop = len \/ byte_at src (off + stop) = 95 \/
               camel_at src (off + (stop - 1)) = true \/
               is_word_locked src (offset t) (length t) = true \/
               (4 <= length t /\ 3 <= len - stop))
            (appended w (final (process_identifier float_gt5 src off len d sp
                                                   file_size w)))).
Proof.
  intros Hoff Hlen Hend. split.
  - intros m start i Es.
    exact (proj2 (proj2 (soft_split_entropy _ _ _ _ _ _ _ Es))).
  - intros w.
    appended_token (process_identifier_pushes float_gt5 src off len d sp file_size)
                   t Ht.
    cbv zeta.
    destruct Ht as [[Hl Ht] | [_ (start & stop & te & Hb1 & Hb2 & Ht & _ & _ & Hwhy)]].
    + left. destruct (erase_fields t) as (<- & <- & _). rewrite Ht.
      cbn [offset length locked_token].
      rewrite !Z.mod_small by lia. lia.
    + destruct (fragment_token_fields src off start stop d sp te len)
        as [Ho Hn]; try lia.
      rewrite <- Ht in Ho, Hn. simpl in Ho, Hn. rewrite Ho, Hn.
      replace (off + start + (stop - start) - off) with stop by lia.
      replace (off + start + (stop - start) - off) with stop in Hwhy by lia.
      destruct Hwhy as [H|[H|[H|[H|H]]]]; tauto.
Qed.

Lemma map_pre_break_erase l :
  map (fun t => pre_break (meta t)) (map erase l)
  = map (fun t => pre_break (meta t)) l.
Proof. rewrite map_map. apply map_ext. reflexivity. Qed.

Lemma pre_break_kept w w' :
  map erase (kept w w') = map erase (tokens (arena w)) ->
  map (fun t => pre_break (meta t)) (kept w w')
  = map (fun t => pre_break (meta t)) (tokens (arena w)).
Proof.
  intros H. rewrite <- (map_pre_break_erase (kept w w')), H.
  apply map_pre_break_erase.
Qed.

(** C9.  Every token appended by the identifier segmenter, and every
    token appended while a leaf of the identifier or blob class is
    processed, has [pre_break = 0], whatever byte precedes it; the tokens
    already in the arena keep their [pre_break].  In a run over the leaves
    [ls], an appended token with [pre_break = 1] is the token of a
    default-path leaf. *)
Theorem only_default_tokens_carry_pre_break (float_gt5 : Z -> Z -> bool)
    (code : list Z) :
  (forall off len d sp file_size w,
     let w' := final (process_identifier float_gt5 code off len d sp file_size w) in
     Forall (fun t => pre_break (meta t) = false) (appended w w') /\
     map (fun t => pre_break (meta t)) (kept w w')
     = map (fun t => pre_break (meta t)) (tokens (arena w))) /\
  (forall st_size lf w,
     leaf_class_of code lf <> DefaultLeaf ->
     let w' := final (process_leaf float_gt5 code st_size lf w) in
     Forall (fun t => pre_break (meta t) = false) (appended w w') /\
     map (fun t => pre_break (meta t)) (kept w w')
     = map (fun t => pre_break (meta t)) (tokens (arena w))) /\
  (forall st_size ls w,
     Forall (fun t => pre_break (meta t) = true -> default_token_of code ls t)
            (appended w (final (run_leaves float_gt5 code st_size ls w)))).
Proof.
  assert (Hident : forall off len d sp t,
            identifier_token_ok code off len d sp (erase t) ->
            pre_break (meta t) = false).
  { intros off len d sp t Ht. destruct (erase_fields t) as (_ & _ & <-).
    destruct Ht as [[_ ->] | [_ (start & stop & te & _ & _ & -> & _)]];
      reflexivity. }
  assert (Hblob : forall start len d t,
            blob_fragment_ok code start len d (erase t) ->
            pre_break (meta t) = false).
  { intros start len d t Ht. destruct (erase_fields t) as (_ & _ & <-).
    destruct Ht as (s & e & _ & _ & [-> | [_ ->]] & _); reflexivity. }
  split; [|split].
  - intros off len d sp file_size w w'. subst w'.
    pose proof (process_identifier_pushes float_gt5 code off len d sp file_size)
      as Hp.
    split; [|exact (pre_break_kept _ _ (proj2 (pushes_appended _ _ _ w Hp)))].
    appended_token Hp t Ht. exact (Hident _ _ _ _ _ Ht).
  - intros st_size lf w Hclass w'. subst w'.
    pose proof (process_leaf_pushes float_gt5 code st_size lf) as Hp.
    split; [|exact (pre_break_kept _ _ (proj2 (pushes_appended _ _ _ w Hp)))].
    appended_token Hp t Ht.
    unfold leaf_token_ok in Ht.
    destruct (leaf_class_of code lf); [| |contradiction].
    + exact (Hident _ _ _ _ _ Ht).
    + exact (Hblob _ _ _ _ Ht).
  - intros st_size ls w.
    appended_token (run_leaves_pushes float_gt5 code st_size ls) t Ht.
    destruct Ht as (lf & Hin & Ht). intros Hpb.
    unfold leaf_token_ok in Ht.
    destruct (leaf_class_of code lf) eqn:Hclass.
    + rewrite (Hident _ _ _ _ _ Ht) in Hpb. discriminate Hpb.
    + rewrite (Hblob _ _ _ _ Ht) in Hpb. discriminate Hpb.
    + exists lf. split; [exact Hin|]. split; [exact Hclass|].
      destruct (erase_fields t) as (<- & <- & _). rewrite Ht. now split.
Qed.

(** What the code does store in the depth and type fields: [depth % 7]
    at the push sites that set a depth, 0 in the fragment pushed after
    the blob loop; 1 in the type of every blob fragment. *)
Lemma appended_depth_and_type (float_gt5 : Z -> Z -> bool) code st_size lf w :
  Forall (fun t =>
            match leaf_class_of code lf with
            | BlobLeaf =>
                type (meta t) = 1 /\
                (depth (meta t) = Z.rem (leaf_depth lf) 7 mod 8 \/
                 depth (meta t) = 0)
            | _ => depth (meta t) = Z.rem (leaf_depth lf) 7 mod 8
            end)
         (appended w (final (process_leaf float_gt5 code st_size lf w))).
Proof.
  appended_token (process_leaf_pushes float_gt5 code st_size lf) t Ht.
  unfold leaf_token_ok in Ht.
  change (type (meta t)) with (type (meta (erase t))).
  change (depth (meta t)) with (depth (meta (erase t))).
  destruct (leaf_class_of code lf).
  - destruct Ht as [[_ ->] | [_ (start & stop & te & _ & _ & -> & _)]];
      reflexivity.
  - destruct Ht as (s & e & _ & _ & [-> | [_ ->]] & _);
      (split; [reflexivity|]); [left | right]; reflexivity.
  - rewrite Ht. reflexivity.
Qed.

(** The default path appends the leaf as one token. *)
Lemma default_token_is_whole_leaf (float_gt5 : Z -> Z -> bool) code st_size lf w :
  leaf_class_of code lf = DefaultLeaf ->
  Forall (fun t => offset t = start_byte lf /\ length t = leaf_len lf)
         (appended w (final (process_leaf float_gt5 code st_size lf w))).
Proof.
  intros Hclass.
  appended_token (process_leaf_pushes float_gt5 code st_size lf) t Ht.
  unfold leaf_token_ok in Ht. rewrite Hclass in Ht.
  destruct (erase_fields t) as (<- & <- & _). rewrite Ht. now split.
Qed.

(** The locked short-circuit, for the words [is_word_locked] accepts: with
    room in the arena and an empty slot in the table, one token is
    appended; it covers the identifier and has casing 0. *)
Lemma locked_short_circuit (float_gt5 : Z -> Z -> bool) src off len d sp
    file_size w :
  is_word_locked src off len = true ->
  count (arena w) < capacity (arena w) ->
  has_empty_slot (seen_hashes (registry w)) ->
  exists t w',
    process_identifier float_gt5 src off len d sp file_size w = Done tt w' /\
    tokens (arena w') = tokens (arena w) ++ [t] /\
    erase t = locked_token src off len d sp /\
    casing (meta t) = 0.
Proof.
  intros Hl Hroom Hslot. unfold process_identifier. rewrite Hl.
  unfold bind, arena_push.
  destruct (Z.geb_spec (count (arena w)) (capacity (arena w))); [lia|].
  destruct (register_token_returns (root_id (locked_token src off len d sp)) src
              (offset (locked_token src off len d sp))
              (length (locked_token src off len d sp)) (registry w) Hslot)
    as (r' & ->).
  eexists. eexists. split; [reflexivity|]. split; [reflexivity|].
  destruct (_ <? file_size).
  - rewrite erase_absorb. split; [reflexivity|].
    change (casing (meta ?t)) with (casing (meta (erase t))).
    rewrite erase_absorb. reflexivity.
  - split; reflexivity.
Qed.

(* ================================================================== *)
(** ** The symbol eater                                             *)
(* ================================================================== *)

Lemma already_eaten_iff c m : already_eaten c m = true <-> absorbed_char m c.
Proof.
  unfold already_eaten, absorbed_char.
  rewrite !orb_true_iff, !andb_true_iff, !Z.eqb_eq. tauto.
Qed.

(** C8.  A leaf whose first byte matches an absorption bit of the last
    token of the arena is dropped: the state is returned as it is,
    whatever the length, type and depth of the leaf and wherever the
    token got its bit from.  The decision is a function of that first byte
    and of the five bits alone. *)
Theorem symbol_eater_skips_on_first_byte :
  (forall (float_gt5 : Z -> Z -> bool) code st_size lf w m,
     last_meta (arena w) = Some m ->
     absorbed_char m (byte_at code (start_byte lf)) ->
     process_leaf float_gt5 code st_size lf w = Done tt w) /\
  (forall code start a m code' start' a' m',
     last_meta a = Some m -> last_meta a' = Some m' ->
     byte_at code start = byte_at code' start' ->
     absorption_bits m = absorption_bits m' ->
     eaten code start a = eaten code' start' a') /\
  (forall code start a m,
     last_meta a = Some m ->
     (eaten code start a = true <-> absorbed_char m (byte_at code start))).
Proof.
  split; [|split].
  - intros float_gt5 code st_size lf w m Hlast Habs.
    unfold process_leaf.
    destruct (_ >? 0); [|reflexivity].
    unfold eaten. rewrite Hlast.
    apply already_eaten_iff in Habs. now rewrite Habs.
  - intros code start a m code' start' a' m' Hm Hm' Hbyte Hbits.
    unfold eaten. rewrite Hm, Hm', Hbyte. unfold already_eaten.
    unfold absorption_bits in Hbits.
    injection Hbits as -> -> -> -> ->. reflexivity.
  - intros code start a m Hm. unfold eaten. rewrite Hm.
    apply already_eaten_iff.
Qed.

(* ================================================================== *)
(** ** Identifiers the entropy test cannot cut                      *)
(* ================================================================== *)

Lemma entropy_blind_spec src off len :
  entropy_blind src off len = true ->
  forall start i, 0 <= start <= i -> i < len ->
    guard_open src off len start i = false.
Proof.
  unfold entropy_blind. intros H start i Hs Hi.
  rewrite forallb_forall in H.
  specialize (H (Z.to_nat start)). rewrite forallb_forall in H.
  specialize (H ltac:(apply in_seq; lia) (Z.to_nat (i - start))
                ltac:(apply in_seq; lia)).
  apply negb_true_iff in H.
  replace (Z.of_nat (Z.to_nat start)) with start in H by lia.
  replace (Z.of_nat (Z.to_nat start + Z.to_nat (i - start))) with i in H by lia.
  exact H.
Qed.

Lemma soft_split_blind f g m src off len start i :
  guard_open src off len start i = false ->
  soft_split f m src off len start i = soft_split g m src off len start i.
Proof.
  unfold guard_open, soft_split. intros H.
  apply orb_false_elim in H. destruct H as [-> ->].
  destruct (islower _ && isupper _); [reflexivity|].
  destruct (surprise_exceeds f _ _ _), (surprise_exceeds g _ _ _); reflexivity.
Qed.

Lemma bind_ext {A B} (m : M A) (k k' : A -> M B) w :
  (forall a w', k a w' = k' a w') -> bind m k w = bind m k' w.
Proof. intros H. unfold bind. destruct (m w); [apply H | reflexivity]. Qed.

Lemma split_loop_blind f g src off len d sp file_size n :
  (forall start i, 0 <= start <= i -> i < len ->
     guard_open src off len start i = false) ->
  forall i start te w, 0 <= start <= i ->
    split_loop f n src off len d sp file_size i start te w
    = split_loop g n src off len d sp file_size i start te w.
Proof.
  intros Hblind. induction n as [|n IH]; intros i start te w Hs; [reflexivity|].
  cbn [split_loop].
  destruct (byte_at src (off + i) =? 95).
  - apply bind_ext. intros te' w1. apply bind_ext. intros u w2.
    apply IH. lia.
  - destruct (Z.ltb_spec i (len - 1)); [|apply IH; lia].
    apply bind_ext. intros m w1.
    rewrite (soft_split_blind f g) by (apply Hblind; lia).
    destruct (soft_split g _ _ _ _ _ _);
      [apply IH; lia | apply bind_ext; intros u w2; apply IH; lia ..].
Qed.

(** On such an identifier the run does not depend on the float test. *)
Lemma process_identifier_blind f g src off len d sp file_size w :
  entropy_blind src off len = true ->
  process_identifier f src off len d sp file_size w
  = process_identifier g src off len d sp file_size w.
Proof.
  intros H. pose proof (entropy_blind_spec _ _ _ H) as Hblind.
  unfold process_identifier.
  destruct (is_word_locked src off len); [reflexivity|].
  apply bind_ext. intros u w1. unfold bind.
  rewrite (split_loop_blind f g) by (assumption || lia). reflexivity.
Qed.

(* ================================================================== *)
(** ** Concrete runs                                                *)
(* ================================================================== *)

Lemma boot_start_world st_size : boot [] st_size = Some (start_world st_size).
Proof. reflexivity. Qed.

(** The hash is FNV-1a over the lowercased bytes. *)
Example murmur_hash_values :
  murmur_hash (bytes_of_string "a") 0 1 = 3826002220 /\
  murmur_hash (bytes_of_string "A") 0 1 = 3826002220 /\
  murmur_hash (bytes_of_string "foobar") 0 6 = 3214735720.
Proof. repeat split; vm_compute; reflexivity. Qed.

Example get_casing_values :
  map (fun w => get_casing (bytes_of_string w) 0 3) ["abc"; "Abc"; "ABC"; "aBc"; "abC"]%string
  = [0; 1; 2; 3; 3].
Proof. vm_compute. reflexivity. Qed.

Example is_word_locked_values :
  map (fun w => is_word_locked (bytes_of_string w) 0 (Z.of_nat (String.length w)))
      ["int"; "INT"; "Return"; "while"; "integer"; "NULL"]%string
  = [true; true; true; false; false; false].
Proof. vm_compute. reflexivity. Qed.

(** [int x;]: [int], then [x] with the semicolon absorbed. *)
Example scenario_int_x :
  map flags_of (run_tokens exact_gt5 code_int_x tree_int_x)
  = [(0, 3, [false; false; false; false]); (4, 1, [false; true; false; false])].
Proof. vm_compute. reflexivity. Qed.

(** [my_var_name]: three fragments, the first two with has_joiner. *)
Example scenario_my_var_name :
  map flags_of (run_tokens exact_gt5 code_my_var_name tree_my_var_name)
  = [(0, 2, [true; false; false; false]); (3, 3, [true; false; false; false]);
     (7, 4, [false; false; false; false])].
Proof. vm_compute. reflexivity. Qed.

(** [func(arg);]: [func] with has_paren, [arg] with has_close, and the
    semicolon as a token of its own. *)
Example scenario_func_arg :
  map flags_of (run_tokens exact_gt5 code_func_arg tree_func_arg)
  = [(0, 4, [false; false; true; false]); (5, 3, [false; false; false; true]);
     (9, 1, [false; false; false; false])].
Proof. vm_compute. reflexivity. Qed.

(** The key of [is_word_locked] ends at the first NUL: an identifier span
    that held one could be locked by its prefix and keep an underscore. *)
Example locked_prefix_before_nul :
  is_word_locked code_do_nul 0 5 = true /\
  map (fun t => (span_of t, has_underscore (token_span code_do_nul t)))
      (tokens (arena (final (process_identifier exact_gt5 code_do_nul 0 5 1 false 5
                                                (start_world 5)))))
  = [((0, 5), true)].
Proof. split; vm_compute; reflexivity. Qed.

(** In [size_t my_var;] the leaf [size_t] is a primitive_type: it takes
    the default path and its token keeps the underscore. *)
Lemma default_token_keeps_underscore :
  leaves_of 0 tree_size_t = leaves_size_t /\
  map (fun t => (span_of t, has_underscore (token_span code_size_t t)))
      (run_tokens exact_gt5 code_size_t tree_size_t)
  = [((0, 6), true); ((7, 2), false); ((10, 3), false)].
Proof. split; vm_compute; reflexivity. Qed.

(** The same run: [size_t] is the token of a default-path leaf, [my] and
    [var] hold no underscore. *)
Lemma tokens_off_default_path_have_no_underscore_witness :
  Forall (leaf_ok 14) leaves_size_t /\
  Forall (fun lf => leaf_class_of code_size_t lf = IdentifierLeaf ->
                    leaf_no_nul code_size_t lf) leaves_size_t /\
  Forall (fun t => default_token_of code_size_t leaves_size_t t \/
                   has_underscore (token_span code_size_t t) = false)
         (appended (start_world 14)
            (final (run_leaves exact_gt5 code_size_t 14 leaves_size_t
                               (start_world 14)))).
Proof.
  assert (H1 : Forall (leaf_ok 14) leaves_size_t)
    by (repeat constructor; simpl; lia).
  assert (H2 : Forall (fun lf => leaf_class_of code_size_t lf = IdentifierLeaf ->
                                 leaf_no_nul code_size_t lf) leaves_size_t).
  { repeat constructor.
    - intros Hc. vm_compute in Hc. discriminate Hc.
    - intros _ j Hj.
      change (leaf_len (mkLeaf 7 13 "identifier" 2)) with 6 in Hj.
      assert (Hc : j = 0 \/ j = 1 \/ j = 2 \/ j = 3 \/ j = 4 \/ j = 5) by lia.
      destruct Hc as [->|[->|[->|[->|[->| ->]]]]]; vm_compute; discriminate.
    - intros Hc. vm_compute in Hc. discriminate Hc. }
  split; [exact H1|]. split; [exact H2|].
  exact (tokens_off_default_path_have_no_underscore exact_gt5 code_size_t 14
           leaves_size_t (start_world 14) H1 H2).
Defined.

(** [0xFF] on the default path, [fooBar] in a comment and the locked word
    [doUble] are each one token with a lower-upper pair inside. *)
Lemma uncut_lower_upper_pairs :
  map (fun t => (span_of t, has_lower_upper (token_span code_my_name t)))
      (run_tokens exact_gt5 code_my_name tree_my_name)
  = [((0, 2), false); ((2, 4), false); ((7, 1), false); ((9, 4), true)] /\
  map (fun t => (span_of t, has_lower_upper (token_span code_comment t)))
      (run_tokens exact_gt5 code_comment tree_comment)
  = [((3, 6), true)] /\
  map (fun t => (span_of t, has_lower_upper (token_span code_double t)))
      (run_tokens exact_gt5 code_double tree_double)
  = [((0, 6), true)].
Proof. repeat split; vm_compute; reflexivity. Qed.

(** [myName = 0xFF;]: the tokens [my] and [Name] hold no lower-upper
    pair; [0xFF] lies in a default-path leaf. *)
Lemma tokens_of_cut_identifiers_have_no_lower_upper_witness :
  Forall (leaf_ok 14) leaves_my_name /\
  Forall (fun t => uncut_token_of code_my_name leaves_my_name t \/
                   has_lower_upper (token_span code_my_name t) = false)
         (appended (start_world 14)
            (final (run_leaves exact_gt5 code_my_name 14 leaves_my_name
                               (start_world 14)))).
Proof.
  assert (H1 : Forall (leaf_ok 14) leaves_my_name)
    by (repeat constructor; simpl; lia).
  split; [exact H1|].
  exact (tokens_of_cut_identifiers_have_no_lower_upper exact_gt5 code_my_name 14
           leaves_my_name (start_world 14) H1).
Defined.

Example my_name_leaves : leaves_of 0 tree_my_name = leaves_my_name.
Proof. vm_compute. reflexivity. Qed.

(** The identifier [contextswitch] in the start state. *)
Lemma entropy_split_respects_guard_witness :
  Forall (fun t =>
            let stop := offset t + length t - 0 in
            stop = 13 \/ byte_at code_contextswitch (0 + stop) = 95 \/
            camel_at code_contextswitch (0 + (stop - 1)) = true \/
            is_word_locked code_contextswitch (offset t) (length t) = true \/
            (4 <= length t /\ 3 <= 13 - stop))
         (appended (start_world 13)
            (final (process_identifier exact_gt5 code_contextswitch 0 13 1 false 13
                                       (start_world 13)))).
Proof.
  apply (proj2 (entropy_split_respects_guard exact_gt5 code_contextswitch 0 13 1
                  false 13 ltac:(lia) ltac:(unfold U16; lia) ltac:(unfold U32; lia))).
Defined.

(** It is cut into [context] and [switch], by the entropy test. *)
Example contextswitch_tokens :
  map span_of
      (tokens (arena (final (process_identifier exact_gt5 code_contextswitch 0 13 1
                                                false 13 (start_world 13)))))
  = [(0, 7); (7, 6)].
Proof. vm_compute. reflexivity. Qed.

(** In [x *= 2;] the leaf [*=] after [x], and in [f(g(a));] the second
    [)] after [a]: both are dropped. *)
Lemma symbol_eater_skips_on_first_byte_witness :
  process_leaf exact_gt5 code_star 7 (mkLeaf 2 4 "*=" 3) world_after_x
  = Done tt world_after_x /\
  process_leaf exact_gt5 code_calls 8 (mkLeaf 6 7 ")" 4) world_after_a
  = Done tt world_after_a.
Proof.
  split.
  - apply (proj1 symbol_eater_skips_on_first_byte exact_gt5 code_star 7
             (mkLeaf 2 4 "*=" 3) world_after_x
             (mkMeta 0 0 false false false 3 false false false true false)).
    + vm_compute. reflexivity.
    + right. right. right. right. split; vm_compute; reflexivity.
  - apply (proj1 symbol_eater_skips_on_first_byte exact_gt5 code_calls 8
             (mkLeaf 6 7 ")" 4) world_after_a
             (mkMeta 0 0 false false false 6 false false false false true)).
    + vm_compute. reflexivity.
    + right. right. right. left. split; vm_compute; reflexivity.
Defined.

(** The two-byte operator leaves no token, and neither of the two [)]. *)
Example star_and_calls_tokens :
  map span_of (run_tokens exact_gt5 code_star tree_star) = [(0, 1); (5, 1)] /\
  nth 5 (leaves_of 0 tree_calls) (mkLeaf 0 0 "" 0) = mkLeaf 5 6 ")" 6 /\
  nth 6 (leaves_of 0 tree_calls) (mkLeaf 0 0 "" 0) = mkLeaf 6 7 ")" 4 /\
  map span_of (run_tokens exact_gt5 code_calls tree_calls)
  = [(0, 1); (2, 1); (4, 1); (7, 1)].
Proof. repeat split; vm_compute; reflexivity. Qed.

(** The identifier leaf [foo_bar] on the line after a newline. *)
Lemma only_default_tokens_carry_pre_break_witness :
  leaf_pre_break code_newline_ident leaf_newline_ident = true /\
  leaf_class_of code_newline_ident leaf_newline_ident <> DefaultLeaf /\
  Forall (fun t => pre_break (meta t) = false)
         (appended (start_world 8)
            (final (process_leaf exact_gt5 code_newline_ident 8 leaf_newline_ident
                                 (start_world 8)))).
Proof.
  assert (H : leaf_class_of code_newline_ident leaf_newline_ident <> DefaultLeaf)
    by (vm_compute; discriminate).
  split; [vm_compute; reflexivity|]. split; [exact H|].
  exact (proj1 (proj1 (proj2 (only_default_tokens_carry_pre_break exact_gt5
                                code_newline_ident))
                      8 leaf_newline_ident (start_world 8) H)).
Defined.

(** After a newline: the fragments of an identifier and of a comment have
    pre_break 0, the numeric literal on the default path has pre_break 1. *)
Example pre_break_by_path :
  map (fun t => (span_of t, pre_break (meta t)))
      (run_tokens exact_gt5 code_newline_ident
         (Node "translation_unit" 1 8 [Node "identifier" 1 8 []]))
  = [((1, 3), false); ((5, 3), false)] /\
  map (fun t => (span_of t, pre_break (meta t)))
      (run_tokens exact_gt5 code_newline_blob
         (Node "translation_unit" 1 8
            [Node "comment" 1 5 []; Node "number_literal" 6 7 []]))
  = [((4, 1), false); ((6, 1), true)].
Proof. split; vm_compute; reflexivity. Qed.

(** C1.  Only the first 32 entries of the table are in order, and "NULL"
    is compared with the lowercased key: the halving search misses 29 of
    the 60 entries.  The segmenter then treats such a word as any other
    identifier: given "NULL" or "BUFFER" it emits one token with casing 2
    (all upper), given "size_t" it emits two tokens, whatever the float
    test answers. *)
Theorem locked_vocabulary_entries_not_locked :
  filter (fun w => negb (locked_as_written w)) LOCKED_VOCAB
  = [ "while"; "define"; "include"; "ifdef"; "ifndef"; "endif"; "printf";
      "malloc"; "free"; "size_t"; "uint32_t"; "uint8_t"; "uint16_t"; "NULL";
      "true"; "false"; "bool"; "file"; "path"; "buffer"; "length"; "count";
      "offset"; "data"; "node"; "tree"; "parser"; "cursor"; "root" ]%string /\
  (forall float_gt5 : Z -> Z -> bool,
     map casing_of
         (tokens (arena (final (process_identifier float_gt5 code_NULL 0 4 1 false 4
                                                   (start_world 4)))))
     = [(0, 4, 2)]) /\
  (forall float_gt5 : Z -> Z -> bool,
     map casing_of
         (tokens (arena (final (process_identifier float_gt5 code_BUFFER 0 6 1 false
                                                   6 (start_world 6)))))
     = [(0, 6, 2)]) /\
  (forall float_gt5 : Z -> Z -> bool,
     map casing_of
         (tokens (arena (final (process_identifier float_gt5 code_size_t_word 0 6 1
                                                   false 6 (start_world 6)))))
     = [(0, 4, 0); (5, 1, 0)]).
Proof.
  split; [vm_compute; reflexivity|]. repeat split; intros float_gt5;
    rewrite (process_identifier_blind float_gt5 exact_gt5)
      by (vm_compute; reflexivity);
    vm_compute; reflexivity.
Qed.

(** C3.  The driver stores [depth % 7]: in [void f(){if(a){x=7;}}] the
    leaves [x], [=] and [7] lie at nesting depth 7 and their tokens get
    the depth field 0, not 7. *)
Theorem depth_field_is_reduced_modulo_7 :
  forall float_gt5 : Z -> Z -> bool,
    map (fun lf => (start_byte lf, leaf_depth lf)) (leaves_of 0 tree_if)
    = [(0, 2); (5, 3); (6, 4); (7, 4); (8, 3); (9, 4); (11, 5); (12, 5);
       (13, 5); (14, 5); (15, 7); (16, 7); (17, 7); (18, 6); (19, 5); (20, 3)] /\
    map (fun t => (offset t, depth (meta t))) (run_tokens float_gt5 code_if tree_if)
    = [(0, 2); (5, 3); (7, 4); (8, 3); (9, 4); (12, 5); (14, 5); (15, 0);
       (16, 0); (17, 0); (19, 5); (20, 3)] /\
    7 mod 8 = 7.
Proof.
  intros float_gt5. repeat split; vm_compute; reflexivity.
Qed.

(** C5.  The fragment pushed after the blob loop is built without a
    depth: in a comment at depth 1 the fragment [x] has depth 1 and the
    last fragment [y] has depth 0. *)
Theorem blob_tail_fragment_has_depth_0 :
  forall float_gt5 : Z -> Z -> bool,
    leaves_of 0 tree_comment_xy = [mkLeaf 0 6 "comment" 1] /\
    map type_depth_of (run_tokens float_gt5 code_comment_xy tree_comment_xy)
    = [(3, 1, 1, 1); (5, 1, 1, 0)].
Proof.
  intros float_gt5. split; vm_compute; reflexivity.
Qed.

(* ================================================================== *)
(** ** Hash, casing and locked words as functions of the text       *)
(* ================================================================== *)

Lemma murmur_fold_tolower l : forall l' h,
  map tolower l = map tolower l' ->
  fold_left murmur_step l h = fold_left murmur_step l' h.
Proof.
  induction l as [|x l IH]; intros [|y l'] h E; try discriminate E.
  - reflexivity.
  - cbn [map] in E. injection E as Exy E. cbn [fold_left].
    unfold murmur_step at 2 4. rewrite Exy. now apply IH.
Qed.

Lemma murmur_fold_range l : forall h,
  0 <= h < U32 -> 0 <= fold_left murmur_step l h < U32.
Proof.
  induction l as [|x l IH]; intros h Hh; [exact Hh|].
  cbn [fold_left]. apply IH. unfold murmur_step.
  apply Z.mod_pos_bound. reflexivity.
Qed.

(** X1.  [murmur_hash] fits in 32 bits and reads the text through
    [tolower] only: two spans that agree once lowercased (same word in
    another casing, in the same buffer or another) get the same id. *)
Theorem murmur_hash_ignores_case (key key' : list Z) (off off' len len' : Z) :
  0 <= murmur_hash key off len < U32 /\
  (map tolower (span key off len) = map tolower (span key' off' len') ->
   murmur_hash key off len = murmur_hash key' off' len').
Proof.
  unfold murmur_hash. split.
  - apply murmur_fold_range. unfold U32. lia.
  - apply murmur_fold_tolower.
Qed.

Lemma murmur_hash_ignores_case_witness :
  murmur_hash (bytes_of_string "myVar") 0 5
  = murmur_hash (bytes_of_string "x = MYVAR;") 4 5.
Proof.
  apply (proj2 (murmur_hash_ignores_case (bytes_of_string "myVar")
                  (bytes_of_string "x = MYVAR;") 0 4 5 5)).
  vm_compute. reflexivity.
Defined.

Lemma count_upper_acc l : forall a,
  fold_left (fun caps c => if isupper c then caps + 1 else caps) l a
  = a + count_upper l.
Proof.
  unfold count_upper. induction l as [|x l IH]; intros a; cbn [fold_left].
  - lia.
  - rewrite IH, (IH (if isupper x then 0 + 1 else 0)).
    destruct (isupper x); lia.
Qed.

Lemma count_upper_cons x l :
  count_upper (x :: l) = (if isupper x then 1 else 0) + count_upper l.
Proof.
  unfold count_upper at 1. cbn [fold_left]. rewrite count_upper_acc.
  destruct (isupper x); lia.
Qed.

Lemma count_upper_bounds l : 0 <= count_upper l <= Z.of_nat (List.length l).
Proof.
  induction l as [|x l IH]; [unfold count_upper; simpl; lia|].
  rewrite count_upper_cons. cbn [List.length]. destruct (isupper x); lia.
Qed.

Lemma count_upper_none l :
  count_upper l = 0 <-> forallb (fun c => negb (isupper c)) l = true.
Proof.
  induction l as [|x l IH]; [unfold count_upper; simpl; tauto|].
  rewrite count_upper_cons. cbn [forallb].
  pose proof (count_upper_bounds l).
  destruct (isupper x); cbn [negb andb].
  - split; [lia | discriminate].
  - rewrite <- IH. split; lia.
Qed.

Lemma count_upper_all l :
  count_upper l = Z.of_nat (List.length l) <-> forallb isupper l = true.
Proof.
  induction l as [|x l IH]; [unfold count_upper; simpl; tauto|].
  rewrite count_upper_cons. cbn [forallb List.length].
  pose proof (count_upper_bounds l).
  destruct (isupper x); cbn [andb].
  - rewrite <- IH. split; lia.
  - split; [lia | discriminate].
Qed.

Lemma span_length code off len : List.length (span code off len) = Z.to_nat len.
Proof. unfold span. now rewrite length_map, length_seq. Qed.

Lemma span_nil code off len : len <= 0 -> span code off len = [].
Proof. intros H. unfold span. replace (Z.to_nat len) with 0%nat by lia. reflexivity. Qed.

Lemma span_cons code off len :
  0 < len -> span code off len = byte_at code off :: span code (off + 1) (len - 1).
Proof.
  intros H. unfold span.
  replace (Z.to_nat len) with (S (Z.to_nat (len - 1))) by lia.
  cbn [seq map]. rewrite Z.add_0_r. f_equal.
  rewrite <- seq_shift, map_map. apply map_ext. intros k. f_equal. lia.
Qed.

Lemma iff_bool (P : Prop) (b : bool) : (P <-> b = true) -> if b then P else ~ P.
Proof.
  destruct b; intros H; [apply H; reflexivity|].
  intros HP. apply H in HP. discriminate HP.
Qed.

Ltac casing_case :=
  repeat match goal with
         | |- _ /\ _ => split
         | |- _ <-> _ => split
         | |- _ -> _ => intro
         | H : _ /\ _ |- _ => destruct H
         | H : true = true -> _ |- _ => specialize (H eq_refl)
         end;
  try reflexivity; try discriminate; try lia.

(** X2.  The four casing classes of [get_casing], read on the text: 0 when
    no byte is an uppercase letter (the empty text included), 2 when the
    text is not empty and all of it is uppercase letters (a single capital
    included), 1 when a text of two bytes or more has an uppercase first
    byte and no other, 3 in every other case. *)
Theorem get_casing_classes (s : list Z) (off len : Z) :
  (get_casing s off len = 0 <->
   forallb (fun c => negb (isupper c)) (span s off len) = true) /\
  (get_casing s off len = 2 <->
   0 < len /\ forallb isupper (span s off len) = true) /\
  (get_casing s off len = 1 <->
   1 < len /\ isupper (byte_at s off) = true /\
   forallb (fun c => negb (isupper c)) (span s (off + 1) (len - 1)) = true) /\
  (get_casing s off len = 3 <->
   forallb (fun c => negb (isupper c)) (span s off len) = false /\
   forallb isupper (span s off len) = false /\
   (isupper (byte_at s off) = true ->
    forallb (fun c => negb (isupper c)) (span s (off + 1) (len - 1)) = false)).
Proof.
  destruct (Z.leb_spec len 0) as [Hle|Hpos].
  - (* empty text *)
    unfold get_casing. rewrite (span_nil s off len Hle).
    rewrite (span_nil s (off + 1) (len - 1)) by lia.
    change (count_upper []) with 0. cbn [Z.eqb forallb].
    repeat split; try discriminate; try reflexivity; try lia;
      intros [H _]; first [lia | discriminate].
  - pose proof (iff_bool _ _ (count_upper_none (span s off len))) as Hnone.
    pose proof (count_upper_all (span s off len)) as Hall.
    rewrite span_length in Hall. rewrite Z2Nat.id in Hall by lia.
    apply iff_bool in Hall.
    pose proof (iff_bool _ _ (count_upper_none (span s (off + 1) (len - 1))))
      as Hrest.
    pose proof (count_upper_bounds (span s (off + 1) (len - 1))) as Hb.
    rewrite span_length in Hb.
    assert (Hc : count_upper (span s off len)
                 = (if isupper (byte_at s off) then 1 else 0)
                   + count_upper (span s (off + 1) (len - 1)))
      by (rewrite (span_cons s off len Hpos); apply count_upper_cons).
    unfold get_casing.
    destruct (forallb (fun c => negb (isupper c)) (span s off len));
      destruct (forallb isupper (span s off len));
      destruct (forallb (fun c => negb (isupper c)) (span s (off + 1) (len - 1)));
      destruct (isupper (byte_at s off));
      destruct (Z.eqb_spec (count_upper (span s off len)) 0);
      destruct (Z.eqb_spec (count_upper (span s off len)) len);
      destruct (Z.eqb_spec (count_upper (span s off len)) 1);
      cbn [andb]; try (exfalso; lia); casing_case.
Qed.

Lemma searched_words_found :
  forallb found_by_search (firstn 31 LOCKED_VOCAB) = true.
Proof. vm_compute. reflexivity. Qed.

Lemma found_words_searched :
  forallb (fun w => negb (found_by_search w)
                    || existsb (String.eqb w) (firstn 31 LOCKED_VOCAB))
          LOCKED_VOCAB = true.
Proof. vm_compute. reflexivity. Qed.

Lemma locked_is_searched src off len :
  is_word_locked src off len = true ->
  len < 64 /\
  exists w, In w (firstn 31 LOCKED_VOCAB) /\
            cstr (map tolower (span src off len)) = bytes_of_string w.
Proof.
  intros H. apply locked_word_is_found in H.
    destruct H as (Hlen & w & Hin & Hfound & Hkey).
    split; [exact Hlen|]. exists w. split; [|exact Hkey].
    pose proof found_words_searched as Hs. rewrite forallb_forall in Hs.
    specialize (Hs w Hin). rewrite Hfound in Hs. cbn [negb orb] in Hs.
    apply existsb_exists in Hs. destruct Hs as (w' & Hin' & Hw).
    apply String.eqb_eq in Hw. now subst w'.
Qed.

Lemma searched_is_locked src off len w :
  len < 64 -> found_by_search w = true ->
  cstr (map tolower (span src off len)) = bytes_of_string w ->
  is_word_locked src off len = true.
Proof.
  unfold found_by_search, is_word_locked. intros Hlen Hs Hkey.
  destruct (Z.geb_spec len 64); [lia|].
  cbv zeta. rewrite Hkey.
  destruct (bsearch (bytes_of_string w) LOCKED_VOCAB); [reflexivity | discriminate Hs].
Qed.

Lemma searched_word_found w :
  In w (firstn 31 LOCKED_VOCAB) -> found_by_search w = true.
Proof.
  intros Hin. pose proof searched_words_found as Hs.
  rewrite forallb_forall in Hs. exact (Hs w Hin).
Qed.

(** X3.  What [is_word_locked] accepts: a text of fewer than 64 bytes
    that, lowercased and cut at its first NUL byte, is one of the first 31
    entries of the table ([auto] to [volatile]); nothing else. *)
Theorem is_word_locked_accepts (src : list Z) (off len : Z) :
  is_word_locked src off len = true <->
  len < 64 /\
  exists w, In w (firstn 31 LOCKED_VOCAB) /\
            cstr (map tolower (span src off len)) = bytes_of_string w.
Proof.
  split; [apply locked_is_searched|].
  intros (Hlen & w & Hin & Hkey).
  exact (searched_is_locked src off len w Hlen (searched_word_found w Hin) Hkey).
Qed.

(* ================================================================== *)
(** ** What training counts                                         *)
(* ================================================================== *)

Lemma hits_S hit pos n :
  hits hit pos (S n) = (if hit pos then 1 else 0) + hits hit (pos + 1) n.
Proof.
  unfold hits. cbn [seq filter]. rewrite Z.add_0_r.
  rewrite <- seq_shift.
  assert (E : forall l,
    List.length (filter (fun k => hit (pos + Z.of_nat k)) (map S l))
    = List.length (filter (fun k => hit (pos + 1 + Z.of_nat k)) l)).
  { induction l as [|k l IH]; [reflexivity|]. cbn [map filter].
    replace (pos + Z.of_nat (S k)) with (pos + 1 + Z.of_nat k) by lia.
    destruct (hit (pos + 1 + Z.of_nat k)); cbn [List.length]; now rewrite IH. }
  destruct (hit pos); cbn [List.length]; rewrite E; lia.
Qed.

Lemma train_loop_counts text a b n : forall pos m,
  counts (train_loop n text pos m) a b mod U32
  = (counts m a b
     + hits (fun p => (byte_at text p =? a) && (byte_at text (p + 1) =? b)) pos n)
    mod U32.
Proof.
  induction n as [|n IH]; intros pos m.
  - cbn [train_loop]. unfold hits. cbn. now rewrite Z.add_0_r.
  - cbn [train_loop]. rewrite IH, hits_S. cbn [counts train_pair].
    rewrite (Z.eqb_sym (byte_at text pos)), (Z.eqb_sym (byte_at text (pos + 1))).
    destruct ((a =? byte_at text pos) && (b =? byte_at text (pos + 1))).
    + rewrite Zplus_mod_idemp_l. apply (f_equal (fun x => x mod U32)). lia.
    + apply (f_equal (fun x => x mod U32)). lia.
Qed.

Lemma train_loop_totals text a n : forall pos m,
  totals (train_loop n text pos m) a mod U32
  = (totals m a + hits (fun p => byte_at text p =? a) pos n) mod U32.
Proof.
  induction n as [|n IH]; intros pos m.
  - cbn [train_loop]. unfold hits. cbn. now rewrite Z.add_0_r.
  - cbn [train_loop]. rewrite IH, hits_S. cbn [totals train_pair].
    rewrite (Z.eqb_sym (byte_at text pos)).
    destruct (a =? byte_at text pos).
    + rewrite Zplus_mod_idemp_l. apply (f_equal (fun x => x mod U32)). lia.
    + apply (f_equal (fun x => x mod U32)). lia.
Qed.

Lemma train_pair_in_range m cur next :
  model_in_range m -> model_in_range (train_pair m cur next).
Proof.
  intros [Hc Ht]. split.
  - intros a b. cbn [counts train_pair].
    destruct (_ && _); [apply Z.mod_pos_bound; reflexivity | apply Hc].
  - intros a. cbn [totals train_pair].
    destruct (_ =? _); [apply Z.mod_pos_bound; reflexivity | apply Ht].
Qed.

Lemma train_loop_in_range text n : forall pos m,
  model_in_range m -> model_in_range (train_loop n text pos m).
Proof.
  induction n as [|n IH]; intros pos m H; [exact H|].
  cbn [train_loop]. apply IH. now apply train_pair_in_range.
Qed.

Lemma model_train_sequence_in_range m text off len :
  model_in_range m -> model_in_range (model_train_sequence m text off len).
Proof.
  intros H. unfold model_train_sequence.
  destruct (len <? 2); [exact H | now apply train_loop_in_range].
Qed.

(** X4.  What [model_train_sequence] computes.  On a model of uint32_t
    entries, [counts[a][b]] grows by the number of places where [a] is
    directly followed by [b] in the text, and [totals[a]] by the number of
    places where [a] has a successor, both modulo 2^32; the entries stay
    uint32_t.  A text of fewer than two bytes changes nothing. *)
Theorem model_train_sequence_counts_pairs (m : EntropyModel) (text : list Z)
    (off len : Z) :
  model_in_range m ->
  model_in_range (model_train_sequence m text off len) /\
  (forall a b,
     counts (model_train_sequence m text off len) a b
     = (counts m a b + pair_count text off len a b) mod U32) /\
  (forall a,
     totals (model_train_sequence m text off len) a
     = (totals m a + lead_count text off len a) mod U32) /\
  (len < 2 -> model_train_sequence m text off len = m).
Proof.
  intros Hm.
  pose proof (model_train_sequence_in_range m text off len Hm) as Hr.
  split; [exact Hr|]. destruct Hr as [Hc Ht].
  unfold pair_count, lead_count.
  split; [|split].
  - intros a b. rewrite <- (Z.mod_small _ _ (Hc a b)).
    unfold model_train_sequence.
    destruct (Z.ltb_spec len 2).
    + replace (Z.to_nat (len - 1)) with 0%nat by lia.
      unfold hits. cbn. now rewrite Z.add_0_r.
    + apply train_loop_counts.
  - intros a. rewrite <- (Z.mod_small _ _ (Ht a)).
    unfold model_train_sequence.
    destruct (Z.ltb_spec len 2).
    + replace (Z.to_nat (len - 1)) with 0%nat by lia.
      unfold hits. cbn. now rewrite Z.add_0_r.
    + apply train_loop_totals.
  - intros H. unfold model_train_sequence.
    destruct (Z.ltb_spec len 2); [reflexivity | lia].
Qed.

Lemma model_zero_in_range : model_in_range model_zero.
Proof. split; intros; cbn; unfold U32; lia. Qed.

(** Training the empty model on [abab]: [a] is followed by [b] twice. *)
Lemma model_train_sequence_counts_pairs_witness :
  counts (model_train_sequence model_zero (bytes_of_string "abab") 0 4) 97 98 = 2 /\
  counts (model_train_sequence model_zero (bytes_of_string "abab") 0 4) 98 97 = 1 /\
  totals (model_train_sequence model_zero (bytes_of_string "abab") 0 4) 97 = 2.
Proof.
  destruct (model_train_sequence_counts_pairs model_zero (bytes_of_string "abab")
              0 4 model_zero_in_range) as (_ & Hc & Ht & _).
  rewrite !Hc, Ht. vm_compute. repeat split.
Defined.

(** *** Row sums *)

Lemma row_sum_ext (f g : nat -> Z) n : forall s,
  (forall k, (s <= k < s + n)%nat -> f k = g k) ->
  fold_right Z.add 0 (map f (seq s n)) = fold_right Z.add 0 (map g (seq s n)).
Proof.
  induction n as [|n IH]; intros s H; [reflexivity|].
  cbn [seq map fold_right]. rewrite (H s) by lia. f_equal.
  apply IH. intros k Hk. apply H. lia.
Qed.

(** Changing one summand changes the sum by as much. *)
Lemma row_sum_update (f g : nat -> Z) j n : forall s,
  (s <= j < s + n)%nat ->
  (forall k, k <> j -> f k = g k) ->
  fold_right Z.add 0 (map g (seq s n))
  = fold_right Z.add 0 (map f (seq s n)) + (g j - f j).
Proof.
  induction n as [|n IH]; intros s Hj H; [lia|].
  cbn [seq map fold_right].
  destruct (Nat.eq_dec s j) as [->|Hne].
  - rewrite (row_sum_ext f g n (S j)); [lia|].
    intros k Hk. apply H. lia.
  - rewrite (IH (S s)) by (lia || assumption).
    rewrite (H s Hne). lia.
Qed.

Lemma train_pair_row_sum m cur next a :
  is_byte next ->
  row_sum (train_pair m cur next) a mod U32
  = (row_sum m a + (if a =? cur then 1 else 0)) mod U32.
Proof.
  intros Hb. unfold row_sum.
  destruct (Z.eqb_spec a cur) as [->|Hne].
  - rewrite (row_sum_update (fun b => counts m cur (Z.of_nat b))
               (fun b => counts (train_pair m cur next) cur (Z.of_nat b))
               (Z.to_nat next) 256 0%nat).
    + cbn [counts train_pair]. rewrite Z.eqb_refl.
      rewrite Z2Nat.id by (unfold is_byte in Hb; lia).
      rewrite Z.eqb_refl. cbn [andb].
      set (s := fold_right Z.add 0 _). set (c := counts m cur next).
      replace (s + ((c + 1) mod U32 - c)) with ((c + 1) mod U32 + (s - c)) by lia.
      rewrite Zplus_mod_idemp_l. apply (f_equal (fun x => x mod U32)). lia.
    + unfold is_byte in Hb. lia.
    + intros k Hk. cbn [counts train_pair]. rewrite Z.eqb_refl. cbn [andb].
      destruct (Z.eqb_spec (Z.of_nat k) next); [|reflexivity].
      exfalso. apply Hk. lia.
  - rewrite Z.add_0_r. apply (f_equal (fun x => x mod U32)). apply row_sum_ext. intros k _.
    cbn [counts train_pair].
    destruct (Z.eqb_spec a cur); [contradiction | reflexivity].
Qed.

Lemma byte_at_is_byte text p : Forall is_byte text -> is_byte (byte_at text p).
Proof.
  intros H. unfold byte_at. destruct (p <? 0); [unfold is_byte; lia|].
  destruct (Nat.lt_ge_cases (Z.to_nat p) (List.length text)) as [Hlt|Hge].
  - rewrite Forall_forall in H. apply H. now apply nth_In.
  - rewrite nth_overflow by exact Hge. unfold is_byte. lia.
Qed.

Lemma byte_of_ascii_is_byte c : is_byte (byte_of_ascii c).
Proof.
  unfold is_byte, byte_of_ascii. pose proof (N_ascii_bounded c) as H. lia.
Qed.

Lemma bytes_of_string_are_bytes s : Forall is_byte (bytes_of_string s).
Proof.
  unfold bytes_of_string. apply Forall_forall. intros x Hx.
  apply in_map_iff in Hx. destruct Hx as (c & <- & _).
  apply byte_of_ascii_is_byte.
Qed.

Lemma train_pair_totals_match m cur next :
  is_byte next -> totals_match_rows m -> totals_match_rows (train_pair m cur next).
Proof.
  intros Hb H a. rewrite train_pair_row_sum by exact Hb.
  cbn [totals train_pair]. destruct (a =? cur).
  - rewrite Z.mod_mod by (unfold U32; lia).
    rewrite <- Zplus_mod_idemp_l, (H a), Zplus_mod_idemp_l. reflexivity.
  - rewrite Z.add_0_r. apply H.
Qed.

Lemma train_loop_totals_match text n : Forall is_byte text -> forall pos m,
  totals_match_rows m -> totals_match_rows (train_loop n text pos m).
Proof.
  intros Ht. induction n as [|n IH]; intros pos m H; [exact H|].
  cbn [train_loop]. apply IH. apply train_pair_totals_match; [|exact H].
  now apply byte_at_is_byte.
Qed.

Lemma model_zero_totals_match : totals_match_rows model_zero.
Proof. intros a. reflexivity. Qed.

(* ================================================================== *)
(** ** Registry: table and log in step                              *)
(* ================================================================== *)

Lemma set_slot_eq tbl idx v : set_slot tbl idx v idx = v.
Proof. unfold set_slot. now rewrite Z.eqb_refl. Qed.

Lemma set_slot_neq tbl idx v j : j <> idx -> set_slot tbl idx v j = tbl j.
Proof. unfold set_slot. intros H. destruct (Z.eqb_spec j idx); [contradiction | reflexivity]. Qed.

Lemma has_seen_loop_ext tbl tbl' id fuel : (forall j, tbl j = tbl' j) ->
  forall idx, has_seen_loop fuel tbl id idx = has_seen_loop fuel tbl' id idx.
Proof.
  intros E. induction fuel as [|f IH]; intros idx; [reflexivity|].
  cbn [has_seen_loop]. rewrite E, IH. reflexivity.
Qed.

Lemma has_seen_ext tbl tbl' id :
  (forall j, tbl j = tbl' j) -> has_seen_id tbl id = has_seen_id tbl' id.
Proof. intros E. unfold has_seen_id. now apply has_seen_loop_ext. Qed.

(** The insertion loop alone, as [load_registry] runs it: the id is found
    afterwards. *)
Lemma free_slot_insert_found tbl id idx :
  free_slot tbl id = Some idx ->
  in_table idx /\ tbl idx = 0 /\
  (id <> 0 -> has_seen_id (set_slot tbl idx id) id = Some true).
Proof.
  intros H. apply free_slot_spec in H. destruct H as (k & Hk & Hex & Hbefore).
  set (home := id mod SEEN_TABLE_SIZE) in *.
  unfold free_exit in Hex.
  destruct (Z.eqb_spec (tbl (slot home k)) 0) as [Hz|]; [|discriminate].
  injection Hex as <-.
  split; [apply slot_in_table|]. split; [exact Hz|]. intros Hid.
  set (tbl' := set_slot tbl (slot home k) id).
  assert (Hnz : forall k', (k' <= k)%nat -> tbl' (slot home k') <> 0).
  { intros k' Hk'. unfold tbl'.
    destruct (Z.eq_dec (slot home k') (slot home k)) as [E|E].
    - rewrite E, set_slot_eq. exact Hid.
    - rewrite set_slot_neq by exact E.
      assert (Hlt : (k' < k)%nat).
      { destruct (Nat.eq_dec k' k) as [->|]; [contradiction | lia]. }
      specialize (Hbefore k' Hlt). unfold free_exit in Hbefore.
      destruct (Z.eqb_spec (tbl (slot home k')) 0); [discriminate | assumption]. }
  destruct (probe_terminates (seen_exit tbl' id) home (slot home k))
    as (b & Hb).
  - apply home_in_table.
  - apply slot_in_table.
  - unfold seen_exit, tbl'. rewrite set_slot_eq.
    destruct (id =? 0); [discriminate|]. rewrite Z.eqb_refl. discriminate.
  - assert (Hs : has_seen_id tbl' id = Some b)
      by (unfold has_seen_id; rewrite has_seen_loop_probe; exact Hb).
    destruct b; [exact Hs|]. exfalso.
    apply has_seen_id_spec in Hs. fold home in Hs.
    destruct Hs as (k1 & _ & Hzero & Hnone).
    apply seen_exit_false in Hzero.
    destruct (Nat.le_gt_cases k1 k) as [Hle|Hgt].
    + exact (Hnz k1 Hle Hzero).
    + specialize (Hnone k Hgt). apply seen_exit_none in Hnone.
      unfold tbl' in Hnone. rewrite set_slot_eq in Hnone. tauto.
Qed.

Lemma set_slot_closed tbl idx id :
  probe_closed tbl -> tbl idx = 0 ->
  (id <> 0 -> has_seen_id (set_slot tbl idx id) id = Some true) ->
  probe_closed (set_slot tbl idx id).
Proof.
  intros Hc Hz Hfound j Hj Hnz.
  destruct (Z.eq_dec j idx) as [->|Hne].
  - rewrite set_slot_eq in *. now apply Hfound.
  - rewrite set_slot_neq in * by exact Hne.
    apply has_seen_persists; [now apply Hc | exact Hz].
Qed.

Lemma set_slot_members tbl idx id x :
  probe_closed tbl -> tbl idx = 0 ->
  (id <> 0 -> has_seen_id (set_slot tbl idx id) id = Some true) ->
  x <> 0 ->
  (has_seen_id (set_slot tbl idx id) x = Some true <->
   has_seen_id tbl x = Some true \/ x = id).
Proof.
  intros Hc Hz Hfound Hx. split.
  - intros H. destruct (Z.eq_dec x id) as [E|E]; [now right | left].
    apply has_seen_id_spec in H. destruct H as (k & _ & Ht & _).
    apply seen_exit_true in Ht. destruct Ht as [_ Ht].
    set (j := slot (x mod SEEN_TABLE_SIZE) k) in *.
    destruct (Z.eq_dec j idx) as [Ej|Ej].
    + rewrite Ej, set_slot_eq in Ht. congruence.
    + rewrite set_slot_neq in Ht by exact Ej.
      rewrite <- Ht. apply Hc; [apply slot_in_table | congruence].
  - intros [H | ->]; [now apply has_seen_persists | apply Hfound; exact Hx].
Qed.

Lemma set_slot_zero_ext tbl idx : tbl idx = 0 ->
  forall j, tbl j = set_slot tbl idx 0 j.
Proof.
  intros Hz j. destruct (Z.eq_dec j idx) as [->|Hne].
  - now rewrite set_slot_eq.
  - now rewrite set_slot_neq.
Qed.

Lemma registry_agrees_insert tbl log idx id (rec : VocabRecord) :
  registry_agrees (registry_of tbl log) log ->
  tbl idx = 0 ->
  (id <> 0 -> has_seen_id (set_slot tbl idx id) id = Some true) ->
  record_id rec = id ->
  registry_agrees (registry_of (set_slot tbl idx id) (log ++ [rec])) (log ++ [rec]).
Proof.
  intros (_ & Hc & Hm) Hz Hfound Hrec. cbn [registry_of seen_hashes vocab_file] in *.
  split; [reflexivity|]. cbn [registry_of seen_hashes].
  split; [now apply set_slot_closed|].
  intros x Hx. rewrite map_app, in_app_iff. cbn [map In]. rewrite Hrec.
  destruct (Z.eq_dec id 0) as [->|Hid].
  - rewrite <- (has_seen_ext tbl _ x (set_slot_zero_ext tbl idx Hz)).
    rewrite (Hm x Hx). intuition congruence.
  - rewrite (set_slot_members tbl idx id x Hc Hz Hfound Hx), (Hm x Hx).
    intuition congruence.
Qed.

Lemma registry_agrees_eta r log :
  registry_agrees r log -> r = registry_of (seen_hashes r) log.
Proof. intros (Hlog & _). destruct r as [tbl f]. cbn in *. now subst f. Qed.

(** One call of [register_token] on a non-zero id, with table and log in
    step and an empty slot left. *)
Lemma register_token_insert_step (r : Registry) (log : list VocabRecord)
    (id : Z) (text : list Z) (off len : Z) :
  registry_agrees r log -> has_empty_slot (seen_hashes r) ->
  id <> 0 -> 0 <= len ->
  exists r' log',
    register_token id text off len r = Some r' /\
    registry_agrees r' log' /\
    log' = (if in_dec Z.eq_dec id (map record_id log) then log
            else log ++ [(id, Z.min len 255, span text off (Z.min len 255))]) /\
    (In id (map record_id log) -> r' = r) /\
    (forall x, has_seen_id (seen_hashes r') x = Some true <->
               has_seen_id (seen_hashes r) x = Some true \/ x = id).
Proof.
  intros Hagree Hslot Hid Hlen.
  pose proof Hagree as (Hlog & Hc & Hm).
  unfold register_token.
  destruct (has_seen_terminates _ id Hslot) as ([|] & Hb); rewrite Hb.
  - (* present *)
    pose proof (proj1 (Hm id Hid) Hb) as Hin.
    exists r, log. split; [reflexivity|]. split; [exact Hagree|].
    split; [destruct (in_dec _ _ _); [reflexivity | contradiction]|].
    split; [reflexivity|].
    intros x. split; [now left | intros [H | ->]; assumption].
  - (* absent *)
    assert (Hnin : ~ In id (map record_id log)).
    { intros Hin. apply (Hm id Hid) in Hin. congruence. }
    destruct (free_slot_after_miss _ _ Hb) as (idx & Hfree & Hidx & Hz & Hfound).
    rewrite Hfree, Hlog. rewrite (clamp_len_min len Hlen).
    set (rec := (id, Z.min len 255, span text off (Z.min len 255))).
    eexists. exists (log ++ [rec]). split; [reflexivity|].
    split; [|split; [|split]].
    + rewrite (registry_agrees_eta r log Hagree) in Hagree.
      exact (registry_agrees_insert _ _ idx id rec Hagree Hz Hfound eq_refl).
    + destruct (in_dec _ _ _); [contradiction | reflexivity].
    + intros Hin. contradiction.
    + intros x. cbn [seen_hashes].
      destruct (Z.eq_dec x 0) as [->|Hx].
      * split.
        -- intros H. now apply has_seen_zero in H.
        -- intros [H | H]; [now apply has_seen_zero in H | congruence].
      * apply set_slot_members; assumption.
Qed.

(** When both tables have an empty slot and the second finds what the
    first finds and [id], the lookup of every other id answers the same. *)
Lemma lookup_unchanged tbl tbl' id :
  has_empty_slot tbl -> has_empty_slot tbl' ->
  (forall x, has_seen_id tbl' x = Some true <->
             has_seen_id tbl x = Some true \/ x = id) ->
  forall x, x <> id -> has_seen_id tbl' x = has_seen_id tbl x.
Proof.
  intros Hs Hs' Hiff x Hx.
  destruct (has_seen_terminates tbl x Hs) as (b & Hb).
  destruct (has_seen_terminates tbl' x Hs') as (b' & Hb').
  rewrite Hb, Hb'. destruct b'.
  - apply Hiff in Hb'. destruct Hb' as [H | H]; [|contradiction].
    rewrite Hb in H. symmetry. exact H.
  - destruct b; [|reflexivity].
    rewrite <- Hb'. apply Hiff. now left.
Qed.

(** When the second table has no empty slot left, is filled by probing
    only, and finds what the first finds and [id], the lookup of every
    other id that the first table answers with [false] never leaves. *)
Lemma lookup_lost tbl tbl' id :
  probe_closed tbl' -> ~ has_empty_slot tbl' ->
  (forall x, has_seen_id tbl' x = Some true <->
             has_seen_id tbl x = Some true \/ x = id) ->
  forall x, x <> id -> has_seen_id tbl x = Some false ->
            has_seen_id tbl' x = None.
Proof.
  intros Hc Hfull Hiff x Hx Hmiss.
  unfold has_seen_id. apply has_seen_diverges; [exact Hfull|].
  intros j Hj E.
  destruct (Z.eq_dec x 0) as [->|Hx0].
  - apply Hfull. exists j. split; [exact Hj | exact E].
  - assert (Hf : has_seen_id tbl' (tbl' j) = Some true).
    { apply Hc; [exact Hj|]. rewrite E. exact Hx0. }
    rewrite E in Hf. apply Hiff in Hf. destruct Hf as [Hf | Hf]; [|contradiction].
    rewrite Hmiss in Hf. discriminate Hf.
Qed.

(** X5.  [register_token] on a non-zero id keeps table and log in step.
    With an empty slot left it returns; an id that the lookup finds
    leaves the registry as it is; any other id gets one record, with its
    length clamped to 255.  Afterwards the lookup finds what it found
    before, and the id.  For every other id the lookup answers as before
    as long as the call has left an empty slot; when the call has filled
    the last one, the lookup of an id that was answered with [false]
    never leaves its loop. *)
Theorem register_token_adds_to_set (r : Registry) (log : list VocabRecord)
    (id : Z) (text : list Z) (off len : Z) :
  registry_agrees r log -> has_empty_slot (seen_hashes r) ->
  id <> 0 -> 0 <= len ->
  exists r' log',
    register_token id text off len r = Some r' /\
    registry_agrees r' log' /\
    log' = (if in_dec Z.eq_dec id (map record_id log) then log
            else log ++ [(id, Z.min len 255, span text off (Z.min len 255))]) /\
    (In id (map record_id log) -> r' = r) /\
    (forall x, has_seen_id (seen_hashes r') x = Some true <->
               has_seen_id (seen_hashes r) x = Some true \/ x = id) /\
    (has_empty_slot (seen_hashes r') ->
     forall x, x <> id ->
       has_seen_id (seen_hashes r') x = has_seen_id (seen_hashes r) x) /\
    (~ has_empty_slot (seen_hashes r') ->
     forall x, x <> id -> has_seen_id (seen_hashes r) x = Some false ->
       has_seen_id (seen_hashes r') x = None).
Proof.
  intros Hagree Hslot Hid Hlen.
  destruct (register_token_insert_step r log id text off len Hagree Hslot Hid Hlen)
    as (r' & log' & Hreg & Hagree' & Hlog' & Hsame & Hiff).
  exists r', log'. repeat (split; [assumption|]). split.
  - intros Hslot'. exact (lookup_unchanged _ _ id Hslot Hslot' Hiff).
  - intros Hfull. destruct Hagree' as (_ & Hc' & _).
    exact (lookup_lost _ _ id Hc' Hfull Hiff).
Qed.

Lemma init_registry_agrees : registry_agrees (registry_of init_registry []) [].
Proof.
  split; [reflexivity|]. split.
  - intros j _ Hnz. now contradiction Hnz.
  - intros x Hx. split; [|intros []].
    intros H. apply has_seen_id_spec in H. destruct H as (k & _ & Ht & _).
    apply seen_exit_true in Ht. unfold init_registry in Ht. tauto.
Qed.

Lemma init_registry_has_empty_slot : has_empty_slot init_registry.
Proof.
  exists 0. split; [unfold in_table, SEEN_TABLE_SIZE; lia | reflexivity].
Qed.

(** Registering [7] on the empty registry: one record, 7 is found from
    then on and the lookup of every other id is as before. *)
Lemma register_token_adds_to_set_witness :
  exists r' log',
    register_token 7 (bytes_of_string "ab") 0 2 empty_registry = Some r' /\
    registry_agrees r' log' /\
    log' = [(7, 2, [97; 98])] /\
    (In 7 (map record_id (@nil VocabRecord)) -> r' = empty_registry) /\
    (forall x, has_seen_id (seen_hashes r') x = Some true <->
               has_seen_id (seen_hashes empty_registry) x = Some true \/ x = 7) /\
    (has_empty_slot (seen_hashes r') ->
     forall x, x <> 7 ->
       has_seen_id (seen_hashes r') x = has_seen_id (seen_hashes empty_registry) x) /\
    (~ has_empty_slot (seen_hashes r') ->
     forall x, x <> 7 -> has_seen_id (seen_hashes empty_registry) x = Some false ->
       has_seen_id (seen_hashes r') x = None).
Proof.
  exact (register_token_adds_to_set empty_registry [] 7 (bytes_of_string "ab") 0 2
           init_registry_agrees init_registry_has_empty_slot
           ltac:(discriminate) ltac:(discriminate)).
Defined.

Lemma load_registry_agrees recs : forall tbl done tbl',
  registry_agrees (registry_of tbl done) done ->
  load_registry recs tbl = Some tbl' ->
  registry_agrees (registry_of tbl' (done ++ recs)) (done ++ recs).
Proof.
  induction recs as [|[[id l] bytes] rest IH]; intros tbl done tbl' Hagree Hload.
  - cbn [load_registry] in Hload. injection Hload as <-.
    now rewrite app_nil_r.
  - cbn [load_registry] in Hload.
    destruct (free_slot tbl id) as [idx|] eqn:Hfree; [|discriminate].
    destruct (free_slot_insert_found _ _ _ Hfree) as (_ & Hz & Hfound).
    change (done ++ (id, l, bytes) :: rest)
      with (done ++ [(id, l, bytes)] ++ rest).
    rewrite app_assoc.
    apply (IH (set_slot tbl idx id)); [|exact Hload].
    now apply registry_agrees_insert.
Qed.

(** [main] at the entry of its loop: the registry loaded, the arena
    empty. *)
Lemma boot_spec existing st_size w :
  boot existing st_size = Some w ->
  exists tbl,
    load_registry existing init_registry = Some tbl /\
    w = mkWorld (mkArena [] st_size) (mkRegistry tbl (Some existing))
                (pretrain 20 model_zero).
Proof.
  unfold boot. destruct (load_registry existing init_registry) as [tbl|];
    [|discriminate].
  intros [= <-]. now exists tbl.
Qed.

Lemma NoDup_map_of_nat l : NoDup l -> NoDup (map Z.of_nat l).
Proof.
  induction 1 as [|x l Hx Hnd IH]; cbn [map]; constructor; [|exact IH].
  intros Hin. apply in_map_iff in Hin. destruct Hin as (y & E & Hy).
  apply Nat2Z.inj in E. now subst y.
Qed.

(** Among [n] slots of which fewer than [n] are in use, one is empty. *)
Lemma empty_slot_among (n : nat) (tbl : Z -> Z) (l : list Z) :
  (forall j, 0 <= j < Z.of_nat n -> tbl j <> 0 -> In j l) ->
  (List.length l < n)%nat ->
  exists j, 0 <= j < Z.of_nat n /\ tbl j = 0.
Proof.
  intros Hu Hlen.
  remember (map Z.of_nat (seq 0 n)) as all eqn:Eall.
  assert (Hall : forall j, In j all -> 0 <= j < Z.of_nat n).
  { intros j Hin. rewrite Eall in Hin. apply in_map_iff in Hin.
    destruct Hin as (k & <- & Hk). apply in_seq in Hk. lia. }
  destruct (existsb (fun j => tbl j =? 0) all) eqn:E.
  - apply existsb_exists in E. destruct E as (j & Hin & Hz).
    exists j. split; [now apply Hall | now apply Z.eqb_eq].
  - exfalso.
    assert (Hincl : incl all l).
    { intros j Hin. apply Hu; [now apply Hall|]. intros Hz.
      assert (Ht : existsb (fun j => tbl j =? 0) all = true)
        by (apply existsb_exists; exists j; split; [exact Hin | now apply Z.eqb_eq]).
      rewrite E in Ht. discriminate Ht. }
    assert (Hnd : NoDup all)
      by (rewrite Eall; apply NoDup_map_of_nat, seq_NoDup).
    pose proof (NoDup_incl_length Hnd Hincl) as Hle.
    rewrite Eall, length_map, length_seq in Hle. lia.
Qed.

(** Fewer slots in use than the table has: one of them is empty. *)
Lemma empty_slot_by_count tbl l :
  used_within tbl l -> Z.of_nat (List.length l) < SEEN_TABLE_SIZE ->
  has_empty_slot tbl.
Proof.
  intros Hu Hlen. unfold has_empty_slot, in_table.
  rewrite <- probe_fuel_size in *.
  apply (empty_slot_among probe_fuel tbl l); [|lia].
  intros j Hj. apply Hu. unfold in_table. rewrite <- probe_fuel_size. exact Hj.
Qed.

Lemma used_within_set_slot tbl l idx v :
  used_within tbl l -> used_within (set_slot tbl idx v) (idx :: l).
Proof.
  intros Hu j Hj Hnz. destruct (Z.eq_dec j idx) as [->|Hne]; [now left | right].
  rewrite set_slot_neq in Hnz by exact Hne. now apply Hu.
Qed.

Lemma load_registry_fits recs : forall tbl l,
  used_within tbl l ->
  Z.of_nat (List.length l) + Z.of_nat (List.length recs) < SEEN_TABLE_SIZE ->
  exists tbl' l', load_registry recs tbl = Some tbl' /\ used_within tbl' l' /\
    List.length l' = (List.length l + List.length recs)%nat.
Proof.
  induction recs as [|[[id n] bytes] rest IH]; intros tbl l Hu Hlen.
  - exists tbl, l. split; [reflexivity|]. split; [exact Hu|]. cbn. lia.
  - cbn [List.length] in Hlen. cbn [load_registry].
    destruct (free_slot_terminates tbl id) as (idx & -> & _).
    { apply (empty_slot_by_count tbl l Hu). lia. }
    destruct (IH (set_slot tbl idx id) (idx :: l)) as (tbl' & l' & H1 & H2 & H3).
    { now apply used_within_set_slot. }
    { cbn [List.length]. lia. }
    exists tbl', l'. split; [exact H1|]. split; [exact H2|].
    cbn [List.length] in *. lia.
Qed.

Lemma init_registry_unused : used_within init_registry [].
Proof. intros j _ Hnz. now contradiction Hnz. Qed.

(** X6.  After [init_registry] and [load_registry] the lookup finds
    exactly the non-zero ids of the records of nset_vocab.bin, and [main]
    enters its loop with table and log in step. *)
Theorem load_registry_holds_the_log (existing : list VocabRecord)
    (st_size : Z) (w : World) :
  boot existing st_size = Some w ->
  registry_agrees (registry w) existing /\
  tokens (arena w) = [] /\ capacity (arena w) = st_size.
Proof.
  intros Hboot. destruct (boot_spec _ _ _ Hboot) as (tbl & E & ->).
  cbn [registry arena tokens capacity].
  split; [|split; reflexivity].
  exact (load_registry_agrees existing init_registry [] tbl init_registry_agrees E).
Qed.

(** A vocabulary file of three records, the id 7 twice: after loading, 7
    and 9 are found and no other id. *)
Lemma load_registry_holds_the_log_witness :
  exists w,
    boot [(7, 2, [97; 98]); (9, 1, [99]); (7, 2, [97; 98])] 6 = Some w /\
    registry_agrees (registry w) [(7, 2, [97; 98]); (9, 1, [99]); (7, 2, [97; 98])] /\
    tokens (arena w) = [] /\ capacity (arena w) = 6.
Proof.
  destruct (load_registry_fits [(7, 2, [97; 98]); (9, 1, [99]); (7, 2, [97; 98])]
              init_registry [] init_registry_unused ltac:(vm_compute; reflexivity))
    as (tbl & _ & Hload & _).
  assert (Hboot : boot [(7, 2, [97; 98]); (9, 1, [99]); (7, 2, [97; 98])] 6
                  = Some (mkWorld (mkArena [] 6)
                            (mkRegistry tbl
                               (Some [(7, 2, [97; 98]); (9, 1, [99]); (7, 2, [97; 98])]))
                            (pretrain 20 model_zero)))
    by (unfold boot; rewrite Hload; reflexivity).
  eexists. split; [exact Hboot|].
  exact (load_registry_holds_the_log _ 6 _ Hboot).
Defined.

(** X7.  [load_registry] returns on every file with fewer records than
    the table has slots, and leaves an empty slot; [main] then reaches its
    loop. *)
Theorem load_registry_returns (existing : list VocabRecord) (st_size : Z) :
  Z.of_nat (List.length existing) < SEEN_TABLE_SIZE ->
  exists w, boot existing st_size = Some w /\
            has_empty_slot (seen_hashes (registry w)).
Proof.
  intros Hlen.
  destruct (load_registry_fits existing init_registry [] init_registry_unused)
    as (tbl & l & Hload & Hu & Hl).
  { cbn [List.length]. lia. }
  unfold boot. rewrite Hload. eexists. split; [reflexivity|].
  cbn [registry seen_hashes]. apply (empty_slot_by_count tbl l Hu).
  cbn [List.length] in Hl. lia.
Qed.

(** A file that holds the id 7 twice. *)
Lemma load_registry_returns_witness :
  exists w, boot [(7, 1, [97]); (7, 1, [97])] 10 = Some w /\
            has_empty_slot (seen_hashes (registry w)).
Proof.
  apply (load_registry_returns [(7, 1, [97]); (7, 1, [97])] 10).
  vm_compute. reflexivity.
Defined.

Lemma register_token_agrees id text off len r r' log :
  registry_agrees r log -> register_token id text off len r = Some r' ->
  exists log', registry_agrees r' log'.
Proof.
  intros Hagree Hreg. pose proof (registry_agrees_eta r log Hagree) as Er.
  unfold register_token in Hreg.
  destruct (has_seen_id (seen_hashes r) id) as [[|]|] eqn:Hb; [| |discriminate].
  - injection Hreg as <-. now exists log.
  - destruct (free_slot_after_miss _ _ Hb) as (idx & Hfree & _ & Hz & Hfound).
    rewrite Hfree, (proj1 Hagree) in Hreg. injection Hreg as <-.
    rewrite Er in Hagree. eexists.
    exact (registry_agrees_insert _ _ idx id
             (id, clamp_len len, span text off (clamp_len len))
             Hagree Hz Hfound eq_refl).
Qed.

Lemma register_all_agrees calls : forall r log,
  registry_agrees r log ->
  exists log', registry_agrees (register_all calls r) log'.
Proof.
  induction calls as [|[[[id text] off] len] rest IH]; intros r log Hagree;
    cbn [register_all]; [now exists log|].
  destruct (register_token id text off len r) as [r'|] eqn:Hreg; [|now exists log].
  destruct (register_token_agrees _ _ _ _ _ _ _ Hagree Hreg) as (log' & Hagree').
  exact (IH r' log' Hagree').
Qed.

Lemma register_all_keeps_found calls x : forall r log,
  vocab_file r = Some log ->
  has_seen_id (seen_hashes r) x = Some true ->
  has_seen_id (seen_hashes (register_all calls r)) x = Some true.
Proof.
  induction calls as [|[[[id text] off] len] rest IH]; intros r log Hlog Hx;
    cbn [register_all]; [exact Hx|].
  destruct (register_token id text off len r) as [r'|] eqn:Hreg; [|exact Hx].
  destruct (register_token_step _ _ _ _ _ _ _ Hlog Hreg)
    as [[-> _] | (_ & Hlog' & _ & Hkeep)].
  - exact (IH r log Hlog Hx).
  - exact (IH r' _ Hlog' (Hkeep x Hx)).
Qed.

(** When the table still has an empty slot after a sequence of calls,
    every call returned, and every non-zero id of the calls is found. *)
Lemma register_all_completes calls : forall r log,
  vocab_file r = Some log ->
  has_empty_slot (seen_hashes (register_all calls r)) ->
  Forall (fun c => call_id c <> 0 ->
            has_seen_id (seen_hashes (register_all calls r)) (call_id c) = Some true)
         calls.
Proof.
  induction calls as [|[[[id text] off] len] rest IH]; intros r log Hlog Hslot;
    [constructor|].
  cbn [register_all] in *.
  destruct (register_token id text off len r) as [r'|] eqn:Hreg.
  - assert (Hlog' : exists log', vocab_file r' = Some log').
    { destruct (register_token_step _ _ _ _ _ _ _ Hlog Hreg)
        as [[-> _] | (_ & Hlog' & _)]; eauto. }
    destruct Hlog' as (log' & Hlog').
    constructor; [|exact (IH r' log' Hlog' Hslot)].
    unfold call_id. cbn [fst]. intros Hid.
    apply (register_all_keeps_found rest id r' log' Hlog').
    destruct (register_token_step _ _ _ _ _ _ _ Hlog Hreg)
      as [[-> Hs] | (_ & _ & Hnow & _)]; [exact Hs | now apply Hnow].
  - exfalso.
    destruct (register_token_returns id text off len r Hslot) as (r' & Hr').
    congruence.
Qed.

(** X8.  Registry idempotence across runs.  A first run loads the file
    [log0], makes the calls [calls] and leaves the file [log1]; if its
    table has an empty slot at the end, a second run that loads [log1]
    finds every non-zero id of the same calls: each of them returns and
    leaves table and file as they are. *)
Theorem second_run_registers_nothing (calls : list (Z * list Z * Z * Z))
    (log0 log1 : list VocabRecord) (tbl0 tbl1 : Z -> Z) :
  load_registry log0 init_registry = Some tbl0 ->
  has_empty_slot (seen_hashes (register_all calls (registry_of tbl0 log0))) ->
  vocab_file (register_all calls (registry_of tbl0 log0)) = Some log1 ->
  load_registry log1 init_registry = Some tbl1 ->
  Forall (fun '(id, text, off, len) =>
            id <> 0 ->
            register_token id text off len (registry_of tbl1 log1)
            = Some (registry_of tbl1 log1))
         calls.
Proof.
  intros Hload0 Hslot Hlog1 Hload1.
  pose proof (load_registry_agrees log0 init_registry [] tbl0
                init_registry_agrees Hload0) as Hagree0.
  cbn [app] in Hagree0.
  destruct (register_all_agrees calls _ _ Hagree0) as (log1' & Hagree1).
  assert (log1' = log1) by (destruct Hagree1 as (H & _); congruence). subst log1'.
  pose proof (load_registry_agrees log1 init_registry [] tbl1
                init_registry_agrees Hload1) as Hagree2.
  cbn [app] in Hagree2.
  pose proof (register_all_completes calls (registry_of tbl0 log0) log0 eq_refl Hslot)
    as Hfound.
  revert Hfound. apply Forall_impl. intros [[[id text] off] len] Hc Hid.
  unfold call_id in Hc. cbn [fst] in Hc. specialize (Hc Hid).
  apply (proj2 (proj2 Hagree1) _ Hid) in Hc.
  apply (proj2 (proj2 Hagree2) _ Hid) in Hc.
  unfold register_token. cbn [registry_of seen_hashes] in *. now rewrite Hc.
Qed.

(** The run that registers [ab] with the id 7, and the run after it. *)
Lemma second_run_registers_nothing_witness :
  exists tbl1,
    load_registry [(7, 2, [97; 98])] init_registry = Some tbl1 /\
    register_token 7 (bytes_of_string "ab") 0 2 (registry_of tbl1 [(7, 2, [97; 98])])
    = Some (registry_of tbl1 [(7, 2, [97; 98])]).
Proof.
  destruct (load_registry_fits [(7, 2, [97; 98])] init_registry []
              init_registry_unused ltac:(vm_compute; reflexivity))
    as (tbl1 & _ & Hload & _).
  exists tbl1. split; [exact Hload|].
  assert (Hslot : has_empty_slot
            (seen_hashes (register_all [(7, bytes_of_string "ab", 0, 2)]
                                       (registry_of init_registry [])))).
  { exists 0. split; [unfold in_table, SEEN_TABLE_SIZE; lia | vm_compute; reflexivity]. }
  pose proof (second_run_registers_nothing [(7, bytes_of_string "ab", 0, 2)]
                [] [(7, 2, [97; 98])] init_registry tbl1 eq_refl Hslot
                ltac:(vm_compute; reflexivity) Hload) as H.
  inversion H as [|c l Hc _]. apply Hc. discriminate.
Defined.

(* ================================================================== *)
(** ** What the main loop keeps true                                *)
(* ================================================================== *)

Lemma keeps_ret {A} (I : World -> Prop) (a : A) : keeps I (ret a).
Proof. intros w Hw. exact Hw. Qed.

Lemma keeps_bind {A B} (I : World -> Prop) (m : M A) (k : A -> M B) :
  keeps I m -> (forall a, keeps I (k a)) -> keeps I (bind m k).
Proof.
  intros Hm Hk w Hw. specialize (Hm w Hw). unfold bind.
  destruct (m w) as [a w1|w1]; cbn [final] in Hm; [now apply Hk | exact Hm].
Qed.

Lemma keeps_get_model (I : World -> Prop) : keeps I get_model.
Proof. intros w Hw. exact Hw. Qed.

Section Invariant.

Variable float_gt5 : Z -> Z -> bool.

Variables (code : list Z) (st_size : Z).

Variable I : World -> Prop.

Hypothesis I_push : forall t, erase t = t -> keeps I (arena_push t code st_size).

Hypothesis I_joiner : keeps I mark_joiner.

Hypothesis I_train : forall off len, keeps I (train code off len).

Lemma split_loop_keeps off len d sp n : forall i start te,
  keeps I (split_loop float_gt5 n code off len d sp st_size i start te).
Proof.
  induction n as [|n IH]; intros i start te; [apply keeps_ret|].
  cbn [split_loop].
  destruct (byte_at code (off + i) =? 95).
  - apply keeps_bind.
    + destruct (i >? start); [|apply keeps_ret].
      apply keeps_bind; [now apply I_push | intros; apply keeps_ret].
    + intros te'. apply keeps_bind.
      * destruct (te' >? 0); [apply I_joiner | apply keeps_ret].
      * intros _. apply IH.
  - destruct (i <? len - 1); [|apply IH].
    apply keeps_bind; [apply keeps_get_model|]. intros m.
    destruct (soft_split float_gt5 m code off len start i); [apply IH | |];
      (apply keeps_bind; [now apply I_push | intros _; apply IH]).
Qed.

Lemma process_identifier_keeps off len d sp :
  keeps I (process_identifier float_gt5 code off len d sp st_size).
Proof.
  unfold process_identifier. destruct (is_word_locked code off len).
  - apply keeps_bind; [now apply I_push | intros _; apply I_train].
  - apply keeps_bind; [apply I_train|]. intros _.
    apply keeps_bind; [apply split_loop_keeps|]. intros [start te].
    destruct (start <? len); [now apply I_push | apply keeps_ret].
Qed.

Lemma blob_loop_keeps start d n : forall i sub_start,
  keeps I (blob_loop n code st_size start d i sub_start).
Proof.
  induction n as [|n IH]; intros i sub_start; [apply keeps_ret|].
  cbn [blob_loop]. destruct (_ || _); [|apply IH].
  apply keeps_bind; [|intros _; apply IH].
  destruct (i >? sub_start); [now apply I_push | apply keeps_ret].
Qed.

Lemma process_leaf_keeps lf : keeps I (process_leaf float_gt5 code st_size lf).
Proof.
  unfold process_leaf. destruct (_ >? 0); [|apply keeps_ret].
  intros w Hw. destruct (eaten code (start_byte lf) (arena w)); [exact Hw|].
  destruct (classify code (node_type lf) _ _);
    refine ((_ : keeps I _) w Hw).
  - apply process_identifier_keeps.
  - apply keeps_bind; [apply blob_loop_keeps|]. intros sub_start.
    destruct (sub_start <? _); [now apply I_push | apply keeps_ret].
  - now apply I_push.
Qed.

Lemma run_leaves_keeps ls : keeps I (run_leaves float_gt5 code st_size ls).
Proof.
  induction ls as [|lf ls IH]; [apply keeps_ret|].
  cbn [run_leaves]. apply keeps_bind; [apply process_leaf_keeps | intros _; exact IH].
Qed.

End Invariant.

(** *** The arena never overflows *)

Lemma length_update_last {A} (f : A -> A) l :
  List.length (update_last f l) = List.length l.
Proof.
  induction l as [|x [|y r] IH]; [reflexivity | reflexivity |].
  change (update_last f (x :: y :: r)) with (x :: update_last f (y :: r)).
  cbn [List.length] in *. now rewrite IH.
Qed.

Lemma arena_push_fits C t code st_size : keeps (arena_fits C) (arena_push t code st_size).
Proof.
  intros w [Hc Hn]. unfold arena_push.
  destruct (Z.geb_spec (count (arena w)) (capacity (arena w))) as [Hfull|Hroom];
    [now split|].
  destruct (register_token _ _ _ _ _); [|now split].
  split; [exact Hc|]. unfold count in *. cbn [final arena tokens].
  rewrite length_app. cbn [List.length]. lia.
Qed.

Lemma mark_joiner_fits C : keeps (arena_fits C) mark_joiner.
Proof.
  intros w [Hc Hn]. unfold mark_joiner.
  destruct (tokens (arena w)) as [|t r] eqn:E; [now split|].
  split; [exact Hc|]. unfold count in *. cbn [final arena tokens].
  rewrite length_update_last. now rewrite E in Hn.
Qed.

Lemma train_fits C text off len : keeps (arena_fits C) (train text off len).
Proof. intros w H. exact H. Qed.

(** X9.  The [count >= capacity] test of [arena_push] is enough: from a
    state whose arena fits its array, the main loop never takes the count
    beyond the capacity, which it never changes; a whole run leaves at
    most as many tokens as the file has bytes. *)
Theorem arena_never_overflows (float_gt5 : Z -> Z -> bool) (code : list Z) :
  (forall st_size ls w,
     count (arena w) <= capacity (arena w) ->
     let w' := final (run_leaves float_gt5 code st_size ls w) in
     capacity (arena w') = capacity (arena w) /\
     count (arena w') <= capacity (arena w')) /\
  (forall existing root o,
     tokenize float_gt5 existing code root = Some o ->
     count (arena (final o)) <= Z.of_nat (List.length code)).
Proof.
  assert (Hrun : forall C st_size ls,
            keeps (arena_fits C) (run_leaves float_gt5 code st_size ls)).
  { intros C st_size ls. apply run_leaves_keeps.
    - intros t _. apply arena_push_fits.
    - apply mark_joiner_fits.
    - intros off len. apply train_fits. }
  split.
  - intros st_size ls w Hw w'.
    destruct (Hrun (capacity (arena w)) st_size ls w) as [Hc Hn]; [now split|].
    subst w'. rewrite Hc. now split.
  - intros existing root o. unfold tokenize, boot.
    destruct (load_registry existing init_registry) as [tbl|]; [|discriminate].
    intros [= <-].
    destruct (Hrun (Z.of_nat (List.length code)) (Z.of_nat (List.length code))
                (leaves_of 0 root)
                (mkWorld (mkArena [] (Z.of_nat (List.length code)))
                         (mkRegistry tbl (Some existing))
                         (pretrain 20 model_zero))) as [_ Hn];
      [split; [reflexivity | cbn; lia] | exact Hn].
Qed.

Lemma arena_never_overflows_witness :
  count (arena (final (run_leaves exact_gt5 code_my_name 14 leaves_my_name
                                  (start_world 14))))
  <= capacity (arena (final (run_leaves exact_gt5 code_my_name 14 leaves_my_name
                                        (start_world 14)))).
Proof.
  apply (proj1 (arena_never_overflows exact_gt5 code_my_name) 14 leaves_my_name
           (start_world 14)).
  vm_compute. discriminate.
Defined.

(** *** What the absorption bits tell *)

Lemma skip_space_stops code total_size fuel : forall pos,
  (Z.to_nat (total_size - pos) <= fuel)%nat ->
  scan_stops code total_size pos (skip_space fuel code total_size pos).
Proof.
  induction fuel as [|f IH]; intros pos Hf.
  - cbn [skip_space]. split; [lia|]. split; intros; lia.
  - cbn [skip_space].
    destruct (Z.ltb_spec pos total_size) as [Hlt|Hge]; cbn [andb].
    + destruct (isspace (byte_at code pos)) eqn:Es.
      * destruct (IH (pos + 1) ltac:(lia)) as (H1 & H2 & H3).
        split; [lia|]. split; [|exact H3].
        intros q Hq. destruct (Z.eq_dec q pos) as [->|]; [now split | apply H2; lia].
      * split; [lia|]. split; [intros; lia | intros _; exact Es].
    + split; [lia|]. split; intros; lia.
Qed.

Lemma absorb_bits c t :
  absorption_bits (meta t) = [false; false; false; false; false] ->
  absorption_bits (meta (absorb c t)) = absorbed_bits c.
Proof.
  unfold absorption_bits, absorbed_bits, absorb. intros [= E1 E2 E3 E4 E5].
  destruct (Z.eqb_spec c 59) as [->|]; [cbn; now rewrite E2, E3, E4, E5|].
  destruct (Z.eqb_spec c 44) as [->|]; [cbn; now rewrite E1, E3, E4, E5|].
  destruct (Z.eqb_spec c 40) as [->|]; [cbn; now rewrite E1, E2, E4, E5|].
  destruct (Z.eqb_spec c 41) as [->|]; [cbn; now rewrite E1, E2, E3, E5|].
  destruct (Z.eqb_spec c 42) as [->|]; [cbn; now rewrite E1, E2, E3, E4|].
  now rewrite E1, E2, E3, E4, E5.
Qed.

Lemma absorb_span c t :
  offset (absorb c t) = offset t /\ length (absorb c t) = length t /\
  root_id (absorb c t) = root_id t.
Proof.
  unfold absorb.
  repeat match goal with |- context [if ?b then _ else _] => destruct b end;
    repeat split.
Qed.

Lemma erased_bits t :
  erase t = t -> absorption_bits (meta t) = [false; false; false; false; false].
Proof. intros <-. reflexivity. Qed.

Lemma Forall_update_last {A} (Q : A -> Prop) (f : A -> A) l :
  (forall x, Q x -> Q (f x)) -> Forall Q l -> Forall Q (update_last f l).
Proof.
  intros Hf. induction l as [|x [|y r] IH]; intros H.
  - constructor.
  - inversion H; subst. constructor; [now apply Hf | constructor].
  - change (update_last f (x :: y :: r)) with (x :: update_last f (y :: r)).
    inversion H; subst. constructor; [assumption | now apply IH].
Qed.

Lemma arena_push_tells code st_size t :
  erase t = t ->
  keeps (fun w => Forall (tells_next_byte code st_size) (tokens (arena w)))
        (arena_push t code st_size).
Proof.
  intros Ht w Hw. unfold arena_push.
  destruct (count (arena w) >=? capacity (arena w)); [exact Hw|].
  destruct (register_token _ _ _ _ _); [|exact Hw].
  cbn [final arena tokens]. apply Forall_app. split; [exact Hw|].
  constructor; [|constructor].
  set (pos := (offset t + length t) mod U32).
  set (p := skip_space (Z.to_nat (st_size - pos)) code st_size pos).
  exists p.
  destruct (Z.ltb_spec p st_size) as [Hlt|Hge].
  - destruct (absorb_span (byte_at code p) t) as (-> & -> & _).
    split; [apply skip_space_stops; lia|].
    apply absorb_bits, erased_bits, Ht.
  - split; [apply skip_space_stops; lia|]. apply erased_bits, Ht.
Qed.

Lemma mark_joiner_tells code st_size :
  keeps (fun w => Forall (tells_next_byte code st_size) (tokens (arena w)))
        mark_joiner.
Proof.
  intros w Hw. unfold mark_joiner.
  destruct (tokens (arena w)) as [|t r] eqn:E; [cbn [final]; now rewrite E|].
  cbn [final arena tokens]. apply Forall_update_last; [|exact Hw].
  intros x Hx. exact Hx.
Qed.

(** X10.  What the symbol eater records.  In the arena of a run every
    token tells the byte at which the white-space scan after it stopped:
    its bits has_semi, has_comma, has_paren, has_close, has_star say
    whether that byte is [;], [,], [(], [)] or [*], and all are 0 when
    the scan reached the end of the file.  So at most one of them is set. *)
Theorem absorption_bits_tell_next_byte (float_gt5 : Z -> Z -> bool)
    (code : list Z) :
  (forall st_size ls w,
     Forall (tells_next_byte code st_size) (tokens (arena w)) ->
     Forall (tells_next_byte code st_size)
            (tokens (arena (final (run_leaves float_gt5 code st_size ls w))))) /\
  (forall existing root o,
     tokenize float_gt5 existing code root = Some o ->
     Forall (tells_next_byte code (Z.of_nat (List.length code)))
            (tokens (arena (final o)))) /\
  (forall st_size t,
     tells_next_byte code st_size t ->
     (List.length (filter (fun b => b) (absorption_bits (meta t))) <= 1)%nat).
Proof.
  assert (Hrun : forall st_size ls,
            keeps (fun w => Forall (tells_next_byte code st_size) (tokens (arena w)))
                  (run_leaves float_gt5 code st_size ls)).
  { intros st_size ls. apply run_leaves_keeps.
    - intros t. apply arena_push_tells.
    - apply mark_joiner_tells.
    - intros off len w Hw. exact Hw. }
  split; [|split].
  - intros st_size ls w. apply Hrun.
  - intros existing root o. unfold tokenize, boot.
    destruct (load_registry existing init_registry) as [tbl|]; [|discriminate].
    intros [= <-]. apply Hrun. constructor.
  - intros st_size t (p & _ & ->).
    destruct (p <? st_size); [|cbn; lia].
    unfold absorbed_bits.
    destruct (Z.eqb_spec (byte_at code p) 59) as [->|]; [cbn; lia|].
    destruct (Z.eqb_spec (byte_at code p) 44) as [->|]; [cbn; lia|].
    destruct (Z.eqb_spec (byte_at code p) 40) as [->|]; [cbn; lia|].
    destruct (Z.eqb_spec (byte_at code p) 41) as [->|]; [cbn; lia|].
    destruct (Z.eqb_spec (byte_at code p) 42); cbn; lia.
Qed.

Lemma absorption_bits_tell_next_byte_witness :
  Forall (tells_next_byte code_func_arg 10)
         (tokens (arena (final (run_leaves exact_gt5 code_func_arg 10
                                           (leaves_of 0 tree_func_arg)
                                           (start_world 10))))).
Proof.
  apply (proj1 (absorption_bits_tell_next_byte exact_gt5 code_func_arg) 10
           (leaves_of 0 tree_func_arg) (start_world 10)).
  constructor.
Defined.

(** *** The vocabulary log of a run *)

Lemma register_token_cases id text off len r r' log :
  registry_agrees r log -> register_token id text off len r = Some r' ->
  (r' = r /\ has_seen_id (seen_hashes r) id = Some true) \/
  (has_seen_id (seen_hashes r) id = Some false /\
   registry_agrees r' (log ++ [(id, clamp_len len, span text off (clamp_len len))])).
Proof.
  intros Hagree Hreg. pose proof (registry_agrees_eta r log Hagree) as Er.
  unfold register_token in Hreg.
  destruct (has_seen_id (seen_hashes r) id) as [[|]|] eqn:Hb; [| |discriminate].
  - injection Hreg as <-. left. split; reflexivity.
  - destruct (free_slot_after_miss _ _ Hb) as (idx & Hfree & _ & Hz & Hfound).
    rewrite Hfree, (proj1 Hagree) in Hreg. injection Hreg as <-.
    right. split; [reflexivity|]. rewrite Er in Hagree.
    exact (registry_agrees_insert _ _ idx id
             (id, clamp_len len, span text off (clamp_len len))
             Hagree Hz Hfound eq_refl).
Qed.

Lemma NoDup_snoc {A} (l : list A) x : NoDup l -> ~ In x l -> NoDup (l ++ [x]).
Proof.
  induction 1 as [|y l Hy Hnd IH]; intros Hx; cbn [app].
  - constructor; [intros [] | constructor].
  - constructor.
    + rewrite in_app_iff. intros [H | [-> | []]]; [contradiction|].
      apply Hx. now left.
    + apply IH. intros H. apply Hx. now right.
Qed.

Lemma arena_push_vocabulary existing t code st_size :
  keeps (vocabulary_ok existing) (arena_push t code st_size).
Proof.
  intros w Hw. unfold arena_push.
  destruct (count (arena w) >=? capacity (arena w)); [exact Hw|].
  destruct (register_token _ _ _ _ _) as [r'|] eqn:Hreg; [|exact Hw].
  cbn [final]. destruct Hw as (new & Hagree & Hnd & Hfresh & Htok).
  set (t' := if _ <? _ then _ else t).
  assert (Hid : root_id t' = root_id t).
  { unfold t'. destruct (_ <? _); [apply absorb_span | reflexivity]. }
  destruct (register_token_cases _ _ _ _ _ _ _ Hagree Hreg)
    as [[-> Hseen] | [Hmiss Hagree']].
  - exists new. split; [exact Hagree|]. split; [exact Hnd|]. split; [exact Hfresh|].
    cbn [arena tokens registry]. intros x Hx Hnz.
    apply in_app_iff in Hx. destruct Hx as [Hx | [<- | []]]; [now apply Htok|].
    rewrite Hid in *. now apply (proj2 (proj2 Hagree)).
  - set (rec := (root_id t, clamp_len (length t),
                 span code (offset t) (clamp_len (length t)))) in *.
    assert (Hout : root_id t <> 0 ->
                   ~ In (root_id t) (map record_id (existing ++ new))).
    { intros Hnz Hin. apply (proj2 (proj2 Hagree) _ Hnz) in Hin. congruence. }
    exists (new ++ [rec]). rewrite app_assoc.
    split; [exact Hagree'|].
    rewrite nonzero_ids_app. unfold rec at 1 2. rewrite nonzero_ids_cons.
    split; [|split].
    + destruct (Z.eqb_spec (root_id t) 0) as [|Hnz]; [now rewrite app_nil_r|].
      apply NoDup_snoc; [exact Hnd|].
      intros Hin. apply (Hout Hnz). rewrite map_app, in_app_iff. right.
      unfold nonzero_ids in Hin. apply filter_In in Hin. exact (proj1 Hin).
    + intros id Hin. apply in_app_iff in Hin. destruct Hin as [Hin | Hin];
        [now apply Hfresh|].
      destruct (Z.eqb_spec (root_id t) 0) as [|Hnz]; [destruct Hin|].
      destruct Hin as [<- | []]. intros Hin. apply (Hout Hnz).
      rewrite map_app, in_app_iff. now left.
    + cbn [arena tokens registry]. intros x Hx Hnz.
      rewrite map_app, in_app_iff.
      apply in_app_iff in Hx. destruct Hx as [Hx | [<- | []]];
        [left; now apply Htok|].
      right. rewrite Hid. now left.
Qed.

Lemma mark_joiner_vocabulary existing : keeps (vocabulary_ok existing) mark_joiner.
Proof.
  intros w Hw. unfold mark_joiner.
  destruct (tokens (arena w)) as [|t r] eqn:E; [exact Hw|].
  cbn [final]. destruct Hw as (new & Hagree & Hnd & Hfresh & Htok).
  exists new. split; [exact Hagree|]. split; [exact Hnd|]. split; [exact Hfresh|].
  cbn [arena tokens registry].
  assert (H : Forall (fun t => root_id t <> 0 ->
                        In (root_id t) (map record_id (existing ++ new)))
                     (update_last (set_meta with_has_joiner) (tokens (arena w)))).
  { apply Forall_update_last; [intros x Hx; exact Hx|].
    apply Forall_forall. exact Htok. }
  rewrite Forall_forall, E in H. exact H.
Qed.

Lemma run_keeps_vocabulary_ok float_gt5 existing code st_size ls :
  keeps (vocabulary_ok existing) (run_leaves float_gt5 code st_size ls).
Proof.
  apply run_leaves_keeps.
  - intros t _. apply arena_push_vocabulary.
  - apply mark_joiner_vocabulary.
  - intros off len w Hw. exact Hw.
Qed.

Lemma boot_vocabulary_ok existing st_size w :
  boot existing st_size = Some w -> vocabulary_ok existing w.
Proof.
  intros Hboot.
  destruct (boot_spec _ _ _ Hboot) as (tbl & E & ->).
  exists []. rewrite app_nil_r. split.
  { exact (load_registry_agrees existing init_registry [] tbl
             init_registry_agrees E). }
  split; [constructor|]. split; [intros id []|].
  cbn [arena tokens]. intros t [].
Qed.

(** X11.  The vocabulary file of a run.  Whatever the run does, the file
    it leaves is the file it loaded followed by new records, and among
    the new records no non-zero id occurs twice or occurs in the loaded
    file. *)
Theorem run_appends_each_new_id_once (float_gt5 : Z -> Z -> bool)
    (existing : list VocabRecord) (code : list Z) (root : TSNode)
    (o : outcome unit) :
  tokenize float_gt5 existing code root = Some o ->
  exists new,
    vocab_file (registry (final o)) = Some (existing ++ new) /\
    NoDup (nonzero_ids new) /\
    (forall id, In id (nonzero_ids new) -> ~ In id (map record_id existing)).
Proof.
  unfold tokenize.
  destruct (boot existing _) as [w|] eqn:Hboot; [|discriminate].
  intros [= <-].
  destruct (run_keeps_vocabulary_ok float_gt5 existing code
              (Z.of_nat (List.length code)) (leaves_of 0 root) w
              (boot_vocabulary_ok _ _ _ Hboot))
    as (new & Hagree & Hnd & Hfresh & _).
  exists new. split; [exact (proj1 Hagree)|]. split; assumption.
Qed.

(** X12.  The vocabulary is complete: at the end of a run every token of
    the arena with a non-zero [root_id] has a record with that id in the
    vocabulary file, and [has_seen_id] finds it. *)
Theorem vocabulary_holds_every_token_id (float_gt5 : Z -> Z -> bool)
    (existing : list VocabRecord) (code : list Z) (root : TSNode)
    (o : outcome unit) :
  tokenize float_gt5 existing code root = Some o ->
  exists log,
    vocab_file (registry (final o)) = Some log /\
    forall t, In t (tokens (arena (final o))) -> root_id t <> 0 ->
      In (root_id t) (map record_id log) /\
      has_seen_id (seen_hashes (registry (final o))) (root_id t) = Some true.
Proof.
  unfold tokenize.
  destruct (boot existing _) as [w|] eqn:Hboot; [|discriminate].
  intros [= <-].
  destruct (run_keeps_vocabulary_ok float_gt5 existing code
              (Z.of_nat (List.length code)) (leaves_of 0 root) w
              (boot_vocabulary_ok _ _ _ Hboot))
    as (new & Hagree & _ & _ & Htok).
  exists (existing ++ new). split; [exact (proj1 Hagree)|].
  intros t Hin Hnz. split; [now apply Htok|].
  apply (proj2 (proj2 Hagree) _ Hnz). now apply Htok.
Qed.

Lemma vocabulary_holds_every_token_id_witness :
  exists log,
    vocab_file (registry (final (run_leaves exact_gt5 code_int_x 6
                                            (leaves_of 0 tree_int_x)
                                            (start_world 6))))
    = Some log /\
    forall t,
      In t (tokens (arena (final (run_leaves exact_gt5 code_int_x 6
                                             (leaves_of 0 tree_int_x)
                                             (start_world 6))))) ->
      root_id t <> 0 ->
      In (root_id t) (map record_id log) /\
      has_seen_id (seen_hashes (registry (final (run_leaves exact_gt5 code_int_x 6
                                                            (leaves_of 0 tree_int_x)
                                                            (start_world 6)))))
                  (root_id t) = Some true.
Proof.
  exact (vocabulary_holds_every_token_id exact_gt5 [] code_int_x tree_int_x
           (run_leaves exact_gt5 code_int_x 6 (leaves_of 0 tree_int_x)
                       (start_world 6)) eq_refl).
Defined.

(* ================================================================== *)
(** ** Runs that return                                             *)
(* ================================================================== *)

Lemma returns_ret {A} (P : World -> Prop) (Q : A -> World -> Prop) a :
  (forall w, P w -> Q a w) -> returns P Q (ret a).
Proof. intros H w Hw. exists a, w. split; [reflexivity | now apply H]. Qed.

Lemma returns_bind {A B} (P : World -> Prop) (Q : A -> World -> Prop)
    (R : B -> World -> Prop) (m : M A) (k : A -> M B) :
  returns P Q m -> (forall a, returns (Q a) R (k a)) -> returns P R (bind m k).
Proof.
  intros Hm Hk w Hw. destruct (Hm w Hw) as (a & w1 & E & Hq).
  unfold bind. rewrite E. now apply (Hk a).
Qed.

Lemma returns_weaken {A} (P P' : World -> Prop) (Q Q' : A -> World -> Prop) m :
  (forall w, P' w -> P w) -> (forall a w, Q a w -> Q' a w) ->
  returns P Q m -> returns P' Q' m.
Proof.
  intros HP HQ H w Hw. destruct (H w (HP w Hw)) as (a & w' & E & Hq).
  exists a, w'. split; [exact E | now apply HQ].
Qed.

Lemma register_token_used id text off len r r' l :
  register_token id text off len r = Some r' ->
  used_within (seen_hashes r) l ->
  exists l', used_within (seen_hashes r') l' /\
             (List.length l' <= S (List.length l))%nat.
Proof.
  unfold register_token. intros Hreg Hu.
  destruct (has_seen_id (seen_hashes r) id) as [[|]|]; [| |discriminate].
  - injection Hreg as <-. exists l. split; [exact Hu | lia].
  - destruct (free_slot (seen_hashes r) id) as [idx|]; [|discriminate].
    exists (idx :: l). split; [|cbn [List.length]; lia].
    destruct (vocab_file r); injection Hreg as <-;
      now apply used_within_set_slot.
Qed.

Lemma arena_push_returns C t code st_size :
  returns (has_room C)
          (fun _ w => has_room C w /\ (0 < C -> tokens (arena w) <> []))
          (arena_push t code st_size).
Proof.
  intros w (Hc & l & Hu & Hl). unfold arena_push.
  destruct (Z.geb_spec (count (arena w)) (capacity (arena w))) as [Hfull|Hroom].
  - exists tt, w. split; [reflexivity|].
    split; [split; [exact Hc | now exists l]|].
    intros HC E. unfold count in Hfull. rewrite E in Hfull. cbn in Hfull. lia.
  - destruct (register_token_returns (root_id t) code (offset t) (length t)
                (registry w)) as (r' & Hreg).
    { apply (empty_slot_by_count _ l Hu). lia. }
    rewrite Hreg. eexists. eexists. split; [reflexivity|].
    destruct (register_token_used _ _ _ _ _ _ _ Hreg Hu) as (l' & Hu' & Hl').
    split.
    + split; [exact Hc|]. exists l'. split; [exact Hu'|].
      unfold count in *. cbn [arena tokens registry].
      rewrite length_app. cbn [List.length]. lia.
    + intros _. cbn [arena tokens]. intros E.
      apply app_eq_nil in E. destruct E as [_ E]. discriminate E.
Qed.

Lemma mark_joiner_returns C :
  returns (fun w => has_room C w /\ tokens (arena w) <> [])
          (fun _ w => has_room C w /\ tokens (arena w) <> [])
          mark_joiner.
Proof.
  intros w ((Hc & l & Hu & Hl) & Hne). unfold mark_joiner.
  destruct (tokens (arena w)) as [|t r] eqn:E; [contradiction|].
  eexists. eexists. split; [reflexivity|]. split.
  - split; [exact Hc|]. exists l. split; [exact Hu|].
    unfold count in *. cbn [arena tokens registry].
    rewrite length_update_last. now rewrite E in Hl.
  - cbn [arena tokens]. intros E'.
    apply (f_equal (@List.length _)) in E'.
    rewrite length_update_last in E'. discriminate E'.
Qed.

Lemma train_returns (P : World -> Prop) text off len :
  (forall w m, P w -> P (mkWorld (arena w) (registry w) m)) ->
  returns P (fun _ w => P w) (train text off len).
Proof.
  intros H w Hw. eexists. eexists. split; [reflexivity|]. now apply H.
Qed.

Section Returns.

Variable float_gt5 : Z -> Z -> bool.

Variables (code : list Z) (st_size C : Z).

(** An arena without places belongs to a file without bytes. *)
Hypothesis underscore_room : forall p, byte_at code p = 95 -> 0 < C.

Lemma push_then_room t te :
  returns (splitter_room C te) (fun _ w => splitter_room C (te + 1) w)
          (arena_push t code st_size).
Proof.
  generalize (arena_push_returns C t code st_size).
  apply returns_weaken.
  - intros w [H _]. exact H.
  - intros _ w [H1 H2]. split; [exact H1 | intros _; exact H2].
Qed.

Lemma split_loop_returns off len d sp n : forall i start te,
  returns (splitter_room C te) (fun _ w => has_room C w)
          (split_loop float_gt5 n code off len d sp st_size i start te).
Proof.
  induction n as [|n IH]; intros i start te.
  - apply returns_ret. intros w [H _]. exact H.
  - cbn [split_loop].
    destruct (Z.eqb_spec (byte_at code (off + i)) 95) as [Hu|_].
    + pose proof (underscore_room _ Hu) as HC.
      apply returns_bind with (Q := fun te' w => splitter_room C te' w).
      * destruct (i >? start); [|apply returns_ret; auto].
        apply returns_bind with (Q := fun _ w => splitter_room C (te + 1) w);
          [apply push_then_room | intros _; apply returns_ret; auto].
      * intros te'.
        apply returns_bind with (Q := fun _ w => splitter_room C te' w);
          [|intros _; apply IH].
        destruct (Z.gtb_spec te' 0) as [Hpos|]; [|apply returns_ret; auto].
        generalize (mark_joiner_returns C). apply returns_weaken.
        -- intros w [H1 H2]. split; [exact H1 | now apply H2].
        -- intros _ w [H1 H2]. split; [exact H1 | intros _ _; exact H2].
    + destruct (i <? len - 1); [|apply IH].
      apply returns_bind with (Q := fun _ w => splitter_room C te w).
      * intros w Hw. exists (global_model w), w. split; [reflexivity | exact Hw].
      * intros m.
        destruct (soft_split float_gt5 m code off len start i); [apply IH | |];
          (apply returns_bind with (Q := fun _ w => splitter_room C (te + 1) w);
           [apply push_then_room | intros _; apply IH]).
Qed.

Lemma push_returns t :
  returns (has_room C) (fun _ w => has_room C w) (arena_push t code st_size).
Proof.
  generalize (arena_push_returns C t code st_size).
  apply returns_weaken; [auto | intros _ w [H _]; exact H].
Qed.

Lemma process_identifier_returns off len d sp :
  returns (has_room C) (fun _ w => has_room C w)
          (process_identifier float_gt5 code off len d sp st_size).
Proof.
  unfold process_identifier. destruct (is_word_locked code off len).
  - apply returns_bind with (Q := fun _ w => has_room C w); [apply push_returns|].
    intros _. apply train_returns. intros w m H. exact H.
  - apply returns_bind with (Q := fun _ w => has_room C w).
    { apply train_returns. intros w m H. exact H. }
    intros _. apply returns_bind with (Q := fun _ w => has_room C w).
    + generalize (split_loop_returns off len d sp (Z.to_nat len) 0 0 0).
      apply returns_weaken; [|auto].
      intros w H. split; [exact H | intros; lia].
    + intros [start te].
      destruct (start <? len); [apply push_returns | apply returns_ret; auto].
Qed.

Lemma blob_loop_returns start d n : forall i sub_start,
  returns (has_room C) (fun _ w => has_room C w)
          (blob_loop n code st_size start d i sub_start).
Proof.
  induction n as [|n IH]; intros i sub_start; [apply returns_ret; auto|].
  cbn [blob_loop]. destruct (_ || _); [|apply IH].
  apply returns_bind with (Q := fun _ w => has_room C w); [|intros _; apply IH].
  destruct (i >? sub_start); [apply push_returns | apply returns_ret; auto].
Qed.

Lemma blob_leaf_returns start len d :
  returns (has_room C) (fun _ w => has_room C w)
          (sub_start <- blob_loop (Z.to_nat len) code st_size start d 0 0 ;;
           if sub_start <? len then
             arena_push (blob_tail_token code start sub_start len) code st_size
           else ret tt).
Proof.
  apply returns_bind with (Q := fun _ w => has_room C w);
    [apply blob_loop_returns|].
  intros sub_start.
  destruct (sub_start <? _); [apply push_returns | apply returns_ret; auto].
Qed.

Lemma process_leaf_returns lf :
  returns (has_room C) (fun _ w => has_room C w)
          (process_leaf float_gt5 code st_size lf).
Proof.
  unfold process_leaf. destruct (_ >? 0); [|apply returns_ret; auto].
  intros w Hw. destruct (eaten code (start_byte lf) (arena w)).
  { exists tt, w. split; [reflexivity | exact Hw]. }
  destruct (classify code (node_type lf) _ _);
    refine ((_ : returns (has_room C) (fun _ w => has_room C w) _) w Hw).
  - apply process_identifier_returns.
  - apply blob_leaf_returns.
  - apply push_returns.
Qed.

Lemma run_leaves_returns ls :
  returns (has_room C) (fun _ w => has_room C w)
          (run_leaves float_gt5 code st_size ls).
Proof.
  induction ls as [|lf ls IH]; [apply returns_ret; auto|].
  cbn [run_leaves].
  apply returns_bind with (Q := fun _ w => has_room C w);
    [apply process_leaf_returns | intros _; exact IH].
Qed.

End Returns.

Lemma byte_at_nil p : byte_at [] p = 0.
Proof. unfold byte_at. destruct (p <? 0); [reflexivity|]. now destruct (Z.to_nat p). Qed.

(** With [load_registry] through, a main loop that starts on an empty
    arena of as many places as the file has bytes returns. *)
Lemma run_from_boot_returns float_gt5 existing code root tbl l :
  load_registry existing init_registry = Some tbl ->
  used_within tbl l ->
  Z.of_nat (List.length l) + Z.of_nat (List.length code) < SEEN_TABLE_SIZE ->
  exists w', tokenize float_gt5 existing code root = Some (Done tt w').
Proof.
  intros Hload Hu Hl.
  unfold tokenize, boot. rewrite Hload.
  set (C := Z.of_nat (List.length code)).
  destruct (run_leaves_returns float_gt5 code C C) with (ls := leaves_of 0 root)
    (w := mkWorld (mkArena [] C) (mkRegistry tbl (Some existing))
                  (pretrain 20 model_zero))
    as ([] & w' & E & _).
  - intros p Hp. destruct code as [|b code']; [|unfold C; cbn [List.length]; lia].
    rewrite byte_at_nil in Hp. discriminate Hp.
  - split; [reflexivity|]. exists l. split; [exact Hu|].
    unfold count. cbn [arena tokens List.length]. lia.
  - exists w'. now rewrite E.
Qed.

(** The run on [my_var_name] without a vocabulary file returns. *)
Lemma my_var_name_run_returns :
  exists w', tokenize exact_gt5 [] code_my_var_name tree_my_var_name
             = Some (Done tt w').
Proof.
  apply (run_from_boot_returns exact_gt5 [] code_my_var_name tree_my_var_name
           init_registry []); [reflexivity | exact init_registry_unused |].
  vm_compute. reflexivity.
Qed.

(** The run on [x+x] with the record of [+] in the vocabulary file
    returns. *)
Lemma x_plus_x_run_returns :
  exists w', tokenize exact_gt5 vocab_plus code_x_plus_x tree_x_plus_x
             = Some (Done tt w').
Proof.
  destruct (load_registry_fits vocab_plus init_registry [] init_registry_unused
              ltac:(vm_compute; reflexivity))
    as (tbl & l & Hload & Hu & Hl).
  apply (run_from_boot_returns exact_gt5 vocab_plus code_x_plus_x tree_x_plus_x
           tbl l Hload Hu).
  rewrite Hl. vm_compute. reflexivity.
Qed.

(** The same run leaves the record of [+] and one record of [x]. *)
Example x_plus_x_log :
  run_log_from exact_gt5 vocab_plus code_x_plus_x tree_x_plus_x
  = Some (vocab_plus ++ [(murmur_hash code_x_plus_x 0 1, 1, [120])]).
Proof. vm_compute. reflexivity. Qed.

(** The ids of its tokens: [x], [+], [x]. *)
Example x_plus_x_ids :
  run_ids_from exact_gt5 vocab_plus code_x_plus_x tree_x_plus_x
  = [murmur_hash code_x_plus_x 0 1; murmur_hash code_x_plus_x 1 1;
     murmur_hash code_x_plus_x 0 1].
Proof. vm_compute. reflexivity. Qed.

(** [x+x] with [+] in the loaded file: the run meets [x] twice and [+]
    once, and appends one record, that of [x]. *)
Lemma run_appends_each_new_id_once_witness :
  exists w',
    tokenize exact_gt5 vocab_plus code_x_plus_x tree_x_plus_x = Some (Done tt w') /\
    vocab_file (registry w')
    = Some (vocab_plus ++ [(murmur_hash code_x_plus_x 0 1, 1, [120])]) /\
    map root_id (tokens (arena w'))
    = [murmur_hash code_x_plus_x 0 1; murmur_hash code_x_plus_x 1 1;
       murmur_hash code_x_plus_x 0 1] /\
    exists new,
      vocab_file (registry (final (Done tt w'))) = Some (vocab_plus ++ new) /\
      NoDup (nonzero_ids new) /\
      (forall id, In id (nonzero_ids new) -> ~ In id (map record_id vocab_plus)).
Proof.
  destruct x_plus_x_run_returns as (w' & E).
  exists w'. split; [exact E|].
  pose proof x_plus_x_log as Hlog. pose proof x_plus_x_ids as Hids.
  unfold run_log_from in Hlog. unfold run_ids_from in Hids.
  rewrite E in Hlog, Hids. cbn [final] in Hlog, Hids.
  split; [exact Hlog|]. split; [exact Hids|].
  exact (run_appends_each_new_id_once exact_gt5 vocab_plus code_x_plus_x
           tree_x_plus_x (Done tt w') E).
Defined.

(** X13.  A run returns.  When the records of nset_vocab.bin and the
    bytes of the source file are together fewer than the 4194304 slots of
    the table, [load_registry] returns and the main loop gets through every
    leaf of any tree: no probe loop runs for ever and no token is marked
    in an empty arena. *)
Theorem tokenize_returns (float_gt5 : Z -> Z -> bool)
    (existing : list VocabRecord) (code : list Z) (root : TSNode) :
  Z.of_nat (List.length existing) + Z.of_nat (List.length code) < SEEN_TABLE_SIZE ->
  exists w', tokenize float_gt5 existing code root = Some (Done tt w').
Proof.
  intros Hlen.
  destruct (load_registry_fits existing init_registry [] init_registry_unused)
    as (tbl & l & Hload & Hu & Hl).
  { cbn [List.length]. lia. }
  apply (run_from_boot_returns float_gt5 existing code root tbl l Hload Hu).
  cbn [List.length] in Hl. lia.
Qed.

Lemma tokenize_returns_witness :
  exists w', tokenize exact_gt5 [] code_my_var_name tree_my_var_name
             = Some (Done tt w').
Proof.
  apply (tokenize_returns exact_gt5 [] code_my_var_name tree_my_var_name).
  vm_compute. reflexivity.
Defined.

(* ================================================================== *)
(** ** The text of the tokens, their order and what they cover      *)
(* ================================================================== *)

(** *** Fields of the tokens *)

Lemma process_leaf_pushes_nonempty float_gt5 code st_size lf :
  pushes (fun t => leaf_token_ok code lf t /\ 0 < leaf_len lf) (fun _ => True)
         (process_leaf float_gt5 code st_size lf).
Proof.
  destruct (Z.gtb_spec (leaf_len lf) 0) as [Hpos|Hle].
  - generalize (process_leaf_pushes float_gt5 code st_size lf).
    apply pushes_weaken; [|trivial]. intros t Ht. split; [exact Ht | lia].
  - unfold process_leaf. fold (leaf_len lf).
    destruct (Z.gtb_spec (leaf_len lf) 0); [lia|]. now apply pushes_ret.
Qed.

Lemma run_leaves_pushes_nonempty float_gt5 code st_size ls :
  pushes (fun t => exists lf, In lf ls /\ leaf_token_ok code lf t /\ 0 < leaf_len lf)
         (fun _ => True) (run_leaves float_gt5 code st_size ls).
Proof.
  induction ls as [|lf ls IH]; [now apply pushes_ret|].
  cbn [run_leaves]. apply pushes_bind with (R1 := fun _ => True).
  - generalize (process_leaf_pushes_nonempty float_gt5 code st_size lf).
    apply pushes_weaken; [|trivial].
    intros t Ht. exists lf. split; [now left | exact Ht].
  - intros _ _. revert IH. apply pushes_weaken; [|trivial].
    intros t (lf' & Hin & Ht). exists lf'. split; [now right | exact Ht].
Qed.

Lemma leaf_pre_space_break code lf :
  leaf_pre_space code lf && leaf_pre_break code lf = false.
Proof.
  unfold leaf_pre_space, leaf_pre_break.
  destruct (start_byte lf >? 0), (isspace _),
    (byte_at code (start_byte lf - 1) =? 10); reflexivity.
Qed.

Lemma leaf_token_describes code st_size lf t :
  leaf_ok st_size lf -> 0 < leaf_len lf ->
  leaf_token_ok code lf (erase t) -> describes_its_text code lf t.
Proof.
  intros Hok Hpos Ht.
  destruct (leaf_ok_bounds _ _ Hok) as (Hlen & Hstart & Hend & Hint).
  unfold leaf_token_ok in Ht. rewrite Hint in Ht.
  unfold describes_its_text, cut_identifier, inside_leaf.
  change (root_id t) with (root_id (erase t)).
  change (offset t) with (offset (erase t)).
  change (length t) with (length (erase t)).
  change (casing (meta t)) with (casing (meta (erase t))).
  change (type (meta t)) with (type (meta (erase t))).
  change (pre_space (meta t)) with (pre_space (meta (erase t))).
  change (pre_break (meta t)) with (pre_break (meta (erase t))).
  destruct (leaf_class_of code lf).
  - destruct Ht as [[Hl Ht] | [Hl (start & stop & te & Hb1 & Hb2 & Ht & _)]];
      rewrite Hl, Ht; cbn [negb].
    + cbn [root_id offset length meta casing type pre_space pre_break locked_token].
      rewrite !Z.mod_small by lia.
      repeat split; try reflexivity; try lia; apply andb_false_r.
    + destruct (fragment_token_fields code (start_byte lf) start stop
                  (Z.rem (leaf_depth lf) 7) (leaf_pre_space code lf) te
                  (leaf_len lf)) as [Ho Hn]; try lia.
      rewrite Ho, Hn.
      cbn [root_id meta casing type pre_space pre_break fragment_token].
      repeat split; try reflexivity; try lia; apply andb_false_r.
  - destruct Ht as (s & e & Hb1 & Hb2 & Ht & _).
    destruct (blob_token_fields code (start_byte lf) s e
                (Z.rem (leaf_depth lf) 7) (leaf_len lf))
      as (Ho1 & Hn1 & Ho2 & Hn2); try lia.
    destruct Ht as [Ht | [Ee Ht]]; rewrite Ht.
    + rewrite Ho1, Hn1.
      cbn [root_id meta casing type pre_space pre_break blob_token].
      repeat split; try reflexivity; lia.
    + subst e. rewrite Ho2, Hn2.
      cbn [root_id meta casing type pre_space pre_break blob_tail_token].
      repeat split; try reflexivity; lia.
  - rewrite Ht.
    cbn [root_id offset length meta casing type pre_space pre_break default_token].
    repeat split; try reflexivity; try lia; apply leaf_pre_space_break.
Qed.

(** X14.  What the fields of a token say.  In a run over leaves of a
    source below 2 GiB, every appended token belongs to a leaf: it is not
    empty and lies inside the leaf; its [root_id] is the hash of its own
    span; its casing is [get_casing] of its span when the splitter cut an
    identifier and 0 on every other path; its type is 0 for an
    identifier, 1 for a blob fragment and, on the default path, 2 when
    its first byte is a digit and 0 otherwise; and it never carries
    pre_space and pre_break together. *)
Theorem tokens_describe_their_text (float_gt5 : Z -> Z -> bool) (code : list Z)
    (st_size : Z) (ls : list Leaf) (w : World) :
  Forall (leaf_ok st_size) ls ->
  Forall (fun t => exists lf, In lf ls /\ describes_its_text code lf t)
         (appended w (final (run_leaves float_gt5 code st_size ls w))).
Proof.
  intros Hok. rewrite Forall_forall in Hok.
  appended_token (run_leaves_pushes_nonempty float_gt5 code st_size ls) t Ht.
  destruct Ht as (lf & Hin & Ht & Hpos).
  exists lf. split; [exact Hin|].
  exact (leaf_token_describes code st_size lf t (Hok lf Hin) Hpos Ht).
Qed.

Lemma tokens_describe_their_text_witness :
  Forall (fun t => exists lf, In lf leaves_my_name /\
                              describes_its_text code_my_name lf t)
         (appended (start_world 14)
            (final (run_leaves exact_gt5 code_my_name 14 leaves_my_name
                               (start_world 14)))).
Proof.
  apply (tokens_describe_their_text exact_gt5 code_my_name 14 leaves_my_name
           (start_world 14)).
  repeat constructor; simpl; lia.
Defined.

(** *** Order and coverage *)

Lemma in_order_le l : forall lo hi, in_order lo l hi -> lo <= hi.
Proof.
  induction l as [|t r IH]; intros lo hi H; [exact H|].
  destruct H as (H1 & H2 & H3). apply IH in H3. lia.
Qed.

Lemma in_order_hi l : forall lo hi hi',
  in_order lo l hi -> hi <= hi' -> in_order lo l hi'.
Proof.
  induction l as [|t r IH]; intros lo hi hi' H Hle; cbn [in_order] in *; [lia|].
  destruct H as (H1 & H2 & H3). split; [exact H1|]. split; [exact H2|].
  now apply (IH _ hi).
Qed.

Lemma in_order_lo l lo lo' hi :
  in_order lo l hi -> lo' <= lo -> in_order lo' l hi.
Proof. destruct l; cbn [in_order]; intros H Hle; [lia|]. split; [lia | apply H]. Qed.

Lemma in_order_app l1 : forall lo mid l2 hi,
  in_order lo l1 mid -> in_order mid l2 hi -> in_order lo (l1 ++ l2) hi.
Proof.
  induction l1 as [|t r IH]; intros lo mid l2 hi H1 H2; cbn [app in_order] in *.
  - now apply (in_order_lo l2 mid).
  - destruct H1 as (Ha & Hb & Hc). split; [exact Ha|]. split; [exact Hb|].
    now apply (IH _ mid).
Qed.

Lemma in_order_erase l : forall lo hi,
  in_order lo (map erase l) hi <-> in_order lo l hi.
Proof.
  induction l as [|t r IH]; intros lo hi; cbn [map in_order]; [tauto|].
  change (offset (erase t)) with (offset t).
  change (length (erase t)) with (length t). now rewrite IH.
Qed.

Lemma gaps_lo sep code l lo lo' hi :
  gaps sep code lo l hi ->
  (forall q, lo' <= q < lo -> sep (byte_at code q) = true) ->
  gaps sep code lo' l hi.
Proof.
  destruct l as [|t r]; cbn [gaps]; intros H Hlo.
  - intros q Hq. destruct (Z.lt_ge_cases q lo); [apply Hlo | apply H]; lia.
  - split; [|apply H]. intros q Hq.
    destruct (Z.lt_ge_cases q lo); [apply Hlo | apply H]; lia.
Qed.

Lemma gaps_app sep code l1 : forall lo mid l2 hi,
  gaps sep code lo l1 mid -> gaps sep code mid l2 hi ->
  gaps sep code lo (l1 ++ l2) hi.
Proof.
  induction l1 as [|t r IH]; intros lo mid l2 hi H1 H2; cbn [app gaps] in *.
  - now apply (gaps_lo sep code l2 mid).
  - destruct H1 as [Ha Hb]. split; [exact Ha | now apply (IH _ mid)].
Qed.

Lemma gaps_erase sep code l : forall lo hi,
  gaps sep code lo (map erase l) hi <-> gaps sep code lo l hi.
Proof.
  induction l as [|t r IH]; intros lo hi; cbn [map gaps]; [tauto|].
  change (offset (erase t)) with (offset t).
  change (length (erase t)) with (length t). now rewrite IH.
Qed.

Lemma gaps_sep (sep sep' : Z -> bool) code l : forall lo hi,
  (forall c, sep c = true -> sep' c = true) ->
  gaps sep code lo l hi -> gaps sep' code lo l hi.
Proof.
  induction l as [|t r IH]; intros lo hi Hs; cbn [gaps].
  - intros H q Hq. now apply Hs, H.
  - intros [Ha Hb]. split; [intros q Hq; now apply Hs, Ha | now apply IH].
Qed.

Lemma emits_count w w' l :
  emits w w' l -> count (arena w') = count (arena w) + Z.of_nat (List.length l).
Proof.
  unfold emits, count. intros H.
  apply (f_equal (@List.length _)) in H.
  rewrite length_app, !length_map in H. lia.
Qed.

(** Tokens in order are at most as many as the bytes they lie in. *)
Lemma in_order_length l : forall lo hi,
  in_order lo l hi -> Z.of_nat (List.length l) <= hi - lo.
Proof.
  induction l as [|t r IH]; intros lo hi H; cbn [in_order List.length] in *; [lia|].
  destruct H as (H1 & H2 & H3). apply IH in H3. lia.
Qed.

Lemma lays_ret {A} sep code lo hi (pos : A -> Z) a :
  lo <= pos a <= hi ->
  (forall q, lo <= q < pos a -> sep (byte_at code q) = true) ->
  lays sep code lo hi pos (ret a).
Proof.
  intros Hb Hs w. exists []. split; [apply emits_refl|]. split; [reflexivity|].
  cbn [in_order]. split; [lia|]. unfold ret. intros a' w' [= <- <-].
  split; [lia|]. split; [lia|]. intros _. exact Hs.
Qed.

Lemma lays_bind {A B} sep code lo hi (pos1 : A -> Z) (pos2 : B -> Z)
    (m : M A) (k : A -> M B) :
  lays sep code lo hi pos1 m ->
  (forall a, lo <= pos1 a <= hi -> lays sep code (pos1 a) hi pos2 (k a)) ->
  lays sep code lo hi pos2 (bind m k).
Proof.
  intros Hm Hk w. destruct (Hm w) as (l1 & He1 & Hc1 & Ho1 & Hd1).
  unfold bind. destruct (m w) as [a w1|w1] eqn:E; cbn [final] in *.
  - destruct (Hd1 a w1 eq_refl) as (Hp1 & Hop1 & Hg1).
    pose proof (in_order_le _ _ _ Hop1) as Hlo.
    destruct (Hk a (conj Hlo Hp1) w1) as (l2 & He2 & Hc2 & Ho2 & Hd2).
    exists (l1 ++ l2). split; [exact (emits_trans _ _ _ _ _ He1 He2)|].
    split; [congruence|]. split; [exact (in_order_app _ _ _ _ _ Hop1 Ho2)|].
    intros b w2 E2. destruct (Hd2 b w2 E2) as (Hp2 & Hop2 & Hg2).
    split; [exact Hp2|]. split; [exact (in_order_app _ _ _ _ _ Hop1 Hop2)|].
    intros Hroom.
    pose proof (emits_count _ _ _ He1) as Hcnt.
    pose proof (in_order_length _ _ _ Hop1) as Hlen.
    apply (gaps_app sep code l1 lo (pos1 a)); [now apply Hg1 | apply Hg2; lia].
  - exists l1. split; [exact He1|]. split; [exact Hc1|]. split; [exact Ho1|].
    discriminate.
Qed.

Lemma lays_lo {A} sep code lo lo' hi (pos : A -> Z) m :
  lo' <= lo -> (forall q, lo' <= q < lo -> sep (byte_at code q) = true) ->
  lays sep code lo hi pos m -> lays sep code lo' hi pos m.
Proof.
  intros Hle Hs H w. destruct (H w) as (l & He & Hc & Ho & Hd).
  exists l. split; [exact He|]. split; [exact Hc|].
  split; [now apply (in_order_lo l lo)|].
  intros a w' E. destruct (Hd a w' E) as (Hp & Hop & Hg).
  split; [exact Hp|]. split; [now apply (in_order_lo l lo)|].
  intros Hroom. apply (gaps_lo sep code l lo); [apply Hg; lia | exact Hs].
Qed.

Lemma lays_sep {A} (sep sep' : Z -> bool) code lo hi (pos : A -> Z) m :
  (forall c, sep c = true -> sep' c = true) ->
  lays sep code lo hi pos m -> lays sep' code lo hi pos m.
Proof.
  intros Hs H w. destruct (H w) as (l & He & Hc & Ho & Hd).
  exists l. split; [exact He|]. split; [exact Hc|]. split; [exact Ho|].
  intros a w' E. destruct (Hd a w' E) as (Hp & Hop & Hg).
  split; [exact Hp|]. split; [exact Hop|].
  intros Hroom. apply (gaps_sep sep sep'); [exact Hs | now apply Hg].
Qed.

Lemma lays_hi {A} sep code lo hi hi' (pos : A -> Z) m :
  hi <= hi' -> lays sep code lo hi pos m -> lays sep code lo hi' pos m.
Proof.
  intros Hle H w. destruct (H w) as (l & He & Hc & Ho & Hd).
  exists l. split; [exact He|]. split; [exact Hc|].
  split; [now apply (in_order_hi l lo hi)|].
  intros a w' E. destruct (Hd a w' E) as (Hp & Hop & Hg).
  split; [lia|]. split; [exact Hop | intros Hroom; apply Hg; lia].
Qed.

Lemma lays_push sep code lo hi t src total_size :
  offset t = lo -> 0 < length t -> lo + length t <= hi ->
  lays sep code lo hi (fun _ : unit => lo + length t) (arena_push t src total_size).
Proof.
  intros Ho Hn Hhi w. unfold arena_push.
  destruct (Z.geb_spec (count (arena w)) (capacity (arena w))) as [Hfull|Hroom].
  - exists []. split; [apply emits_refl|]. split; [reflexivity|].
    cbn [in_order]. split; [lia|]. intros a w' [= _ <-].
    split; [lia|]. split; [lia|]. intros Hr. lia.
  - destruct (register_token _ _ _ _ _) as [r|].
    + exists [erase t]. split; [|split; [reflexivity|]].
      { unfold emits, final, arena, tokens. rewrite map_app. f_equal. simpl.
        f_equal. destruct (_ <? _); [apply erase_absorb | reflexivity]. }
      assert (Hord : in_order lo [erase t] (lo + length t)).
      { cbn [in_order]. change (offset (erase t)) with (offset t).
        change (length (erase t)) with (length t). rewrite Ho. lia. }
      split; [now apply (in_order_hi _ _ (lo + length t))|].
      intros a w' _. split; [lia|]. split; [exact Hord|].
      intros _. cbn [gaps]. change (offset (erase t)) with (offset t).
      change (length (erase t)) with (length t). rewrite Ho.
      split; intros q Hq; lia.
    + exists []. split; [apply emits_refl|]. split; [reflexivity|].
      cbn [in_order]. split; [lia | discriminate].
Qed.

Lemma lays_mark_joiner sep code lo hi :
  lo <= hi -> lays sep code lo hi (fun _ : unit => lo) mark_joiner.
Proof.
  intros Hle w. exists []. unfold mark_joiner.
  destruct (tokens (arena w)) as [|t r] eqn:E.
  - split; [apply emits_refl|]. split; [reflexivity|]. split; [exact Hle|].
    discriminate.
  - split.
    { unfold emits, final, arena, tokens.
      rewrite map_erase_update_last. rewrite app_nil_r. fold (arena w).
      fold (tokens (arena w)). now rewrite E. }
    split; [reflexivity|]. split; [exact Hle|].
    intros a w' _. cbn [in_order gaps]. split; [lia|]. split; [lia|].
    intros _ q Hq. lia.
Qed.

Lemma lays_train sep code lo hi text off len :
  lo <= hi -> lays sep code lo hi (fun _ : unit => lo) (train text off len).
Proof.
  intros Hle w. exists []. split.
  { unfold emits, train, final, arena, tokens. now rewrite app_nil_r. }
  split; [reflexivity|]. split; [exact Hle|].
  intros a w' _. cbn [in_order gaps]. split; [lia|]. split; [lia|].
  intros _ q Hq. lia.
Qed.

Lemma lays_get_model sep code lo hi :
  lo <= hi -> lays sep code lo hi (fun _ : EntropyModel => lo) get_model.
Proof.
  intros Hle w. exists []. split; [apply emits_refl|].
  split; [reflexivity|]. split; [exact Hle|].
  intros a w' _. cbn [in_order gaps]. split; [lia|]. split; [lia|].
  intros _ q Hq. lia.
Qed.

Section Order.

Variable float_gt5 : Z -> Z -> bool.

Variable code : list Z.

Lemma split_loop_lays off len d sp file_size n :
  0 <= off -> 0 <= len < U16 -> off + len < U32 ->
  forall i start te,
    i + Z.of_nat n = len -> 0 <= start <= i ->
    lays is_underscore code (off + start) (off + len) (fun r => off + fst r)
         (split_loop float_gt5 n code off len d sp file_size i start te).
Proof.
  intros Hoff Hlen Hend.
  induction n as [|n IH]; intros i start te Hn Hs.
  - apply lays_ret; cbn [fst]; [lia | intros q Hq; lia].
  - assert (Hfrag : forall stop te', start < stop <= len ->
      lays is_underscore code (off + start) (off + len)
           (fun _ : unit => off + stop)
           (arena_push (fragment_token code off start stop d sp te') code file_size)).
    { intros stop te' Hstop.
      destruct (fragment_token_fields code off start stop d sp te' len)
        as [Ho Hl]; try lia.
      replace (off + stop)
        with (off + start + length (fragment_token code off start stop d sp te'))
        by (rewrite Hl; lia).
      apply lays_push; [exact Ho | rewrite Hl; lia | rewrite Hl; lia]. }
    cbn [split_loop].
    destruct (Z.eqb_spec (byte_at code (off + i)) 95) as [Hu|Hu].
    + (* underscore: the fragment [start, i), then the byte [i] is skipped *)
      apply lays_bind with (pos1 := fun _ : Z => off + i).
      * destruct (Z.gtb_spec i start) as [Hgt|Hle].
        -- apply lays_bind with (pos1 := fun _ : unit => off + i);
             [apply Hfrag; lia|].
           intros _ _. apply lays_ret; [lia | intros q Hq; lia].
        -- apply lays_ret; [lia | intros q Hq; lia].
      * intros te' _. apply lays_bind with (pos1 := fun _ : unit => off + i).
        -- destruct (te' >? 0); [apply lays_mark_joiner; lia|].
           apply lays_ret; [lia | intros q Hq; lia].
        -- intros _ _. apply (lays_lo _ _ (off + (i + 1))); [lia | |apply IH; lia].
           intros q Hq. replace q with (off + i) by lia.
           unfold is_underscore. now rewrite Hu.
    + destruct (Z.ltb_spec i (len - 1)) as [Hlt|Hge]; [|apply IH; lia].
      apply lays_bind with (pos1 := fun _ : EntropyModel => off + start);
        [apply lays_get_model; lia|].
      intros m _.
      destruct (soft_split float_gt5 m code off len start i); [apply IH; lia | |];
        (apply lays_bind with (pos1 := fun _ : unit => off + (i + 1));
         [apply Hfrag; lia | intros _ _; apply IH; lia]).
Qed.

Lemma fragment_lays off len d sp file_size start stop te :
  0 <= off -> 0 <= len < U16 -> off + len < U32 ->
  0 <= start < stop -> stop <= len ->
  lays is_underscore code (off + start) (off + len) (fun _ : unit => off + stop)
       (arena_push (fragment_token code off start stop d sp te) code file_size).
Proof.
  intros Hoff Hlen Hend Hs Hstop.
  destruct (fragment_token_fields code off start stop d sp te len)
    as [Ho Hl]; try lia.
  replace (off + stop)
    with (off + start + length (fragment_token code off start stop d sp te))
    by (rewrite Hl; lia).
  apply lays_push; [exact Ho | rewrite Hl; lia | rewrite Hl; lia].
Qed.

Lemma process_identifier_lays off len d sp file_size :
  0 <= off -> 0 < len < U16 -> off + len < U32 ->
  lays is_underscore code off (off + len) (fun _ => off + len)
       (process_identifier float_gt5 code off len d sp file_size).
Proof.
  intros Hoff Hlen Hend. unfold process_identifier.
  destruct (is_word_locked code off len).
  - apply lays_bind with (pos1 := fun _ : unit => off + len).
    + assert (Ho : offset (locked_token code off len d sp) = off)
        by (cbn [offset locked_token]; apply Z.mod_small; unfold U32 in *; lia).
      assert (Hl : length (locked_token code off len d sp) = len)
        by (cbn [length locked_token]; apply Z.mod_small; unfold U16 in *; lia).
      replace (fun _ : unit => off + len)
        with (fun _ : unit => off + length (locked_token code off len d sp))
        by (now rewrite Hl).
      apply lays_push; [exact Ho | rewrite Hl; lia | rewrite Hl; lia].
    + intros _ _. apply lays_train. lia.
  - apply lays_bind with (pos1 := fun _ : unit => off); [apply lays_train; lia|].
    intros _ _.
    apply lays_bind with (pos1 := fun r : Z * Z => off + fst r).
    + replace off with (off + 0) at 1 by lia.
      apply split_loop_lays; lia.
    + intros [start te] Hb. cbn [fst] in *.
      destruct (Z.ltb_spec start len) as [Hlt|Hge].
      * apply fragment_lays; lia.
      * apply lays_ret; [lia | intros q Hq; lia].
Qed.

Lemma blob_token_lays start len d st_size s e :
  0 <= start -> 0 <= len < U16 -> start + len < U32 ->
  0 <= s < e -> e <= len ->
  lays is_blob_separator code (start + s) (start + len) (fun _ : unit => start + e)
       (arena_push (blob_token code start s (e - s) d) code st_size) /\
  (e = len ->
   lays is_blob_separator code (start + s) (start + len)
        (fun _ : unit => start + len)
        (arena_push (blob_tail_token code start s len) code st_size)).
Proof.
  intros Hstart Hlen Hend Hs He.
  destruct (blob_token_fields code start s e d len)
    as (Ho1 & Hl1 & Ho2 & Hl2); try lia.
  split.
  - replace (start + e)
      with (start + s + length (blob_token code start s (e - s) d))
      by (rewrite Hl1; lia).
    apply lays_push; [exact Ho1 | rewrite Hl1; lia | rewrite Hl1; lia].
  - intros ->.
    replace (fun _ : unit => start + len)
      with (fun _ : unit => start + s + length (blob_tail_token code start s len))
      by (rewrite Hl2; replace (start + s + (len - s)) with (start + len) by lia;
          reflexivity).
    apply lays_push; [exact Ho2 | rewrite Hl2; lia | rewrite Hl2; lia].
Qed.

Lemma blob_loop_lays start len d st_size n :
  0 <= start -> 0 <= len < U16 -> start + len < U32 ->
  forall i sub_start,
    i + Z.of_nat n = len -> 0 <= sub_start <= i ->
    lays is_blob_separator code (start + sub_start) (start + len)
         (fun r => start + r)
         (blob_loop n code st_size start d i sub_start).
Proof.
  intros Hstart Hlen Hend.
  induction n as [|n IH]; intros i sub_start Hn Hs.
  - apply lays_ret; [lia | intros q Hq; lia].
  - cbn [blob_loop].
    rewrite (Z.mod_small (start + i)) by (unfold U32 in *; lia).
    fold (is_blob_separator (byte_at code (start + i))).
    destruct (is_blob_separator (byte_at code (start + i))) eqn:Es;
      [|apply IH; lia].
    apply lays_bind with (pos1 := fun _ : unit => start + i).
    + destruct (Z.gtb_spec i sub_start) as [Hgt|Hle].
      * apply (blob_token_lays start len d st_size sub_start i); lia.
      * apply lays_ret; [lia | intros q Hq; lia].
    + intros _ _. apply (lays_lo _ _ (start + (i + 1))); [lia | |apply IH; lia].
      intros q Hq. replace q with (start + i) by lia. exact Es.
Qed.

(** The blob path of the main loop, from the leaf start to its end. *)
Lemma blob_leaf_lays start len d st_size :
  0 <= start -> 0 <= len < U16 -> start + len < U32 ->
  lays is_blob_separator code start (start + len) (fun _ : unit => start + len)
       (sub_start <- blob_loop (Z.to_nat len) code st_size start d 0 0 ;;
        if sub_start <? len then
          arena_push (blob_tail_token code start sub_start len) code st_size
        else ret tt).
Proof.
  intros Hstart Hlen Hend.
  apply lays_bind with (pos1 := fun r : Z => start + r).
  - replace start with (start + 0) at 1 by lia. apply blob_loop_lays; lia.
  - intros sub_start Hb.
    destruct (Z.ltb_spec sub_start len) as [Hlt|Hge].
    + apply (blob_token_lays start len d st_size sub_start len); lia.
    + apply lays_ret; [lia | intros q Hq; lia].
Qed.

Lemma process_leaf_lays st_size lf :
  leaf_ok st_size lf ->
  lays (fun _ => true) code (start_byte lf) (start_byte lf + leaf_len lf)
       (fun _ => start_byte lf + leaf_len lf)
       (process_leaf float_gt5 code st_size lf).
Proof.
  intros Hok.
  destruct (leaf_ok_bounds _ _ Hok) as (Hlen & Hstart & Hend & Hint).
  unfold process_leaf. fold (leaf_len lf).
  destruct (Z.gtb_spec (leaf_len lf) 0) as [Hpos|Hle];
    [|apply lays_ret; [lia | reflexivity]].
  intros w. destruct (eaten code (start_byte lf) (arena w)).
  { refine ((_ : lays (fun _ => true) code (start_byte lf)
                      (start_byte lf + leaf_len lf)
                      (fun _ : unit => start_byte lf + leaf_len lf) (ret tt)) w).
    apply lays_ret; [lia | reflexivity]. }
  destruct (classify code (node_type lf) (start_byte lf) (leaf_len lf));
    refine ((_ : lays (fun _ => true) code _ _ (fun _ : unit => _) _) w).
  - rewrite Hint.
    apply (lays_sep is_underscore); [reflexivity|].
    apply process_identifier_lays; lia.
  - apply (lays_sep is_blob_separator); [reflexivity|].
    apply blob_leaf_lays; lia.
  - set (t := default_token _ _ _ _ _ _).
    assert (Hl : length t = leaf_len lf) by reflexivity.
    rewrite <- Hl.
    apply lays_push; [reflexivity | rewrite Hl; lia | rewrite Hl; lia].
Qed.

Lemma run_leaves_lays st_size ls : forall lo,
  Forall (leaf_ok st_size) ls -> leaves_in_order lo ls -> lo <= st_size ->
  lays (fun _ => true) code lo st_size (fun _ => st_size)
       (run_leaves float_gt5 code st_size ls).
Proof.
  induction ls as [|lf ls IH]; intros lo Hok Hord Hlo.
  - apply lays_ret; [lia | reflexivity].
  - inversion Hok as [|? ? Hlf Hrest]; subst. destruct Hord as [Hs Hord].
    destruct (leaf_ok_bounds _ _ Hlf) as (Hlen & Hstart & Hend & _).
    assert (Hle : leaf_len lf <= end_byte lf - start_byte lf)
      by (unfold leaf_len, U16; apply Z.mod_le; destruct Hlf; lia).
    destruct Hlf as (H1 & H2 & H3).
    cbn [run_leaves].
    apply lays_bind with (pos1 := fun _ : unit => start_byte lf + leaf_len lf).
    + apply (lays_lo _ _ (start_byte lf)); [lia | reflexivity|].
      apply (lays_hi _ _ _ (start_byte lf + leaf_len lf)); [lia|].
      now apply process_leaf_lays.
    + intros _ _. apply (lays_lo _ _ (end_byte lf)); [lia | reflexivity|].
      apply IH; [exact Hrest | exact Hord | lia].
Qed.

End Order.

Lemma lays_appended {A} sep code lo hi (pos : A -> Z) (m : M A) w :
  lays sep code lo hi pos m ->
  in_order lo (appended w (final (m w))) hi /\
  forall a w', m w = Done a w' ->
    count (arena w) + (hi - lo) <= capacity (arena w) ->
    gaps sep code lo (appended w w') (pos a).
Proof.
  intros H. destruct (H w) as (l & He & _ & Ho & Hd).
  pose proof (emits_appended _ _ _ He) as Ea. split.
  - apply in_order_erase. now rewrite Ea.
  - intros a w' E Hroom. destruct (Hd a w' E) as (_ & _ & Hg).
    rewrite E in Ea. cbn [final] in Ea.
    apply gaps_erase. rewrite Ea. now apply Hg.
Qed.

(** X15.  Coverage.  When the arena has a place for each byte of the
    identifier and [process_identifier] returns, the tokens it appended
    are in order inside the identifier and every byte of the identifier
    outside them is an underscore: no fragment is missing. *)
Theorem fragments_cover_identifier (float_gt5 : Z -> Z -> bool) (src : list Z)
    (off len d : Z) (sp : bool) (file_size : Z) (w w' : World) :
  0 <= off -> 0 < len < U16 -> off + len < U32 ->
  count (arena w) + len <= capacity (arena w) ->
  process_identifier float_gt5 src off len d sp file_size w = Done tt w' ->
  in_order off (appended w w') (off + len) /\
  gaps is_underscore src off (appended w w') (off + len).
Proof.
  intros Hoff Hlen Hend Hroom E.
  destruct (lays_appended _ _ _ _ _ _ w
              (process_identifier_lays float_gt5 src off len d sp file_size
                 Hoff Hlen Hend)) as [Ho Hg].
  rewrite E in Ho. cbn [final] in Ho. split; [exact Ho|].
  apply (Hg tt w' E). lia.
Qed.

Lemma start_world_has_room C : 0 <= C < SEEN_TABLE_SIZE -> has_room C (start_world C).
Proof.
  intros H. split; [reflexivity|]. exists []. split; [exact init_registry_unused|].
  unfold count. cbn [start_world arena tokens List.length]. lia.
Qed.

(** [my_var_name]: the fragments [my], [var], [name] and two underscores. *)
Lemma fragments_cover_identifier_witness :
  exists w',
    process_identifier exact_gt5 code_my_var_name 0 11 1 false 11 (start_world 11)
    = Done tt w' /\
    in_order 0 (appended (start_world 11) w') (0 + 11) /\
    gaps is_underscore code_my_var_name 0 (appended (start_world 11) w') (0 + 11).
Proof.
  destruct (process_identifier_returns exact_gt5 code_my_var_name 11 11
              (fun _ _ => eq_refl) 0 11 1 false (start_world 11))
    as ([] & w' & E & _).
  { apply start_world_has_room. unfold SEEN_TABLE_SIZE. lia. }
  exists w'. split; [exact E|].
  apply (fragments_cover_identifier exact_gt5 code_my_var_name 0 11 1 false 11
           (start_world 11) w');
    [lia | unfold U16; lia | unfold U32; lia | vm_compute; discriminate | exact E].
Defined.

Lemma appended_same w : appended w w = [].
Proof. unfold appended. apply skipn_all. Qed.

(** The blob loop covers the [len] bytes it walks, [len] being the
    [uint16_t] length that [main] computes. *)
Lemma blob_fragments_cover_len (float_gt5 : Z -> Z -> bool) (code : list Z)
    (st_size : Z) (lf : Leaf) (w w' : World) :
  leaf_ok st_size lf ->
  leaf_class_of code lf = BlobLeaf ->
  eaten code (start_byte lf) (arena w) = false ->
  count (arena w) + leaf_len lf <= capacity (arena w) ->
  process_leaf float_gt5 code st_size lf w = Done tt w' ->
  in_order (start_byte lf) (appended w w') (start_byte lf + leaf_len lf) /\
  gaps is_blob_separator code (start_byte lf) (appended w w')
       (start_byte lf + leaf_len lf).
Proof.
  intros Hok Hclass Heaten Hroom E.
  destruct (leaf_ok_bounds _ _ Hok) as (Hlen & Hstart & Hend & _).
  unfold process_leaf in E. fold (leaf_len lf) in E.
  unfold leaf_class_of in Hclass.
  destruct (Z.gtb_spec (leaf_len lf) 0) as [Hpos|Hle].
  - rewrite Heaten, Hclass in E.
    destruct (lays_appended _ _ _ _ _ _ w
                (blob_leaf_lays code (start_byte lf) (leaf_len lf)
                   (Z.rem (leaf_depth lf) 7) st_size Hstart
                   ltac:(lia) Hend)) as [Ho Hg].
    rewrite E in Ho. cbn [final] in Ho. split; [exact Ho|].
    apply (Hg tt w' E). lia.
  - unfold ret in E. injection E as <-. rewrite appended_same.
    cbn [in_order gaps]. split; [lia | intros q Hq; lia].
Qed.

(** The fragments of the comment [// x y]. *)
Example comment_xy_fragments :
  map span_of
      (appended (start_world 6)
         (final (process_leaf exact_gt5 code_comment_xy 6
                              (mkLeaf 0 6 "comment" 1) (start_world 6))))
  = [(3, 1); (5, 1)].
Proof. vm_compute. reflexivity. Qed.

(** X16.  Coverage of a blob.  Take a leaf of the blob class that is
    shorter than 65536 bytes, so that the [uint16_t] length of [main] is
    its length, and that the symbol eater does not drop.  When the arena
    has a place for each of its bytes and the main loop returns from the
    leaf, the fragments it appended are in order inside the leaf and every
    byte of the leaf outside them is white space or punctuation. *)
Theorem fragments_cover_blob (float_gt5 : Z -> Z -> bool) (code : list Z)
    (st_size : Z) (lf : Leaf) (w w' : World) :
  leaf_ok st_size lf ->
  end_byte lf - start_byte lf < U16 ->
  leaf_class_of code lf = BlobLeaf ->
  eaten code (start_byte lf) (arena w) = false ->
  count (arena w) + (end_byte lf - start_byte lf) <= capacity (arena w) ->
  process_leaf float_gt5 code st_size lf w = Done tt w' ->
  in_order (start_byte lf) (appended w w') (end_byte lf) /\
  gaps is_blob_separator code (start_byte lf) (appended w w') (end_byte lf).
Proof.
  intros Hok Hshort Hclass Heaten Hroom E.
  assert (Hlen : leaf_len lf = end_byte lf - start_byte lf).
  { unfold leaf_len. apply Z.mod_small. unfold leaf_ok in Hok. lia. }
  replace (end_byte lf) with (start_byte lf + leaf_len lf) by lia.
  apply (blob_fragments_cover_len float_gt5 code st_size lf w w' Hok Hclass Heaten);
    [lia | exact E].
Qed.

(** The comment [// x y]: the fragments [x] and [y]. *)
Lemma fragments_cover_blob_witness :
  exists w',
    process_leaf exact_gt5 code_comment_xy 6 (mkLeaf 0 6 "comment" 1) (start_world 6)
    = Done tt w' /\
    map span_of (appended (start_world 6) w') = [(3, 1); (5, 1)] /\
    in_order 0 (appended (start_world 6) w') 6 /\
    gaps is_blob_separator code_comment_xy 0 (appended (start_world 6) w') 6.
Proof.
  destruct (process_leaf_returns exact_gt5 code_comment_xy 6 6
              (fun _ _ => eq_refl) (mkLeaf 0 6 "comment" 1) (start_world 6))
    as ([] & w' & E & _).
  { apply start_world_has_room. unfold SEEN_TABLE_SIZE. lia. }
  exists w'. split; [exact E|]. split.
  { pose proof comment_xy_fragments as H. rewrite E in H. exact H. }
  apply (fragments_cover_blob exact_gt5 code_comment_xy 6 (mkLeaf 0 6 "comment" 1)
           (start_world 6) w');
    [unfold leaf_ok; cbn; lia | vm_compute; reflexivity | vm_compute; reflexivity
    | reflexivity | vm_compute; discriminate | exact E].
Defined.

Lemma marks_ret {A} te (pos : A -> Z) a :
  te <= pos a -> marks_first te pos (ret a).
Proof.
  intros H w. exists []. split; [apply emits_refl|].
  split; [constructor|]. split; [constructor|].
  unfold ret. intros a' w' [= <- _]. split; [exact H | reflexivity].
Qed.

Lemma marks_bind {A B} te (pos1 : A -> Z) (pos2 : B -> Z) (m : M A)
    (k : A -> M B) :
  0 <= te -> marks_first te pos1 m ->
  (forall a, te <= pos1 a -> marks_first (pos1 a) pos2 (k a)) ->
  marks_first te pos2 (bind m k).
Proof.
  intros Hte Hm Hk w. destruct (Hm w) as (l1 & He1 & Ht1 & Hp1 & Hd1).
  unfold bind. destruct (m w) as [a w1|w1] eqn:E; cbn [final] in *.
  - destruct (Hd1 a w1 eq_refl) as [Hle Hnil].
    destruct (Hk a Hle w1) as (l2 & He2 & Ht2 & Hp2 & Hd2).
    exists (l1 ++ l2). split; [exact (emits_trans _ _ _ _ _ He1 He2)|].
    split; [|split].
    + destruct l1 as [|x r]; [exact Ht2|].
      cbn [app tl] in *. apply Forall_app. split; [exact Ht1|].
      apply Hp2. destruct (Z.eq_dec (pos1 a) 0) as [E0|]; [|lia].
      specialize (Hnil E0). discriminate Hnil.
    + intros Hpos. apply Forall_app. split; [now apply Hp1 | apply Hp2; lia].
    + intros b w2 E2. destruct (Hd2 b w2 E2) as [Hle2 Hnil2].
      split; [lia|]. intros E0.
      rewrite Hnil by lia. now rewrite Hnil2.
  - exists l1. split; [exact He1|]. split; [exact Ht1|]. split; [exact Hp1|].
    discriminate.
Qed.

Lemma marks_push te t code total_size :
  0 <= te -> (0 < te -> no_pre_space t) ->
  marks_first te (fun _ : unit => te + 1) (arena_push t code total_size).
Proof.
  intros Hte Ht w.
  destruct (pushes_arena_push (fun x => pre_space (meta x) = pre_space (meta t))
              t code total_size eq_refl w) as (l & He & Hl & _).
  exists l. split; [exact He|].
  assert (Hone : l = [] \/ exists x, l = [x]).
  { revert He. unfold arena_push, emits.
    destruct (count (arena w) >=? capacity (arena w)); cbn [final].
    - intros He. left. rewrite <- (app_nil_r (map erase (tokens (arena w)))) in He at 1.
      now apply app_inv_head in He.
    - destruct (register_token _ _ _ _ _); cbn [final arena tokens].
      + rewrite map_app. intros He. apply app_inv_head in He.
        right. eexists. symmetry. exact He.
      + intros He. left.
        rewrite <- (app_nil_r (map erase (tokens (arena w)))) in He at 1.
        now apply app_inv_head in He. }
  split; [|split].
  - destruct Hone as [-> | [x ->]]; constructor.
  - intros Hpos. revert Hl. apply Forall_impl. intros x Hx.
    unfold no_pre_space. rewrite Hx. now apply Ht.
  - intros a w' _. split; [lia | intros E; lia].
Qed.

Lemma marks_mark_joiner te : marks_first te (fun _ : unit => te) mark_joiner.
Proof.
  intros w. exists []. split.
  { unfold emits, mark_joiner.
    destruct (tokens (arena w)) as [|t r] eqn:E.
    - cbn [final]. rewrite E. reflexivity.
    - unfold final, arena, tokens.
      rewrite map_erase_update_last. now rewrite app_nil_r. }
  split; [constructor|]. split; [constructor|].
  intros a w' _. split; [lia | reflexivity].
Qed.

Lemma marks_get_model te : marks_first te (fun _ : EntropyModel => te) get_model.
Proof.
  intros w. exists []. split; [apply emits_refl|].
  split; [constructor|]. split; [constructor|].
  intros a w' _. split; [lia | reflexivity].
Qed.

Lemma marks_train te text off len :
  marks_first te (fun _ : unit => te) (train text off len).
Proof.
  intros w. exists []. split.
  { unfold emits, train, final, arena, tokens. now rewrite app_nil_r. }
  split; [constructor|]. split; [constructor|].
  intros a w' _. split; [lia | reflexivity].
Qed.

Lemma fragment_no_pre_space src off start stop d sp te :
  0 < te -> no_pre_space (fragment_token src off start stop d sp te).
Proof.
  intros H. unfold no_pre_space. cbn [meta pre_space fragment_token].
  destruct (Z.eqb_spec te 0); [lia | reflexivity].
Qed.

Lemma split_loop_marks float_gt5 src off len d sp file_size n :
  forall i start te, 0 <= te ->
    marks_first te (fun r => snd r)
      (split_loop float_gt5 n src off len d sp file_size i start te).
Proof.
  induction n as [|n IH]; intros i start te Hte.
  - apply marks_ret. cbn [snd]. lia.
  - assert (Hfrag : forall stop,
      marks_first te (fun _ : unit => te + 1)
        (arena_push (fragment_token src off start stop d sp te) src file_size)).
    { intros stop. apply marks_push; [exact Hte|].
      now apply fragment_no_pre_space. }
    cbn [split_loop].
    destruct (byte_at src (off + i) =? 95).
    + apply marks_bind with (pos1 := fun te' : Z => te'); [exact Hte | |].
      * destruct (i >? start); [|apply marks_ret; lia].
        apply marks_bind with (pos1 := fun _ : unit => te + 1);
          [exact Hte | apply Hfrag|].
        intros _ _. apply marks_ret. lia.
      * intros te' Hle.
        apply marks_bind with (pos1 := fun _ : unit => te'); [lia | |].
        -- destruct (te' >? 0); [apply marks_mark_joiner | apply marks_ret; lia].
        -- intros _ _. apply IH. lia.
    + destruct (i <? len - 1); [|now apply IH].
      apply marks_bind with (pos1 := fun _ : EntropyModel => te);
        [exact Hte | apply marks_get_model|].
      intros m _.
      destruct (soft_split float_gt5 m src off len start i); [now apply IH | |];
        (apply marks_bind with (pos1 := fun _ : unit => te + 1);
         [exact Hte | apply Hfrag | intros _ _; apply IH; lia]).
Qed.

Lemma tl_map {A B} (f : A -> B) l : tl (map f l) = map f (tl l).
Proof. now destruct l. Qed.

(** What [process_identifier] appends: only the first token can carry
    pre_space. *)
Lemma process_identifier_first float_gt5 src off len d sp file_size w :
  exists l,
    emits w (final (process_identifier float_gt5 src off len d sp file_size w)) l /\
    Forall no_pre_space (tl l).
Proof.
  unfold process_identifier. destruct (is_word_locked src off len).
  - destruct (marks_bind 0 (fun _ : unit => 1) (fun _ : unit => 1)
                (arena_push (locked_token src off len d sp) src file_size)
                (fun _ => train src off len) ltac:(lia)) with (w := w)
      as (l & He & Ht & _).
    + apply (marks_push 0); [lia | intros H; lia].
    + intros _ _. apply marks_train.
    + exists l. split; [exact He | exact Ht].
  - set (rest := fun r : Z * Z =>
                   let '(start, tokens_emitted) := r in
                   if start <? len
                   then arena_push (fragment_token src off start len d sp
                                                   tokens_emitted) src file_size
                   else ret tt).
    assert (Hrest : forall r, 0 <= snd r ->
              marks_first (snd r) (fun _ : unit => snd r + 1) (rest r) \/
              marks_first (snd r) (fun _ : unit => snd r) (rest r)).
    { intros [start te] Hte. cbn [snd] in *. unfold rest.
      destruct (start <? len).
      - left. apply marks_push; [exact Hte|]. now apply fragment_no_pre_space.
      - right. apply marks_ret. lia. }
    pose proof (split_loop_marks float_gt5 src off len d sp file_size
                  (Z.to_nat len) 0 0 0 ltac:(lia)) as Hloop.
    unfold bind at 1. unfold train at 1.
    set (w0 := mkWorld _ _ _).
    destruct (Hloop w0) as (l1 & He1 & Ht1 & _ & Hd1).
    assert (E0 : emits w w0 [])
      by (unfold emits, w0; cbn [arena tokens]; now rewrite app_nil_r).
    unfold bind.
    destruct (split_loop float_gt5 (Z.to_nat len) src off len d sp file_size 0 0 0 w0)
      as [r w1|w1] eqn:E; cbn [final] in *.
    + destruct (Hd1 r w1 eq_refl) as [Hle Hnil].
      fold (rest r).
      assert (Hk : exists l2, emits w1 (final (rest r w1)) l2 /\
                     Forall no_pre_space (tl l2) /\
                     (0 < snd r -> Forall no_pre_space l2)).
      { destruct (Hrest r Hle) as [H | H]; destruct (H w1) as (l2 & H1 & H2 & H3 & _);
          exists l2; auto. }
      destruct Hk as (l2 & He2 & Ht2 & Hp2).
      exists (l1 ++ l2).
      split; [exact (emits_trans _ _ _ _ _ (emits_trans _ _ _ _ _ E0 He1) He2)|].
      destruct l1 as [|x l1']; [exact Ht2|].
      cbn [app tl] in *. apply Forall_app. split; [exact Ht1|].
      apply Hp2. destruct (Z.eq_dec (snd r) 0) as [Ez|]; [|lia].
      specialize (Hnil Ez). discriminate Hnil.
    + exists l1. split; [exact (emits_trans _ _ _ _ _ E0 He1) | exact Ht1].
Qed.

(** X17.  pre_space goes to the first sub-token only.  Of the tokens that
    [process_identifier] appends, none but the first carries pre_space;
    when the leaf has no white space before it, none does. *)
Theorem pre_space_on_first_fragment_only (float_gt5 : Z -> Z -> bool)
    (src : list Z) (off len d : Z) (sp : bool) (file_size : Z) (w : World) :
  Forall no_pre_space
         (tl (appended w (final (process_identifier float_gt5 src off len d sp
                                                    file_size w)))) /\
  (sp = false ->
   Forall no_pre_space
          (appended w (final (process_identifier float_gt5 src off len d sp
                                                 file_size w)))).
Proof.
  split.
  - destruct (process_identifier_first float_gt5 src off len d sp file_size w)
      as (l & He & Ht).
    apply emits_appended in He. rewrite <- He, tl_map in Ht.
    apply (proj1 (Forall_map erase no_pre_space _)) in Ht.
    revert Ht. apply Forall_impl. intros t Ht. exact Ht.
  - intros ->.
    appended_token (process_identifier_pushes float_gt5 src off len d false file_size)
                   t Ht.
    unfold no_pre_space.
    change (pre_space (meta t)) with (pre_space (meta (erase t))).
    destruct Ht as [[_ ->] | [_ (start & stop & te & _ & _ & -> & _)]].
    + reflexivity.
    + cbn [meta pre_space fragment_token]. now destruct (te =? 0).
Qed.


(** [my_var_name] with no white space before it: none of the fragments
    [my], [var], [name] carries pre_space. *)
Lemma pre_space_on_first_fragment_only_witness :
  Forall no_pre_space
         (appended (start_world 11)
            (final (process_identifier exact_gt5 code_my_var_name 0 11 1 false
                                       11 (start_world 11)))).
Proof.
  exact (proj2 (pre_space_on_first_fragment_only exact_gt5 code_my_var_name
                  0 11 1 false 11 (start_world 11)) eq_refl).
Defined.

(* ================================================================== *)
(** ** Parse trees, and the model during a run                      *)
(* ================================================================== *)

Lemma leaves_between_app l1 : forall lo mid l2 hi,
  leaves_between lo l1 mid -> leaves_between mid l2 hi ->
  leaves_between lo (l1 ++ l2) hi.
Proof.
  induction l1 as [|lf r IH]; intros lo mid l2 hi H1 H2; cbn [app leaves_between] in *.
  - destruct l2; cbn [leaves_between] in *; [lia|]. split; [lia | apply H2].
  - destruct H1 as [Ha Hb]. split; [exact Ha | now apply (IH _ mid)].
Qed.

Lemma leaves_between_hi ls : forall lo hi hi',
  leaves_between lo ls hi -> hi <= hi' -> leaves_between lo ls hi'.
Proof.
  induction ls as [|lf r IH]; intros lo hi hi' H Hle; cbn [leaves_between] in *;
    [lia|].
  destruct H as [Ha Hb]. split; [exact Ha | now apply (IH _ hi)].
Qed.

Lemma leaves_between_ok ls : forall lo st_size,
  0 <= lo -> st_size < 2147483648 -> leaves_between lo ls st_size ->
  Forall (leaf_ok st_size) ls /\ leaves_in_order lo ls.
Proof.
  induction ls as [|lf r IH]; intros lo st_size Hlo Hsz H; cbn [leaves_between] in H.
  - split; constructor.
  - destruct H as [Ha Hb].
    destruct (IH (end_byte lf) st_size ltac:(lia) Hsz Hb) as [H1 H2].
    assert (Hend : end_byte lf <= st_size).
    { clear - Hb. revert Hb. generalize (end_byte lf). induction r as [|x r IHr];
        intros e H; cbn [leaves_between] in H; [exact H|].
      destruct H as [H1 H2]. apply IHr in H2. lia. }
    split.
    + constructor; [|exact H1]. unfold leaf_ok. lia.
    + cbn [leaves_in_order]. split; [lia | exact H2].
Qed.

(** The walk of [main] over a tree of nested spans hands over the leaves
    in source order. *)
Lemma leaves_of_between : forall n d lo hi,
  tree_in lo hi n -> leaves_between lo (leaves_of d n) (node_end n).
Proof.
  fix IH 1. intros [ty s e cs] d lo hi (Hlo & Hse & Hhi & Hcs).
  cbn [leaves_of node_end].
  destruct cs as [|c0 cs0]; [cbn [leaves_between start_byte end_byte]; lia|].
  assert (Hsib : forall cs lo',
            (fix siblings (lo : Z) (cs : list TSNode) : Prop :=
               match cs with
               | [] => True
               | c :: r => tree_in lo e c /\ siblings (node_end c) r
               end) lo' cs ->
            lo' <= e ->
            leaves_between lo' (flat_map (leaves_of (d + 1)) cs) e).
  { induction cs as [|c r IHr]; intros lo' H Hle; [exact Hle|].
    destruct H as [Hc Hr]. cbn [flat_map].
    apply (leaves_between_app _ lo' (node_end c)).
    - exact (IH c (d + 1) lo' e Hc).
    - apply IHr; [exact Hr|]. destruct c as [ty' s' e' cs']. cbn in Hc |- *. lia. }
  generalize (Hsib (c0 :: cs0) s Hcs Hse).
  generalize (flat_map (leaves_of (d + 1)) (c0 :: cs0)).
  intros ls Hls. destruct ls as [|lf r]; cbn [leaves_between] in *; [lia|].
  split; [lia | apply Hls].
Qed.

Lemma tree_in_end lo hi n : tree_in lo hi n -> node_end n <= hi.
Proof. destruct n as [ty s e cs]. cbn. lia. Qed.

(** X18.  The tokens follow the source.  When the leaves come in source
    order, do not overlap and lie in a source below 2 GiB, the tokens
    appended by the main loop are in source order too: each one is not
    empty, starts where the one before it ends or later, and the last one
    ends inside the file.  The walk of [main] over a parse tree of nested
    spans hands over such leaves, so the arena of a whole run is in
    source order. *)
Theorem tokens_follow_the_source (float_gt5 : Z -> Z -> bool) (code : list Z) :
  (forall st_size ls w,
     Forall (leaf_ok st_size) ls -> leaves_in_order 0 ls -> 0 <= st_size ->
     in_order 0 (appended w (final (run_leaves float_gt5 code st_size ls w)))
              st_size) /\
  (forall existing root o,
     tree_in 0 (Z.of_nat (List.length code)) root ->
     Z.of_nat (List.length code) < 2147483648 ->
     tokenize float_gt5 existing code root = Some o ->
     in_order 0 (tokens (arena (final o))) (Z.of_nat (List.length code))).
Proof.
  assert (Hrun : forall st_size ls w,
     Forall (leaf_ok st_size) ls -> leaves_in_order 0 ls -> 0 <= st_size ->
     in_order 0 (appended w (final (run_leaves float_gt5 code st_size ls w)))
              st_size).
  { intros st_size ls w Hok Hord Hsz.
    exact (proj1 (lays_appended _ _ _ _ _ _ w
                    (run_leaves_lays float_gt5 code st_size ls 0 Hok Hord Hsz))). }
  split; [exact Hrun|].
  intros existing root o Htree Hsz. unfold tokenize, boot.
  destruct (load_registry existing init_registry) as [tbl|]; [|discriminate].
  intros [= <-].
  pose proof (leaves_of_between root 0 0 _ Htree) as Hb.
  apply (leaves_between_hi _ _ _ (Z.of_nat (List.length code))) in Hb;
    [|now apply (tree_in_end 0)].
  destruct (leaves_between_ok _ 0 _ ltac:(lia) Hsz Hb) as [Hok Hord].
  exact (Hrun _ (leaves_of 0 root)
           (mkWorld (mkArena [] (Z.of_nat (List.length code)))
                    (mkRegistry tbl (Some existing)) (pretrain 20 model_zero))
           Hok Hord ltac:(lia)).
Qed.

Lemma tokens_follow_the_source_witness :
  in_order 0 (tokens (arena (final (run_leaves exact_gt5 code_my_name 14
                                               (leaves_of 0 tree_my_name)
                                               (start_world 14))))) 14.
Proof.
  apply (proj2 (tokens_follow_the_source exact_gt5 code_my_name) [] tree_my_name
           (run_leaves exact_gt5 code_my_name 14 (leaves_of 0 tree_my_name)
                       (start_world 14))).
  - cbn. lia.
  - vm_compute. reflexivity.
  - reflexivity.
Defined.

(** *** The model during a run *)

Lemma model_train_sequence_consistent m text off len :
  Forall is_byte text -> model_consistent m ->
  model_consistent (model_train_sequence m text off len).
Proof.
  intros Ht [Hr Hs]. split.
  - now apply model_train_sequence_in_range.
  - unfold model_train_sequence.
    destruct (len <? 2); [exact Hs | now apply train_loop_totals_match].
Qed.

Lemma train_vocab_consistent m : model_consistent m -> model_consistent (train_vocab m).
Proof.
  unfold train_vocab. revert m.
  induction LOCKED_VOCAB as [|w ws IH]; intros m Hm; [exact Hm|].
  cbn [fold_left]. apply IH. cbv zeta.
  apply model_train_sequence_consistent; [apply bytes_of_string_are_bytes | exact Hm].
Qed.

Lemma pretrain_consistent n : forall m,
  model_consistent m -> model_consistent (pretrain n m).
Proof.
  induction n as [|n IH]; intros m Hm; [exact Hm|].
  cbn [pretrain]. apply IH. now apply train_vocab_consistent.
Qed.

Lemma model_zero_consistent : model_consistent model_zero.
Proof. split; [exact model_zero_in_range | exact model_zero_totals_match]. Qed.

(** X19.  Training keeps the invariant that makes [counts[a][b] /
    totals[a]] a frequency: on a text of bytes, the entries stay uint32_t
    and [totals[a]] stays equal, modulo 2^32, to the sum of the row
    [counts[a][0 .. 255]].  The invariant holds after the pre-training of
    [main] and, for a source of bytes, in the model that a run leaves. *)
Theorem model_train_sequence_keeps_row_sums (float_gt5 : Z -> Z -> bool) :
  (forall m text off len,
     Forall is_byte text -> model_consistent m ->
     model_consistent (model_train_sequence m text off len)) /\
  model_consistent (pretrain 20 model_zero) /\
  (forall existing code root o,
     Forall is_byte code ->
     tokenize float_gt5 existing code root = Some o ->
     model_consistent (global_model (final o))).
Proof.
  split; [exact model_train_sequence_consistent|].
  split; [apply pretrain_consistent, model_zero_consistent|].
  intros existing code root o Hcode. unfold tokenize, boot.
  destruct (load_registry existing init_registry) as [tbl|]; [|discriminate].
  intros [= <-].
  apply (run_leaves_keeps float_gt5 code (Z.of_nat (List.length code))
           (fun w => model_consistent (global_model w))).
  - intros t _ w Hw. unfold arena_push.
    destruct (_ >=? _); [exact Hw|].
    destruct (register_token _ _ _ _ _); exact Hw.
  - intros w Hw. unfold mark_joiner.
    destruct (tokens (arena w)); exact Hw.
  - intros off len w Hw. cbn [final train global_model].
    now apply model_train_sequence_consistent.
  - exact (pretrain_consistent 20 model_zero model_zero_consistent).
Qed.

Lemma model_train_sequence_keeps_row_sums_witness :
  model_consistent (model_train_sequence model_zero (bytes_of_string "abab") 0 4).
Proof.
  apply (proj1 (model_train_sequence_keeps_row_sums exact_gt5)).
  - apply bytes_of_string_are_bytes.
  - exact model_zero_consistent.
Defined.

(* ================================================================== *)
(** ** The joiner mark                                              *)
(* ================================================================== *)

Lemma triple_ret {A} (P : World -> Prop) (Q : A -> World -> Prop) a :
  (forall w, P w -> Q a w) -> triple P (ret a) Q.
Proof. intros H w a' w' Hw [= <- <-]. now apply H. Qed.

Lemma triple_bind {A B} (P : World -> Prop) (Q : A -> World -> Prop)
    (R : B -> World -> Prop) (m : M A) (k : A -> M B) :
  triple P m Q -> (forall a, triple (Q a) (k a) R) -> triple P (bind m k) R.
Proof.
  intros Hm Hk w b w' Hw. unfold bind.
  destruct (m w) as [a w1|w1] eqn:E; [|discriminate].
  intros E'. exact (Hk a w1 b w' (Hm w a w1 Hw E) E').
Qed.

Lemma triple_weaken {A} (P P' : World -> Prop) (Q Q' : A -> World -> Prop) m :
  (forall w, P' w -> P w) -> (forall a w, Q a w -> Q' a w) ->
  triple P m Q -> triple P' m Q'.
Proof. intros HP HQ H w a w' Hw E. apply HQ. exact (H w a w' (HP w Hw) E). Qed.

Lemma has_joiner_absorb c t : has_joiner (meta (absorb c t)) = has_joiner (meta t).
Proof.
  unfold absorb.
  repeat match goal with |- context [if ?b then _ else _] => destruct b end;
    reflexivity.
Qed.

Lemma update_last_snoc {A} (f : A -> A) l x : update_last f (l ++ [x]) = l ++ [f x].
Proof.
  induction l as [|y l IH]; [reflexivity|].
  cbn [app]. destruct (l ++ [x]) as [|z r] eqn:E.
  - destruct l; discriminate E.
  - change (update_last f (y :: z :: r)) with (y :: update_last f (z :: r)).
    now rewrite IH.
Qed.

Lemma joiner_state_skip code hi pos pos' te te' w :
  joiner_state code hi pos te w -> pos <= pos' -> te' <= 0 ->
  joiner_state code hi pos' te' w.
Proof.
  intros (Hr & Hj & _) Hle Hte. split; [lia|]. split; [exact Hj | intros H; lia].
Qed.

(** A push: the token lands in the arena, unmarked, and ends at the new
    position. *)
Lemma push_joiner_state code hi fs t pos te te' :
  has_joiner (meta t) = false -> offset t = pos -> 0 < length t ->
  pos + length t <= hi ->
  triple (joiner_state code hi pos te) (arena_push t code fs)
         (fun _ w => joiner_state code hi (pos + length t) te' w).
Proof.
  intros Hj Ho Hl Hhi w a w' (Hroom & Hok & _). unfold arena_push.
  destruct (Z.geb_spec (count (arena w)) (capacity (arena w))) as [Hfull|_]; [lia|].
  destruct (register_token _ _ _ _ _) as [r|]; [|discriminate].
  intros [= _ <-].
  set (t' := if _ <? _ then _ else t).
  assert (Ht' : has_joiner (meta t') = false /\ offset t' = offset t /\
                length t' = length t).
  { unfold t'. destruct (_ <? _); [|now repeat split].
    rewrite has_joiner_absorb. destruct (absorb_span (byte_at code
      (skip_space (Z.to_nat (fs - (offset t + length t) mod U32)) code fs
                  ((offset t + length t) mod U32))) t) as (H1 & H2 & _).
    now repeat split. }
  destruct Ht' as (Hj' & Ho' & Hl').
  split; [|split].
  - unfold count in *. cbn [arena tokens capacity].
    rewrite length_app. cbn [List.length]. lia.
  - intros x Hx Hx'. cbn [arena tokens] in Hx. apply in_app_iff in Hx.
    destruct Hx as [Hx | [<- | []]]; [now apply Hok | congruence].
  - intros _. exists (tokens (arena w)), t'. split; [reflexivity|].
    right. rewrite Ho', Hl', Ho. reflexivity.
Qed.

Lemma mark_joiner_snoc w l t :
  tokens (arena w) = l ++ [t] ->
  mark_joiner w
  = Done tt (mkWorld (mkArena (l ++ [set_meta with_has_joiner t])
                              (capacity (arena w)))
                     (registry w) (global_model w)).
Proof.
  intros El. unfold mark_joiner. rewrite El, update_last_snoc.
  destruct l; reflexivity.
Qed.

(** The mark at an underscore. *)
Lemma mark_joiner_state code hi pos te te' :
  0 < te -> byte_at code pos = 95 ->
  triple (joiner_state code hi pos te) mark_joiner
         (fun _ w => joiner_state code hi (pos + 1) te' w).
Proof.
  intros Hte Hu w a w' (Hroom & Hok & Hlast).
  destruct (Hlast Hte) as (l & t & El & Ht).
  rewrite (mark_joiner_snoc w l t El). intros [= _ <-].
  split; [|split].
  - unfold count in *. cbn [arena tokens capacity].
    rewrite El in Hroom. rewrite !length_app in *. cbn [List.length] in *. lia.
  - intros y Hy Hy'. cbn [arena tokens] in Hy. apply in_app_iff in Hy.
    destruct Hy as [Hy | [<- | []]].
    + apply Hok; [|exact Hy']. rewrite El. apply in_app_iff. now left.
    + change (offset (set_meta with_has_joiner t)) with (offset t).
      change (length (set_meta with_has_joiner t)) with (length t).
      destruct Ht as [Ht | Ht]; [|now rewrite Ht].
      apply Hok; [|exact Ht]. rewrite El. apply in_app_iff. right. now left.
  - intros _. exists l, (set_meta with_has_joiner t). split; [reflexivity|].
    now left.
Qed.

Section Joiners.

Variable float_gt5 : Z -> Z -> bool.

Variables (code : list Z) (hi : Z).

Lemma fragment_joiner_state off len d sp file_size start stop te te' :
  0 <= off -> 0 <= len < U16 -> off + len < U32 -> off + len <= hi ->
  0 <= start < stop -> stop <= len ->
  triple (joiner_state code hi (off + start) te)
         (arena_push (fragment_token code off start stop d sp te) code file_size)
         (fun _ w => joiner_state code hi (off + stop) te' w).
Proof.
  intros Hoff Hlen Hend Hhi Hs Hstop.
  destruct (fragment_token_fields code off start stop d sp te len)
    as [Ho Hl]; try lia.
  replace (off + stop)
    with (off + start + length (fragment_token code off start stop d sp te))
    by (rewrite Hl; lia).
  apply push_joiner_state; [reflexivity | exact Ho | rewrite Hl; lia | rewrite Hl; lia].
Qed.

Lemma split_loop_joiners off len d sp file_size n :
  0 <= off -> 0 <= len < U16 -> off + len < U32 -> off + len <= hi ->
  forall i start te,
    i + Z.of_nat n = len -> 0 <= start <= i ->
    triple (joiner_state code hi (off + start) te)
           (split_loop float_gt5 n code off len d sp file_size i start te)
           (fun r w => joiner_state code hi (off + fst r) (snd r) w /\
                       0 <= fst r <= len).
Proof.
  intros Hoff Hlen Hend Hhi.
  induction n as [|n IH]; intros i start te Hn Hs.
  - apply triple_ret. intros w Hw. cbn [fst snd]. split; [exact Hw | lia].
  - cbn [split_loop].
    destruct (Z.eqb_spec (byte_at code (off + i)) 95) as [Hu|Hu].
    + apply triple_bind with (Q := fun te' w => joiner_state code hi (off + i) te' w).
      * destruct (Z.gtb_spec i start) as [Hgt|Hle].
        -- apply triple_bind
             with (Q := fun _ w => joiner_state code hi (off + i) (te + 1) w).
           ++ apply (fragment_joiner_state off len); lia.
           ++ intros _. apply triple_ret. intros w Hw. exact Hw.
        -- apply triple_ret. intros w Hw.
           replace i with start by lia. exact Hw.
      * intros te'.
        apply triple_bind
          with (Q := fun _ w => joiner_state code hi (off + (i + 1)) te' w).
        -- destruct (Z.gtb_spec te' 0) as [Hpos|Hle].
           ++ replace (off + (i + 1)) with (off + i + 1) by lia.
              now apply mark_joiner_state.
           ++ apply triple_ret. intros w Hw.
              apply (joiner_state_skip code hi (off + i) _ te'); [exact Hw | lia | lia].
        -- intros _. apply IH; lia.
    + destruct (Z.ltb_spec i (len - 1)) as [Hlt|Hge]; [|apply IH; lia].
      apply triple_bind
        with (Q := fun _ w => joiner_state code hi (off + start) te w).
      * intros w m w' Hw [= _ <-]. exact Hw.
      * intros m.
        destruct (soft_split float_gt5 m code off len start i); [apply IH; lia | |];
          (apply triple_bind
             with (Q := fun _ w => joiner_state code hi (off + (i + 1)) (te + 1) w);
           [apply (fragment_joiner_state off len); lia | intros _; apply IH; lia]).
Qed.

Lemma process_identifier_joiners off len d sp file_size :
  0 <= off -> 0 < len < U16 -> off + len < U32 -> off + len <= hi ->
  triple (joiner_state code hi off 0)
         (process_identifier float_gt5 code off len d sp file_size)
         (fun _ w => joiner_state code hi (off + len) 0 w).
Proof.
  intros Hoff Hlen Hend Hhi. unfold process_identifier.
  destruct (is_word_locked code off len).
  - apply triple_bind with (Q := fun _ w => joiner_state code hi (off + len) 0 w).
    + assert (Ho : offset (locked_token code off len d sp) = off)
        by (cbn [offset locked_token]; apply Z.mod_small; unfold U32 in *; lia).
      assert (Hl : length (locked_token code off len d sp) = len)
        by (cbn [length locked_token]; apply Z.mod_small; unfold U16 in *; lia).
      replace (off + len) with (off + length (locked_token code off len d sp))
        by (now rewrite Hl).
      apply push_joiner_state; [reflexivity | exact Ho | rewrite Hl; lia
                               | rewrite Hl; lia].
    + intros _ w a w' Hw [= _ <-]. exact Hw.
  - apply triple_bind with (Q := fun _ w => joiner_state code hi off 0 w).
    { intros w a w' Hw [= _ <-]. exact Hw. }
    intros _.
    apply triple_bind
      with (Q := fun r w => joiner_state code hi (off + fst r) (snd r) w /\
                            0 <= fst r <= len).
    + intros w r w' Hw E.
      apply (split_loop_joiners off len d sp file_size (Z.to_nat len)
               Hoff ltac:(lia) Hend Hhi 0 0 0 ltac:(lia) ltac:(lia) w r w');
        [|exact E].
      replace (off + 0) with off by lia. exact Hw.
    + intros [start te]. cbn [fst snd].
      destruct (Z.ltb_spec start len) as [Hlt|Hge].
      * intros w a w' [Hw Hb] E.
        exact (fragment_joiner_state off len d sp file_size start len te 0
                 Hoff ltac:(lia) Hend Hhi ltac:(lia) ltac:(lia) w a w' Hw E).
      * apply triple_ret. intros w [Hw Hb].
        apply (joiner_state_skip code hi (off + start) _ te); [exact Hw | lia | lia].
Qed.

Lemma blob_loop_joiners start len d st_size n :
  0 <= start -> 0 <= len < U16 -> start + len < U32 -> start + len <= hi ->
  forall i sub_start,
    i + Z.of_nat n = len -> 0 <= sub_start <= i ->
    triple (joiner_state code hi (start + sub_start) 0)
           (blob_loop n code st_size start d i sub_start)
           (fun r w => joiner_state code hi (start + r) 0 w /\ 0 <= r <= len).
Proof.
  intros Hstart Hlen Hend Hhi.
  induction n as [|n IH]; intros i sub_start Hn Hs.
  - apply triple_ret. intros w Hw. split; [exact Hw | lia].
  - cbn [blob_loop]. destruct (_ || _); [|apply IH; lia].
    apply triple_bind with (Q := fun _ w => joiner_state code hi (start + (i + 1)) 0 w);
      [|intros _; apply IH; lia].
    destruct (Z.gtb_spec i sub_start) as [Hgt|Hle].
    + destruct (blob_token_fields code start sub_start i d len)
        as (Ho & Hl & _); try lia.
      apply triple_weaken
        with (P := joiner_state code hi (start + sub_start) 0)
             (Q := fun _ w =>
                joiner_state code hi
                  (start + sub_start
                   + length (blob_token code start sub_start (i - sub_start) d)) 0 w);
        [auto | |].
      * intros _ w Hw.
        apply (joiner_state_skip code hi _ _ 0 0 w Hw); [rewrite Hl; lia | lia].
      * apply push_joiner_state; [reflexivity | exact Ho | rewrite Hl; lia
                                 | rewrite Hl; lia].
    + apply triple_ret. intros w Hw.
      apply (joiner_state_skip code hi _ _ 0 0 w Hw); lia.
Qed.

Lemma process_leaf_joiners st_size lf :
  leaf_ok st_size lf -> start_byte lf + leaf_len lf <= hi ->
  triple (joiner_state code hi (start_byte lf) 0)
         (process_leaf float_gt5 code st_size lf)
         (fun _ w => joiner_state code hi (start_byte lf + leaf_len lf) 0 w).
Proof.
  intros Hok Hhi.
  destruct (leaf_ok_bounds _ _ Hok) as (Hlen & Hstart & Hend & Hint).
  unfold process_leaf. fold (leaf_len lf).
  destruct (Z.gtb_spec (leaf_len lf) 0) as [Hpos|Hle].
  2:{ apply triple_ret. intros w Hw.
      apply (joiner_state_skip code hi _ _ 0 0 w Hw); lia. }
  intros w a w' Hw. destruct (eaten code (start_byte lf) (arena w)).
  { intros [= _ <-]. apply (joiner_state_skip code hi _ _ 0 0 w Hw); lia. }
  destruct (classify code (node_type lf) (start_byte lf) (leaf_len lf));
    refine ((_ : triple (joiner_state code hi (start_byte lf) 0) _
                   (fun _ w => joiner_state code hi (start_byte lf + leaf_len lf) 0 w))
              w a w' Hw).
  - rewrite Hint. apply process_identifier_joiners; lia.
  - apply triple_bind
      with (Q := fun r w => joiner_state code hi (start_byte lf + r) 0 w /\
                            0 <= r <= leaf_len lf).
    + intros w0 r w0' Hw0 E.
      apply (blob_loop_joiners (start_byte lf) (leaf_len lf) (Z.rem (leaf_depth lf) 7)
               st_size (Z.to_nat (leaf_len lf)) Hstart ltac:(lia) Hend Hhi 0 0
               ltac:(lia) ltac:(lia) w0 r w0'); [|exact E].
      replace (start_byte lf + 0) with (start_byte lf) by lia. exact Hw0.
    + intros sub_start.
      destruct (Z.ltb_spec sub_start (leaf_len lf)) as [Hlt|Hge].
      * apply triple_weaken
          with (P := fun w => joiner_state code hi (start_byte lf + sub_start) 0 w /\
                              0 <= sub_start)
               (Q := fun _ w => joiner_state code hi (start_byte lf + leaf_len lf) 0 w);
          [intros w0 [H1 H2]; split; [exact H1 | lia] | auto|].
        intros w0 a0 w0' [Hw0 Hsub].
        destruct (blob_token_fields code (start_byte lf) sub_start (leaf_len lf)
                    (Z.rem (leaf_depth lf) 7) (leaf_len lf))
          as (_ & _ & Ho & Hl); try lia.
        intros E.
        pose proof (push_joiner_state code hi st_size
                      (blob_tail_token code (start_byte lf) sub_start (leaf_len lf))
                      (start_byte lf + sub_start) 0 0 eq_refl Ho
                      ltac:(rewrite Hl; lia) ltac:(rewrite Hl; lia)
                      w0 a0 w0' Hw0 E) as H.
        rewrite Hl in H.
        replace (start_byte lf + sub_start + (leaf_len lf - sub_start))
          with (start_byte lf + leaf_len lf) in H by lia.
        exact H.
      * apply triple_ret. intros w0 [Hw0 Hb].
        apply (joiner_state_skip code hi _ _ 0 0 w0 Hw0); lia.
  - set (t := default_token _ _ _ _ _ _).
    assert (Hl : length t = leaf_len lf) by reflexivity.
    rewrite <- Hl.
    apply push_joiner_state; [reflexivity | reflexivity | rewrite Hl; lia
                             | rewrite Hl; lia].
Qed.

Lemma run_leaves_joiners st_size ls : forall lo,
  Forall (leaf_ok st_size) ls -> leaves_in_order lo ls -> st_size <= hi ->
  triple (joiner_state code hi lo 0) (run_leaves float_gt5 code st_size ls)
         (fun _ w => joiners_ok code w).
Proof.
  induction ls as [|lf ls IH]; intros lo Hok Hord Hhi.
  - apply triple_ret. intros w (_ & H & _). exact H.
  - inversion Hok as [|? ? Hlf Hrest]; subst. destruct Hord as [Hs Hord].
    assert (Hle : leaf_len lf <= end_byte lf - start_byte lf)
      by (unfold leaf_len, U16; apply Z.mod_le; destruct Hlf; lia).
    pose proof Hlf as (H1 & H2 & H3).
    cbn [run_leaves].
    apply triple_bind
      with (Q := fun _ w => joiner_state code hi (end_byte lf) 0 w).
    + apply triple_weaken
        with (P := joiner_state code hi (start_byte lf) 0)
             (Q := fun _ w =>
                joiner_state code hi (start_byte lf + leaf_len lf) 0 w).
      * intros w Hw. apply (joiner_state_skip code hi lo _ 0 0 w Hw); lia.
      * intros _ w Hw. apply (joiner_state_skip code hi _ _ 0 0 w Hw); lia.
      * apply (process_leaf_joiners st_size); [exact Hlf | lia].
    + intros _. now apply IH.
Qed.

End Joiners.

(** X20.  has_joiner means what its name says.  From an arena with a
    place for each byte of the file, in which the marked tokens are
    followed by an underscore, a run over leaves in source order that
    returns leaves every token with [has_joiner = 1] directly followed by
    the byte [_].  So it is in the arena of a whole run over a parse tree
    of nested spans. *)
Theorem joiner_means_underscore (float_gt5 : Z -> Z -> bool) (code : list Z) :
  (forall st_size ls w w',
     Forall (leaf_ok st_size) ls -> leaves_in_order 0 ls ->
     count (arena w) + st_size <= capacity (arena w) -> joiners_ok code w ->
     run_leaves float_gt5 code st_size ls w = Done tt w' ->
     joiners_ok code w') /\
  (forall existing root w',
     tree_in 0 (Z.of_nat (List.length code)) root ->
     Z.of_nat (List.length code) < 2147483648 ->
     tokenize float_gt5 existing code root = Some (Done tt w') ->
     joiners_ok code w').
Proof.
  assert (Hrun : forall st_size ls w w',
     Forall (leaf_ok st_size) ls -> leaves_in_order 0 ls ->
     count (arena w) + st_size <= capacity (arena w) -> joiners_ok code w ->
     run_leaves float_gt5 code st_size ls w = Done tt w' ->
     joiners_ok code w').
  { intros st_size ls w w' Hok Hord Hroom Hj E.
    apply (run_leaves_joiners float_gt5 code st_size st_size ls 0 Hok Hord
             ltac:(lia) w tt w'); [|exact E].
    split; [lia|]. split; [exact Hj | intros H; lia]. }
  split; [exact Hrun|].
  intros existing root w' Htree Hsz. unfold tokenize, boot.
  destruct (load_registry existing init_registry) as [tbl|]; [|discriminate].
  intros [= E].
  pose proof (leaves_of_between root 0 0 _ Htree) as Hb.
  apply (leaves_between_hi _ _ _ (Z.of_nat (List.length code))) in Hb;
    [|now apply (tree_in_end 0)].
  destruct (leaves_between_ok _ 0 _ ltac:(lia) Hsz Hb) as [Hok Hord].
  apply (Hrun _ _ _ w' Hok Hord) in E; [exact E | |].
  - unfold count. cbn [arena tokens capacity List.length]. lia.
  - intros t [].
Qed.

(** [my_var_name]: the tokens [my] and [var] are marked. *)
Lemma joiner_means_underscore_witness :
  exists w',
    tokenize exact_gt5 [] code_my_var_name tree_my_var_name = Some (Done tt w') /\
    joiners_ok code_my_var_name w'.
Proof.
  destruct my_var_name_run_returns as (w' & E).
  exists w'. split; [exact E|].
  apply (proj2 (joiner_means_underscore exact_gt5 code_my_var_name) []
           tree_my_var_name w'); [cbn; lia | vm_compute; reflexivity | exact E].
Defined.
